(** * Diff-aware CSV export and versioning engine

    A shallow embedding of [src/backend/services/sync-service.ts]
    (the CSV writer, the row-hash diff engine, the persisted version
    index and the sync orchestrator) together with the job-ledger calls of
    the data layer it uses ([createSyncJob], [addSyncJobItem],
    [finishSyncJob], [listEmployees]).

    Conventions of the embedding:
    - JavaScript strings are [string]s (their UTF-8 bytes); numbers that
      occur in rows are integers (database ids, version numbers, the 0/1
      activity flag) and are kept in [Z];
    - a row ([Record<string, string | number>]) is the list of its own
      properties in enumeration order, since [JSON.stringify] follows
      that order;
    - a row-hash map ([Record<string, string>]) is the [gmap string string]
      of its own properties; this is exact for keys that do not name a
      member inherited from [Object.prototype], as are all keys of the
      two datasets, and the statements about arbitrary keys assume it;
    - [String.prototype.localeCompare] is a parameter, assumed to be a
      total preorder; the sample environment orders the characters of
      keys as the host's collation does;
    - file system, module-level heap, clock and database tables are threaded
      explicitly through a [World]. *)

From Stdlib Require Import Ascii.
From stdpp Require Import gmap strings list pretty sorting.

Set Warnings "-clear-no-such-hyp".

(** ** Characters and strings *)

Definition dquote : ascii := "034"%char.
Definition backslash : ascii := "092"%char.
Definition comma : ascii := ","%char.
Definition CR : ascii := "013"%char.
Definition LF : ascii := "010"%char.

Definition str1 (c : ascii) : string := String c EmptyString.

Fixpoint string_existsb (p : ascii → bool) (s : string) : bool :=
  match s with
  | EmptyString => false
  | String c s' => p c || string_existsb p s'
  end.

(** [s.replace(/c/g, r)] for a one-character pattern. *)
Fixpoint replace_all_char (c : ascii) (r : string) (s : string) : string :=
  match s with
  | EmptyString => EmptyString
  | String x s' =>
      (if decide (x = c) then r else str1 x) +:+ replace_all_char c r s'
  end.

(** [Array.prototype.join]. *)
Fixpoint js_join (sep : string) (l : list string) : string :=
  match l with
  | [] => EmptyString
  | [x] => x
  | x :: rest => x +:+ sep +:+ js_join sep rest
  end.

(** ** Rows *)

Inductive jsval :=
  | JStr (s : string)
  | JNum (n : Z).

#[global] Instance jsval_eq_dec : EqDecision jsval.
Proof. solve_decision. Defined.

(** [String(value)] *)
Definition js_String (v : jsval) : string :=
  match v with
  | JStr s => s
  | JNum n => pretty n
  end.

Definition CsvRow := list (string * jsval).

(** [row[h]]; [None] stands for [undefined]. A row is rendered by its own
    properties, in the order of their creation; the columns read by the
    code are the declared headers, none of which names a member that
    objects inherit. *)
Fixpoint row_get (row : CsvRow) (h : string) : option jsval :=
  match row with
  | [] => None
  | (k, v) :: rest => if decide (k = h) then Some v else row_get rest h
  end.

(** ** CSV serialisation *)

(** The test of [csvEscape]: a double quote, a comma, CR or LF. *)
Definition csv_special (c : ascii) : bool :=
  bool_decide (c = dquote) || bool_decide (c = comma)
  || bool_decide (c = CR) || bool_decide (c = LF).

Definition csvEscape (value : option jsval) : string :=
  let raw := match value with
             | None => EmptyString
             | Some v => js_String v
             end in
  if negb (string_existsb csv_special raw) then raw
  else String dquote
         (replace_all_char dquote (String dquote (str1 dquote)) raw
          +:+ str1 dquote).

Definition csv_line (headers : list string) (row : CsvRow) : string :=
  js_join (str1 comma) (map (λ h, csvEscape (row_get row h)) headers).

Definition rowsToCsv (headers : list string) (rows : list CsvRow) : string :=
  let lines := [js_join (str1 comma) headers] ++ map (csv_line headers) rows in
  js_join (str1 LF) lines +:+ str1 LF.

(** ** Row fingerprints: [JSON.stringify] on rows *)

Definition hex_digit (n : N) : ascii :=
  if (n <? 10)%N then ascii_of_N (48 + n) else ascii_of_N (87 + n).

(** One character of [QuoteJSONString]: the two-character escapes, the
    [\u00XX] form for the remaining control characters, everything else
    verbatim. *)
Definition json_escape_char (c : ascii) : string :=
  if decide (c = dquote) then String backslash (str1 dquote)
  else if decide (c = backslash) then String backslash (str1 backslash)
  else if decide (c = "008"%char) then String backslash "b"
  else if decide (c = "012"%char) then String backslash "f"
  else if decide (c = LF) then String backslash "n"
  else if decide (c = CR) then String backslash "r"
  else if decide (c = "009"%char) then String backslash "t"
  else if (N_of_ascii c <? 32)%N then
    String backslash
      ("u00" +:+ String (hex_digit (N_of_ascii c / 16))
                   (str1 (hex_digit (N_of_ascii c mod 16))))
  else str1 c.

Fixpoint json_escape (s : string) : string :=
  match s with
  | EmptyString => EmptyString
  | String c s' => json_escape_char c +:+ json_escape s'
  end.

Definition json_quote (s : string) : string :=
  String dquote (json_escape s +:+ str1 dquote).

Definition json_value (v : jsval) : string :=
  match v with
  | JStr s => json_quote s
  | JNum n => pretty n
  end.

Definition json_member (kv : string * jsval) : string :=
  json_quote kv.1 +:+ ":" +:+ json_value kv.2.

(** [JSON.stringify(row)]: members in property enumeration order. *)
Definition JSON_stringify (row : CsvRow) : string :=
  "{" +:+ js_join "," (map json_member row) +:+ "}".

(** A row-hash object is rendered by the map of its own properties. The
    assignment [out[k] = v] and the test [k in before] of the code are
    insertion and lookup in that map for every key that is not the name of
    a member of [Object.prototype] ([plain_key] below); the keys of the two
    datasets are of that kind, and the statements that range over other
    keys say so. *)
Abbreviation RowHashMap := (gmap string string).

Definition makeRowHashes (rows : list CsvRow) (keyFn : CsvRow → string)
  : RowHashMap :=
  foldl (λ out row, <[keyFn row := JSON_stringify row]> out) ∅ rows.

(** ** The diff engine *)

Record ExportDiff := mkDiff {
  inserted : nat;
  updated : nat;
  deleted : nat;
}.

#[global] Instance ExportDiff_eq_dec : EqDecision ExportDiff.
Proof. solve_decision. Defined.

(** Body of the first loop of [calcDiff], on the pair (inserted, updated). *)
Definition diff_step_after (before : RowHashMap)
    (acc : nat * nat) (kv : string * string) : nat * nat :=
  if bool_decide (before !! kv.1 = None) then (S acc.1, acc.2)
  else if bool_decide (before !! kv.1 ≠ Some kv.2) then (acc.1, S acc.2)
  else acc.

(** Body of the second loop. *)
Definition diff_step_before (after : RowHashMap) (acc : nat) (k : string)
  : nat :=
  if bool_decide (after !! k = None) then S acc else acc.

Definition calcDiff (before after : RowHashMap) : ExportDiff :=
  let iu := foldl (diff_step_after before) (0, 0) (map_to_list after) in
  let d := foldl (diff_step_before after) 0 (map_to_list before).*1 in
  {| inserted := iu.1; updated := iu.2; deleted := d |}.

Definition diff_total (d : ExportDiff) : nat :=
  inserted d + updated d + deleted d.

(** ** Stable sort

    [Array.prototype.sort] is stable; with a consistent comparator its
    result is the stable sort of the input, which right-to-left insertion
    computes. *)

Fixpoint sort_insert {A} (cmp : A → A → Z) (x : A) (l : list A) : list A :=
  match l with
  | [] => [x]
  | y :: l' =>
      if (cmp x y <=? 0)%Z then x :: l else y :: sort_insert cmp x l'
  end.

Definition js_sort {A} (cmp : A → A → Z) (l : list A) : list A :=
  foldr (sort_insert cmp) [] l.

(** ** Small string helpers of the writer *)

Fixpoint string_replicate (n : nat) (c : ascii) : string :=
  match n with
  | O => EmptyString
  | S n' => String c (string_replicate n' c)
  end.

(** [s.padStart(n, c)] *)
Definition padStart (n : nat) (c : ascii) (s : string) : string :=
  string_replicate (n - String.length s) c +:+ s.

(** [s.replace(c, EmptyString)] with a string pattern: first occurrence only. *)
Fixpoint remove_first_char (c : ascii) (s : string) : string :=
  match s with
  | EmptyString => EmptyString
  | String x s' => if decide (x = c) then s' else String x (remove_first_char c s')
  end.

(** [path.join(dir, name)] for a normalised [dir] and a plain file name. *)
Definition path_join (dir name : string) : string := dir +:+ "/" +:+ name.

(** A value interpolated in a template literal. *)
Definition template_value (o : option jsval) : string :=
  match o with
  | None => "undefined"
  | Some v => js_String v
  end.

(** [!value] on [string | null]. *)
Definition js_falsy (o : option string) : bool :=
  match o with
  | None => true
  | Some s => bool_decide (s = EmptyString)
  end.

(** ** The version index and the world it lives in *)

Record FileEntry := mkFileEntry {
  entry_version : Z;
  entry_fileName : string;
  entry_filePath : string;
  entry_createdAt : string;
}.

#[global] Instance FileEntry_eq_dec : EqDecision FileEntry.
Proof. solve_decision. Defined.

(** The [files] property of an index object is a reference to an array:
    either the one array created by the [DEFAULT_INDEX] literal, which
    lives as long as the module, or an array of the index object's own. *)
Inductive FilesRef :=
  | DefaultFilesArray
  | OwnArray (l : list FileEntry).

Record ExportIndex := mkIndex {
  latestVersion : Z;
  latestFilePath : option string;
  rowHashes : RowHashMap;
  files : FilesRef;
}.

(** What [JSON.parse] makes of a readable [index.json]: every field may be
    missing. *)
Record ParsedIndex := mkParsed {
  parsed_latestVersion : option Z;
  parsed_latestFilePath : option string;
  parsed_rowHashes : option RowHashMap;
  parsed_files : option (list FileEntry);
}.

(** Content of an [index.json] that exists: text on which [JSON.parse]
    (or the property access that follows) throws, or a parsed record. *)
Inductive IndexFile :=
  | Unparseable
  | Parsed (p : ParsedIndex).

Inductive TriggerType := auto | manual | retry.
Inductive JobStatus := queued | running | success | failed.

#[global] Instance JobStatus_eq_dec : EqDecision JobStatus.
Proof. solve_decision. Defined.

Record SyncJob := mkJob {
  job_id : Z;
  job_triggerType : TriggerType;
  job_status : JobStatus;
  job_spreadsheetId : string;
  job_sheetName : string;
  job_startedAt : option string;
  job_finishedAt : option string;
  job_errorMessage : option string;
  job_createdAt : string;
}.

(** A row of [sync_job_items]. *)
Record SyncItem := mkItem {
  item_syncJobId : Z;
  item_shiftSubmissionId : Z;
  item_status : JobStatus;
  item_errorMessage : option string;
}.

#[global] Instance SyncItem_eq_dec : EqDecision SyncItem.
Proof. solve_decision. Defined.

Record Employee := mkEmployee {
  emp_id : Z;
  emp_employeeCode : string;
  emp_displayName : string;
  emp_department : option string;
  emp_isActive : bool;
}.

Record World := mkWorld {
  default_files : list FileEntry;       (* contents of DEFAULT_INDEX.files *)
  index_fs : gmap string IndexFile;     (* the index.json files, by path *)
  csv_fs : gmap string string;          (* the .csv artifacts, by path *)
  ticks : nat;                          (* clock readings taken so far *)
  sync_jobs : list SyncJob;             (* table sync_jobs *)
  sync_job_items : list SyncItem;       (* table sync_job_items *)
  employees_table : list Employee;      (* what listEmployees returns *)
  next_job_id : Z;                      (* sequence of sync_jobs.id *)
}.

Definition set_default_files (l : list FileEntry) (w : World) : World :=
  mkWorld l (index_fs w) (csv_fs w) (ticks w) (sync_jobs w)
    (sync_job_items w) (employees_table w) (next_job_id w).
Definition set_index_fs (m : gmap string IndexFile) (w : World) : World :=
  mkWorld (default_files w) m (csv_fs w) (ticks w) (sync_jobs w)
    (sync_job_items w) (employees_table w) (next_job_id w).
Definition set_csv_fs (m : gmap string string) (w : World) : World :=
  mkWorld (default_files w) (index_fs w) m (ticks w) (sync_jobs w)
    (sync_job_items w) (employees_table w) (next_job_id w).
Definition tick (w : World) : World :=
  mkWorld (default_files w) (index_fs w) (csv_fs w) (S (ticks w)) (sync_jobs w)
    (sync_job_items w) (employees_table w) (next_job_id w).
Definition set_sync_jobs (l : list SyncJob) (n : Z) (w : World) : World :=
  mkWorld (default_files w) (index_fs w) (csv_fs w) (ticks w) l
    (sync_job_items w) (employees_table w) n.
Definition set_sync_job_items (l : list SyncItem) (w : World) : World :=
  mkWorld (default_files w) (index_fs w) (csv_fs w) (ticks w) (sync_jobs w)
    l (employees_table w) (next_job_id w).

(** A process that has just started, on an empty storage directory. *)
Definition fresh_world (emps : list Employee) : World :=
  mkWorld [] ∅ ∅ 0 [] [] emps 1.

Definition files_contents (w : World) (r : FilesRef) : list FileEntry :=
  match r with
  | DefaultFilesArray => default_files w
  | OwnArray l => l
  end.

(** [readIndex]: the [try] branch copies the parsed fields with their
    defaults; the [catch] branch returns the shallow copy of
    [DEFAULT_INDEX], whose [files] is the module's one array. *)
Definition readIndex (indexPath : string) (w : World) : ExportIndex :=
  match index_fs w !! indexPath with
  | Some (Parsed p) =>
      {| latestVersion := default 0%Z (parsed_latestVersion p);
         latestFilePath := parsed_latestFilePath p;
         rowHashes := default ∅ (parsed_rowHashes p);
         files := OwnArray (default [] (parsed_files p)) |}
  | Some Unparseable | None =>
      {| latestVersion := 0;
         latestFilePath := None;
         rowHashes := ∅;
         files := DefaultFilesArray |}
  end.

(** ** The artifact writer *)

Record WriteOptions := mkWriteOptions {
  baseDir : string;
  filePrefix : string;
  headers : list string;
  rows : list CsvRow;
  keyFn : CsvRow → string;
}.

Record Artifact := mkArtifact {
  fileName : string;
  filePath : string;
  version : Z;
}.

#[global] Instance Artifact_eq_dec : EqDecision Artifact.
Proof. solve_decision. Defined.

Record WriteResult := mkWriteResult {
  changed : bool;
  diff : ExportDiff;
  artifact : option Artifact;
}.

Definition artifact_of_entry (e : FileEntry) : Artifact :=
  {| fileName := entry_fileName e;
     filePath := entry_filePath e;
     version := entry_version e |}.

(** What a promise settles to. A rejection carries the thrown value,
    which may or may not be an [Error]. *)
Inductive Thrown :=
  | JsError (message : string)
  | NotAnError.

Inductive Settled (A : Type) :=
  | Fulfilled (value : A)
  | Rejected (reason : Thrown).
Arguments Fulfilled {A} value.
Arguments Rejected {A} reason.

(** How a call of an async function ends: it returns, it throws, or it
    stays suspended on a promise that is never resolved. *)
Inductive Outcome (A : Type) :=
  | Returned (a : A)
  | Raised (message : string)
  | Pending.
Arguments Returned {A} a.
Arguments Raised {A} message.
Arguments Pending {A}.

Section Service.

(** The environment of the process: the successive readings of the wall
    clock in milliseconds, the two renderings of a time stamp
    ([Date.prototype.toISOString] and PostgreSQL's [timestamptz::text]),
    the working directory, and the host's collation
    ([String.prototype.localeCompare]). *)
Variable clock : nat → Z.
Variable toISOString : Z → string.
Variable timestamptz_text : Z → string.
Variable cwd : string.
Variable localeCompare : string → string → Z.

Definition indexPath_of (dir : string) : string := path_join dir "index.json".

Definition artifact_fileName (prefix : string) (v ts : Z) : string :=
  prefix +:+ "_v" +:+ padStart 4 "0"%char (pretty v) +:+ "_" +:+ pretty ts
  +:+ ".csv".

Definition writeCsvWithDiff (o : WriteOptions) (w : World)
  : WriteResult * World :=
  let indexPath := indexPath_of (baseDir o) in
  let index := readIndex indexPath w in
  let rowHashes' := makeRowHashes (rows o) (keyFn o) in
  let diff := calcDiff (rowHashes index) rowHashes' in
  let changed :=
    bool_decide (0 < inserted diff + updated diff + deleted diff)
    || js_falsy (latestFilePath index) in
  if negb changed then
    let latest := last (files_contents w (files index)) in
    ({| changed := false; diff := diff;
        artifact := artifact_of_entry <$> latest |}, w)
  else
    let version := (latestVersion index + 1)%Z in
    let ts := clock (ticks w) in
    let w := tick w in
    let fileName := artifact_fileName (filePrefix o) version ts in
    let filePath := path_join (baseDir o) fileName in
    let w := set_csv_fs (<[filePath := rowsToCsv (headers o) (rows o)]> (csv_fs w)) w in
    let entry := {| entry_version := version;
                    entry_fileName := fileName;
                    entry_filePath := filePath;
                    entry_createdAt := toISOString (clock (ticks w)) |} in
    let w := tick w in
    (* index.files.push(entry): through the reference *)
    let files' := files_contents w (files index) ++ [entry] in
    let w := match files index with
             | DefaultFilesArray => set_default_files files' w
             | OwnArray _ => w
             end in
    let w := set_index_fs
               (<[indexPath := Parsed {| parsed_latestVersion := Some version;
                                         parsed_latestFilePath := Some filePath;
                                         parsed_rowHashes := Some rowHashes';
                                         parsed_files := Some files' |}]>
                  (index_fs w)) w in
    ({| changed := true; diff := diff;
        artifact := Some {| fileName := fileName; filePath := filePath;
                            version := version |} |}, w).

(** ** Row projection *)

Inductive Availability := available | unavailable | negotiable.

Definition availability_string (a : Availability) : string :=
  match a with
  | available => "available"
  | unavailable => "unavailable"
  | negotiable => "negotiable"
  end.

Record SubmissionDetail := mkDetail {
  targetDate : string;
  availability : Availability;
  memo : option string;
}.

Record ShiftSubmission := mkSubmission {
  sub_id : Z;
  sub_employeeId : Z;
  sub_yearMonth : string;
  sub_details : list SubmissionDetail;
}.

(** The object literal of [buildSubmissionRows], for one detail line. *)
Definition submission_row (submission : ShiftSubmission)
    (employeeName : string) (d : SubmissionDetail) : CsvRow :=
  [ ("submission_id", JNum (sub_id submission));
    ("year_month", JStr (sub_yearMonth submission));
    ("employee_id", JNum (sub_employeeId submission));
    ("employee_name", JStr employeeName);
    ("target_date", JStr (targetDate d));
    ("availability", JStr (availability_string (availability d)));
    ("time_range", JStr (default EmptyString (memo d))) ].

Definition buildSubmissionRows (submission : ShiftSubmission)
    (employeeName : string) : list CsvRow :=
  map (submission_row submission employeeName) (sub_details submission).

(** [processSubmission], after its timer has fired. *)
Definition processSubmission (submission : ShiftSubmission)
    (employeeNameById : gmap Z string) : Settled (list CsvRow) :=
  if bool_decide (length (sub_details submission) = 0) then
    Rejected (JsError "details is empty")
  else
    let employeeName :=
      default ("employee-" +:+ pretty (sub_employeeId submission))
              (employeeNameById !! sub_employeeId submission) in
    Fulfilled (buildSubmissionRows submission employeeName).

(** [Promise.allSettled]: promise [i] writes slot [i] of the result array
    when it settles, in whatever order [sched] the promises settle; the
    array is handed over once every slot is filled, and never before. *)
Definition settle_one {A} (tasks : list A) (slots : list (option A)) (i : nat)
  : list (option A) :=
  match tasks !! i with
  | Some r => <[i := Some r]> slots
  | None => slots
  end.

Definition allSettled {A} (sched : list nat) (tasks : list A)
  : option (list A) :=
  mapM id (foldl (settle_one tasks) (replicate (length tasks) None) sched).

(** ** The job ledger (data layer) *)

Definition createSyncJob (triggerType : TriggerType)
    (spreadsheetId sheetName : string) (status : JobStatus) (w : World)
  : SyncJob * World :=
  let now := timestamptz_text (clock (ticks w)) in
  let job := {| job_id := next_job_id w;
                job_triggerType := triggerType;
                job_status := status;
                job_spreadsheetId := spreadsheetId;
                job_sheetName := sheetName;
                job_startedAt := Some now;
                job_finishedAt := None;
                job_errorMessage := None;
                job_createdAt := now |} in
  (job, set_sync_jobs (sync_jobs w ++ [job]) (next_job_id w + 1)%Z (tick w)).

Definition same_item_key (a b : SyncItem) : bool :=
  bool_decide (item_syncJobId a = item_syncJobId b
               ∧ item_shiftSubmissionId a = item_shiftSubmissionId b).

(** [INSERT ... ON CONFLICT (sync_job_id, shift_submission_id) DO UPDATE],
    as a run issues it: for the job it has just created and for records
    read from [shift_submissions], so that both foreign keys hold. *)
Fixpoint upsert_item (it : SyncItem) (l : list SyncItem) : list SyncItem :=
  match l with
  | [] => [it]
  | x :: l' => if same_item_key x it then it :: l' else x :: upsert_item it l'
  end.

Definition addSyncJobItem (it : SyncItem) (w : World) : World :=
  set_sync_job_items (upsert_item it (sync_job_items w)) w.

Definition finish_job (id : Z) (status : JobStatus) (err : option string)
    (now : string) (j : SyncJob) : SyncJob :=
  if bool_decide (job_id j = id) then
    mkJob (job_id j) (job_triggerType j) status (job_spreadsheetId j)
      (job_sheetName j) (job_startedAt j) (Some now) err (job_createdAt j)
  else j.

Definition finishSyncJob (id : Z) (status : JobStatus) (err : option string)
    (w : World) : World :=
  let now := timestamptz_text (clock (ticks w)) in
  set_sync_jobs (map (finish_job id status err now) (sync_jobs w))
    (next_job_id w) (tick w).

Definition listEmployees (w : World) : list Employee := employees_table w.

(** ** The employee roster export *)

Definition employee_row (e : Employee) : CsvRow :=
  [ ("employee_id", JNum (emp_id e));
    ("employee_code", JStr (emp_employeeCode e));
    ("display_name", JStr (emp_displayName e));
    ("department", JStr (default EmptyString (emp_department e)));
    ("is_active", JNum (if emp_isActive e then 1 else 0)) ].

(** [Number(z)] for an integer [z]: the nearest value with a mantissa of
    53 bits, ties going to the even mantissa; [2 ^ 1024] stands for
    [Infinity], so that the difference of two values has the sign of the
    difference the code computes, and is zero where the code gets [NaN]. *)
Definition js_Number (z : Z) : Z :=
  let a := Z.abs z in
  if (a <? 2 ^ 53)%Z then z
  else
    let e := (Z.log2 a - 52)%Z in
    let q := Z.shiftr a e in
    let r := (a - Z.shiftl q e)%Z in
    let half := Z.shiftl 1 (e - 1) in
    let q' := if (r <? half)%Z then q
              else if (half <? r)%Z then (q + 1)%Z
              else if Z.even q then q else (q + 1)%Z in
    (Z.sgn z * Z.min (Z.shiftl q' e) (2 ^ 1024))%Z.

(** [Number(row[h])] on the rows built here, whose field is a number. *)
Definition row_number (row : CsvRow) (h : string) : Z :=
  match row_get row h with
  | Some (JNum n) => js_Number n
  | _ => 0
  end.

Definition employees_dir : string := cwd +:+ "/storage/csv/" +:+ "employees".

Definition employees_headers : list string :=
  ["employee_id"; "employee_code"; "display_name"; "department"; "is_active"].

Definition employee_key (row : CsvRow) : string :=
  template_value (row_get row "employee_id").

(** The roster rows, sorted by [Number(a.employee_id) - Number(b.employee_id)]. *)
Definition roster_rows (employees : list Employee) : list CsvRow :=
  js_sort (λ a b, (row_number a "employee_id" - row_number b "employee_id")%Z)
    (map employee_row employees).

Definition roster_options (rs : list CsvRow) : WriteOptions :=
  {| baseDir := employees_dir;
     filePrefix := "employees";
     headers := employees_headers;
     rows := rs;
     keyFn := employee_key |}.

Definition exportEmployeesCsvDiff (w : World) : WriteResult * World :=
  let employees := listEmployees w in
  writeCsvWithDiff (roster_options (roster_rows employees)) w.

(** ** The sync orchestrator *)

Record CsvSyncOptions := mkSyncOptions {
  yearMonth : string;
  triggerType : TriggerType;
  triggeredByUserId : Z;
  submissions : list ShiftSubmission;
}.

Record RunSummary := mkSummary {
  total_count : nat;
  success_count : nat;
  failed_count : nat;
  submissionDiff : ExportDiff;
  employeeDiff : ExportDiff;
}.

Record RunArtifact := mkRunArtifact {
  run_yearMonth : string;
  submissionsCsv : option Artifact;
  employeesCsv : option Artifact;
  run_changed : bool;
}.

Record RunResult := mkRunResult {
  job : SyncJob;
  summary : RunSummary;
  run_artifact : RunArtifact;
}.

(** The natural key of a submission row. *)
Definition submission_key (row : CsvRow) : string :=
  template_value (row_get row "submission_id") +:+ ":"
  +:+ template_value (row_get row "target_date").

Definition submissions_headers : list string :=
  ["submission_id"; "year_month"; "employee_id"; "employee_name";
   "target_date"; "availability"; "time_range"].

Definition submissions_dir (yearMonth : string) : string :=
  cwd +:+ "/storage/csv/" +:+ yearMonth.

Definition rejection_message (reason : Thrown) : string :=
  match reason with
  | JsError m => m
  | NotAnError => "csv export failed"
  end.

(** One turn of the loop over [settled]. *)
Definition record_settled (jobId : Z) (acc : list CsvRow * nat * World)
    (rs : Settled (list CsvRow) * ShiftSubmission) : list CsvRow * nat * World :=
  match rs.1 with
  | Fulfilled value =>
      (acc.1.1 ++ value, acc.1.2,
       addSyncJobItem {| item_syncJobId := jobId;
                         item_shiftSubmissionId := sub_id rs.2;
                         item_status := success;
                         item_errorMessage := None |} acc.2)
  | Rejected reason =>
      (acc.1.1, S acc.1.2,
       addSyncJobItem {| item_syncJobId := jobId;
                         item_shiftSubmissionId := sub_id rs.2;
                         item_status := failed;
                         item_errorMessage := Some (rejection_message reason) |}
                      acc.2)
  end.

Definition employeeNameById_of (employees : list Employee) : gmap Z string :=
  foldl (λ m e, <[emp_id e := emp_displayName e]> m) ∅ employees.

Definition submissions_cmp (a b : CsvRow) : Z :=
  localeCompare (submission_key a) (submission_key b).

(** The options literal handed to the writer for a month's dataset. *)
Definition submissions_options (yearMonth : string) (rs : list CsvRow)
  : WriteOptions :=
  {| baseDir := submissions_dir yearMonth;
     filePrefix := remove_first_char "-"%char yearMonth +:+ "_submissions";
     headers := submissions_headers;
     rows := rs;
     keyFn := submission_key |}.

Definition partial_failure_message : string :=
  "some rows failed during parallel csv export".

Definition runCsvSync (sched : list nat) (options : CsvSyncOptions) (w : World)
  : Outcome RunResult * World :=
  if bool_decide (length (submissions options) = 0) then
    (Raised "no submissions for target month", w)
  else
    let '(job0, w) :=
      createSyncJob (triggerType options) "csv-export"
        ("csv_" +:+ yearMonth options) running w in
    let employees := listEmployees w in
    let employeeNameById := employeeNameById_of employees in
    match allSettled sched
            (map (λ s, processSubmission s employeeNameById)
                 (submissions options)) with
    | None => (Pending, w)
    | Some settled =>
        let '(csvRows, failedCount, w) :=
          foldl (record_settled (job_id job0)) ([], 0, w)
                (zip settled (submissions options)) in
        let csvRows := js_sort submissions_cmp csvRows in
        let '(submissionsExport, w) :=
          writeCsvWithDiff (submissions_options (yearMonth options) csvRows) w in
        let '(employeesExport, w) := exportEmployeesCsvDiff w in
        let status := if bool_decide (0 < failedCount) then failed else success in
        let errorMessage :=
          if bool_decide (0 < failedCount)
          then Some partial_failure_message else None in
        let w := finishSyncJob (job_id job0) status errorMessage w in
        let finishedAt := toISOString (clock (ticks w)) in
        let w := tick w in
        (Returned
           {| job := mkJob (job_id job0) (job_triggerType job0) status
                       (job_spreadsheetId job0) (job_sheetName job0)
                       (job_startedAt job0) (Some finishedAt) errorMessage
                       (job_createdAt job0);
              summary :=
                {| total_count := length (submissions options);
                   success_count := length (submissions options) - failedCount;
                   failed_count := failedCount;
                   submissionDiff := diff submissionsExport;
                   employeeDiff := diff employeesExport |};
              run_artifact :=
                {| run_yearMonth := yearMonth options;
                   submissionsCsv := artifact submissionsExport;
                   employeesCsv := artifact employeesExport;
                   run_changed :=
                     changed submissionsExport || changed employeesExport |} |},
         w)
    end.

End Service.

(** * Vocabulary of the statements *)

(** ** Strings, lines and fields *)

Abbreviation chars := String.list_ascii_of_string.

(** A file made of lines, each closed by a line feed. *)
Fixpoint terminated_lines (lines : list string) : string :=
  match lines with
  | [] => EmptyString
  | l :: rest => l +:+ str1 LF +:+ terminated_lines rest
  end.

(** Doubling of the double quotes, on character lists. *)
Definition double_dquotes (l : list ascii) : list ascii :=
  l ≫= λ c, if decide (c = dquote) then [dquote; dquote] else [c].

Definition needs_quoting (s : string) : Prop :=
  ∃ c, c ∈ chars s ∧ (c = dquote ∨ c = comma ∨ c = CR ∨ c = LF).

(** ** Diff entries *)

Definition is_inserted (before : RowHashMap) (kv : string * string) : Prop :=
  before !! kv.1 = None.
Definition is_updated (before : RowHashMap) (kv : string * string) : Prop :=
  is_Some (before !! kv.1) ∧ before !! kv.1 ≠ Some kv.2.

#[global] Instance is_inserted_dec b kv : Decision (is_inserted b kv).
Proof. unfold is_inserted. apply _. Defined.
#[global] Instance is_updated_dec b kv : Decision (is_updated b kv).
Proof. unfold is_updated. apply _. Defined.

(** ** Reading back the first escaped character *)

Definition hex_value (c : ascii) : N :=
  if (N_of_ascii c <? 58)%N then (N_of_ascii c - 48)%N else (N_of_ascii c - 87)%N.

Definition json_unescape_head (s : string) : option (ascii * string) :=
  match s with
  | String c rest =>
      if decide (c = backslash) then
        match rest with
        | String e rest' =>
            if decide (e = "u"%char) then
              match rest' with
              | String _ (String _ (String h (String l rest''))) =>
                  Some (ascii_of_N (16 * hex_value h + hex_value l), rest'')
              | _ => None
              end
            else if decide (e = "b"%char) then Some ("008"%char, rest')
            else if decide (e = "f"%char) then Some ("012"%char, rest')
            else if decide (e = "n"%char) then Some (LF, rest')
            else if decide (e = "r"%char) then Some (CR, rest')
            else if decide (e = "t"%char) then Some ("009"%char, rest')
            else Some (e, rest')
        | EmptyString => None
        end
      else Some (c, rest)
  | EmptyString => None
  end.

(** ** Rows, orders, year-months *)

(** Two rows that are the same mapping from column to value. *)
Definition same_mapping (r1 r2 : CsvRow) : Prop :=
  ∀ h, row_get r1 h = row_get r2 h.

(** The order a comparator induces. *)
Definition cmp_le {A} (cmp : A → A → Z) (a b : A) : Prop := (cmp a b ≤ 0)%Z.

Definition is_digit (c : ascii) : bool :=
  (48 <=? N_of_ascii c)%N && (N_of_ascii c <=? 57)%N.

(** The shape the routes require of a year-month: four digits, a dash,
    two digits. *)
Definition is_yearMonth (s : string) : bool :=
  match s with
  | String a (String b (String c (String d (String e (String f (String g
      EmptyString)))))) =>
      is_digit a && is_digit b && is_digit c && is_digit d
      && bool_decide (e = "-"%char) && is_digit f && is_digit g
  | _ => false
  end.

(** ** What the writer sees and computes *)

(** The index as the writer sees it, and the pieces it computes. *)
Definition loaded (o : WriteOptions) (w : World) : ExportIndex :=
  readIndex (indexPath_of (baseDir o)) w.

Definition new_hashes (o : WriteOptions) : RowHashMap :=
  makeRowHashes (rows o) (keyFn o).

Definition computed_diff (o : WriteOptions) (w : World) : ExportDiff :=
  calcDiff (rowHashes (loaded o w)) (new_hashes o).

(** The history stored for a dataset, as the next load will see it. *)
Definition history (o : WriteOptions) (w : World) : list FileEntry :=
  files_contents w (files (loaded o w)).

Definition index_missing (p : string) (w : World) : Prop :=
  index_fs w !! p = None ∨ index_fs w !! p = Some Unparseable.

(** ** The stages of a run *)

(** The rows one record contributes, and the ledger entry it gets. *)
Definition rows_of_outcome (r : Settled (list CsvRow)) : list CsvRow :=
  match r with
  | Fulfilled value => value
  | Rejected _ => []
  end.

Definition item_of_outcome (jobId subId : Z) (r : Settled (list CsvRow))
  : SyncItem :=
  match r with
  | Fulfilled _ => mkItem jobId subId success None
  | Rejected reason => mkItem jobId subId failed (Some (rejection_message reason))
  end.

Definition is_rejected (r : Settled (list CsvRow)) : bool :=
  match r with
  | Fulfilled _ => false
  | Rejected _ => true
  end.

Definition expected_item (jobId : Z) (s : ShiftSubmission) : SyncItem :=
  if bool_decide (sub_details s = [])
  then mkItem jobId (sub_id s) failed (Some "details is empty")
  else mkItem jobId (sub_id s) success None.

Section Stages.

Variable clock : nat → Z.
Variable toISOString : Z → string.
Variable timestamptz_text : Z → string.
Variable cwd : string.
Variable localeCompare : string → string → Z.

Definition new_fileName (o : WriteOptions) (w : World) : string :=
  artifact_fileName (filePrefix o) (latestVersion (loaded o w) + 1)
    (clock (ticks w)).

Definition new_entry (o : WriteOptions) (w : World) : FileEntry :=
  {| entry_version := latestVersion (loaded o w) + 1;
     entry_fileName := new_fileName o w;
     entry_filePath := path_join (baseDir o) (new_fileName o w);
     entry_createdAt := toISOString (clock (S (ticks w))) |}.

Definition names_of (w : World) : gmap Z string :=
  employeeNameById_of (employees_table w).

Definition outcome_of (w : World) (s : ShiftSubmission)
  : Settled (list CsvRow) :=
  processSubmission s (names_of w).

(** Rows of the fulfilled records, in input order. *)
Definition projected_rows (w : World) (subs : list ShiftSubmission)
  : list CsvRow :=
  concat (map (λ s, rows_of_outcome (outcome_of w s)) subs).

Definition failure_count (w : World) (subs : list ShiftSubmission) : nat :=
  length (filter (λ s, is_rejected (outcome_of w s) = true) subs).

Definition item_of (w : World) (s : ShiftSubmission) : SyncItem :=
  item_of_outcome (next_job_id w) (sub_id s) (outcome_of w s).

(** The rows handed to the writer. *)
Definition sync_rows (w : World) (subs : list ShiftSubmission) : list CsvRow :=
  js_sort (submissions_cmp localeCompare) (projected_rows w subs).

Definition world_with_job (o : CsvSyncOptions) (w : World) : World :=
  (createSyncJob clock timestamptz_text (triggerType o) "csv-export"
     ("csv_" +:+ yearMonth o) running w).2.

Definition world_with_items (o : CsvSyncOptions) (w : World) : World :=
  foldl (λ w' s, addSyncJobItem (item_of w s) w') (world_with_job o w)
    (submissions o).

Definition submissions_export (o : CsvSyncOptions) (w : World)
  : WriteResult * World :=
  writeCsvWithDiff clock toISOString
    (submissions_options cwd (yearMonth o) (sync_rows w (submissions o)))
    (world_with_items o w).

Definition employees_export (o : CsvSyncOptions) (w : World)
  : WriteResult * World :=
  exportEmployeesCsvDiff clock toISOString cwd (submissions_export o w).2.

Definition final_status (o : CsvSyncOptions) (w : World) : JobStatus :=
  if bool_decide (0 < failure_count w (submissions o)) then failed else success.

Definition final_error (o : CsvSyncOptions) (w : World) : option string :=
  if bool_decide (0 < failure_count w (submissions o))
  then Some partial_failure_message else None.

Definition world_finished (o : CsvSyncOptions) (w : World) : World :=
  finishSyncJob clock timestamptz_text (next_job_id w) (final_status o w)
    (final_error o w) (employees_export o w).2.

(** The month's dataset as the run finds it and as it leaves it. *)
Definition month (o : CsvSyncOptions) : WriteOptions :=
  submissions_options cwd (yearMonth o) [].

Definition month_file (o : CsvSyncOptions) (fn : string) : string :=
  path_join (submissions_dir cwd (yearMonth o)) fn.

End Stages.

(** ** A sample environment, for running the model on concrete inputs *)

Module Sample.
(** Clock readings one millisecond apart, starting on 2026-03-01. *)
Definition clock (n : nat) : Z := 1772323200000 + Z.of_nat n.
(** Stand-ins for the two time stamp renderings. *)
Definition toISOString (ms : Z) : string := "ms" +:+ pretty ms.
Definition timestamptz_text (ms : Z) : string := "pg" +:+ pretty ms.
Definition cwd : string := "/app".
(** The collation, on the characters keys are made of: the host's
    collation puts the hyphen and the colon, in this order, before the
    digits, and compares key texts character by character with these
    weights. [collation_key] moves the two punctuation characters below
    the digits; the other characters keep their place. *)
Definition collation_char (c : ascii) : ascii :=
  if bool_decide (c = "-"%char) then "001"%char
  else if bool_decide (c = ":"%char) then "002"%char
  else c.

Fixpoint collation_key (s : string) : string :=
  match s with
  | EmptyString => EmptyString
  | String c s' => String (collation_char c) (collation_key s')
  end.

Definition localeCompare (a b : string) : Z :=
  match String.compare (collation_key a) (collation_key b) with
  | Lt => -1
  | Eq => 0
  | Gt => 1
  end.

Definition ann : Employee := mkEmployee 7 "E007" "Ann" None true.
Definition bob : Employee := mkEmployee 8 "E008" "Bob" (Some "Sales") false.

Definition day1 : SubmissionDetail := mkDetail "2026-03-01" available None.
Definition day2 : SubmissionDetail :=
  mkDetail "2026-03-02" negotiable (Some "AM").
Definition day2_edited : SubmissionDetail :=
  mkDetail "2026-03-02" negotiable (Some "PM").

Definition sub1 : ShiftSubmission := mkSubmission 1 7 "2026-03" [day1; day2].
Definition sub2 : ShiftSubmission := mkSubmission 2 8 "2026-03" [day1].
Definition sub_empty : ShiftSubmission := mkSubmission 3 8 "2026-03" [].
Definition sub10 : ShiftSubmission := mkSubmission 10 7 "2026-03" [day1].

Definition march (rs : list CsvRow) : WriteOptions :=
  submissions_options cwd "2026-03" rs.

Definition rows_v1 : list CsvRow :=
  [submission_row sub1 "Ann" day1; submission_row sub1 "Ann" day2].
Definition rows_v2 : list CsvRow :=
  [submission_row sub1 "Ann" day1; submission_row sub1 "Ann" day2_edited].

Definition world0 : World := fresh_world [ann; bob].
(** The world after a first export of [rows_v1]. *)
Definition world1 : World :=
  (writeCsvWithDiff clock toISOString (march rows_v1) world0).2.
End Sample.

Module SampleRun.
Import Sample.

(** Three records, the third without detail lines; the third promise
    settles first. *)
Definition options : CsvSyncOptions :=
  mkSyncOptions "2026-03" manual 1 [sub1; sub2; sub_empty].
Definition sched : list nat := [2; 0; 1].

(** A retry in which no record has a detail line. *)
Definition failing_options : CsvSyncOptions :=
  mkSyncOptions "2026-03" retry 1 [sub_empty].

Definition run :=
  runCsvSync clock toISOString timestamptz_text cwd localeCompare.
End SampleRun.

(** ** Numerals and member lists *)

(** The characters a rendered integer is made of. *)
Definition is_num_char (c : ascii) : bool :=
  is_digit c || bool_decide (c = "-"%char).

(** What follows the first member in the text of an object. *)
Fixpoint json_tail (l : list (string * jsval)) : string :=
  match l with
  | [] => "}"
  | m :: l' => "," +:+ json_member m +:+ json_tail l'
  end.

(** ** The line reader of the runtime-parameter script

    [parseCsvLine] of the script that copies [config/runtime-params.csv]
    into [.env]. [String.prototype.trim] is a parameter. *)

Section LineReader.

Variable trim : string → string.

(** The loop of [parseCsvLine], from a position of the line on: [out] and
    [cur] are the fields pushed so far and the field being read. *)
Fixpoint parseCsvLine_from (out : list string) (cur : string) (inQuote : bool)
    (line : string) : list string :=
  match line with
  | EmptyString => out ++ [trim cur]
  | String ch rest =>
      let otherwise :=
        if bool_decide (ch = dquote) then
          parseCsvLine_from out cur (negb inQuote) rest
        else if bool_decide (ch = comma) && negb inQuote then
          parseCsvLine_from (out ++ [trim cur]) EmptyString inQuote rest
        else
          parseCsvLine_from out (cur +:+ str1 ch) inQuote rest in
      match rest with
      | String next rest' =>
          if bool_decide (ch = dquote) && inQuote && bool_decide (next = dquote)
          then parseCsvLine_from out (cur +:+ str1 dquote) inQuote rest'
          else otherwise
      | EmptyString => otherwise
      end
  end.

Definition parseCsvLine (line : string) : list string :=
  parseCsvLine_from [] EmptyString false line.

End LineReader.

(** The text [csvEscape] encodes. *)
Definition field_text (value : option jsval) : string :=
  match value with
  | None => EmptyString
  | Some v => js_String v
  end.

(** ** Coherence of an index with its history *)

(** The version and the path of the index are those of the last entry of
    its history; an index without history records no path. *)
Definition index_coherent (o : WriteOptions) (w : World) : Prop :=
  match last (history o w) with
  | Some e =>
      latestFilePath (loaded o w) = Some (entry_filePath e)
      ∧ latestVersion (loaded o w) = entry_version e
  | None => latestFilePath (loaded o w) = None
  end.

(** ** Keys of the ledger *)

(** The pair on which [sync_job_items] is unique. *)
Definition item_key (it : SyncItem) : Z * Z :=
  (item_syncJobId it, item_shiftSubmissionId it).

(** ** The request validator *)

(** The shape the validator requires of a target date: four digits, a
    dash, two digits, a dash, two digits. *)
Definition is_targetDate (s : string) : bool :=
  match s with
  | String a (String b (String c (String d (String e (String f (String g
      (String h (String i (String j EmptyString))))))))) =>
      is_digit a && is_digit b && is_digit c && is_digit d
      && bool_decide (e = "-"%char) && is_digit f && is_digit g
      && bool_decide (h = "-"%char) && is_digit i && is_digit j
  | _ => false
  end.

(** The request body. [req_employeeId] is a JS number: [Some z] when it
    is the integer [z], [None] when [Number.isInteger] rejects it;
    [req_details] is [None] when the member is absent. *)
Record ShiftSubmissionCreateRequest := mkRequest {
  req_yearMonth : string;
  req_employeeId : option Z;
  req_details : option (list SubmissionDetail);
}.

(** One turn of the loop over the details: the errors pushed and the
    date added to [dateSet]. *)
Definition validate_detail (st : list string * gset string)
    (d : SubmissionDetail) : list string * gset string :=
  let errors := st.1 in
  let dateSet := st.2 in
  let errors :=
    if negb (is_targetDate (targetDate d))
    then errors ++ ["invalid targetDate: " +:+ targetDate d] else errors in
  let errors :=
    if bool_decide (targetDate d ∈ dateSet)
    then errors ++ ["duplicate targetDate: " +:+ targetDate d] else errors in
  (errors, {[targetDate d]} ∪ dateSet).

Definition validateShiftSubmissionCreate (input : ShiftSubmissionCreateRequest)
  : list string :=
  let errors := [] in
  let errors :=
    if negb (is_yearMonth (req_yearMonth input))
    then errors ++ ["yearMonth must be YYYY-MM"] else errors in
  let errors :=
    if match req_employeeId input with
       | None => true
       | Some z => bool_decide (z ≤ 0)%Z
       end
    then errors ++ ["employeeId must be a positive integer"] else errors in
  let errors :=
    if match req_details input with
       | None => true
       | Some ds => bool_decide (length ds = 0)
       end
    then errors ++ ["details must have at least one item"] else errors in
  (foldl validate_detail (errors, ∅) (default [] (req_details input))).1.

(** ** Keys that name no inherited member *)

(** The names of the members every plain object inherits from
    [Object.prototype]. *)
Definition object_prototype_names : list string :=
  ["constructor"; "hasOwnProperty"; "isPrototypeOf"; "propertyIsEnumerable";
   "toLocaleString"; "toString"; "valueOf"; "__proto__";
   "__defineGetter__"; "__defineSetter__"; "__lookupGetter__";
   "__lookupSetter__"].

Definition plain_key (k : string) : Prop := k ∉ object_prototype_names.

Definition plain_keys (m : RowHashMap) : Prop :=
  ∀ k, is_Some (m !! k) → plain_key k.

(** An integer within [Number.MAX_SAFE_INTEGER]. *)
Definition safe_integer (z : Z) : Prop :=
  (Z.abs z ≤ 9007199254740991)%Z.

(** The integer a row holds in a column. *)
Definition row_integer (row : CsvRow) (h : string) : Z :=
  match row_get row h with
  | Some (JNum n) => n
  | _ => 0
  end.

(** ** The natural key, as the specification names it *)

(** submission_id:target_date, read off the columns of a row. *)
Definition natural_key (row : CsvRow) : string :=
  field_text (row_get row "submission_id") +:+ ":"
  +:+ field_text (row_get row "target_date").

(** ** Keys the collation does not separate *)

Definition tied (cmp : string → string → Z) (a b : string) : Prop :=
  (cmp a b ≤ 0)%Z ∧ (cmp b a ≤ 0)%Z.

#[global] Instance tied_dec cmp a b : Decision (tied cmp a b).
Proof. unfold tied. apply _. Defined.

(** * Properties *)

(** ** Strings as character lists *)

Lemma app_String c s t : String c s +:+ t = String c (s +:+ t).
Proof. reflexivity. Qed.

Lemma app_Empty_l s : EmptyString +:+ s = s.
Proof. reflexivity. Qed.

Lemma app_Empty_r s : s +:+ EmptyString = s.
Proof. induction s as [|c s IH]; [done|]. by rewrite app_String, IH. Qed.

Lemma string_app_assoc s t u : (s +:+ t) +:+ u = s +:+ (t +:+ u).
Proof. induction s as [|c s IH]; [done|]. by rewrite !app_String, IH. Qed.

Lemma chars_app s t : chars (s +:+ t) = chars s ++ chars t.
Proof. induction s as [|c s IH]; [done|]. rewrite app_String. simpl. by rewrite IH. Qed.

Lemma chars_inj s t : chars s = chars t → s = t.
Proof.
  intros H. rewrite <-(String.string_of_list_ascii_of_string s),
    <-(String.string_of_list_ascii_of_string t). by rewrite H.
Qed.

Lemma string_app_inv_tail s t u : s +:+ u = t +:+ u → s = t.
Proof.
  intros H. apply chars_inj. apply (f_equal chars) in H.
  rewrite !chars_app in H. by apply app_inv_tail in H.
Qed.

Lemma string_existsb_elem_of p s :
  string_existsb p s = true ↔ ∃ c, c ∈ chars s ∧ p c = true.
Proof.
  induction s as [|x s IH]; simpl.
  - split; [done|]. intros (c & Hc & _). by apply elem_of_nil in Hc.
  - rewrite orb_true_iff, IH. split.
    + intros [Hx|(c & Hc & Hp)]; [exists x|exists c]; split; auto;
        [by left|by right].
    + intros (c & Hc & Hp). apply elem_of_cons in Hc as [->|Hc]; eauto.
Qed.

(** ** The CSV format *)

Lemma js_join_terminated sep x l :
  js_join sep (x :: l) +:+ sep
  = foldr (λ y acc, y +:+ sep +:+ acc) EmptyString (x :: l).
Proof.
  revert x. induction l as [|y l IH]; intros x.
  - simpl. by rewrite app_Empty_r.
  - change (js_join sep (x :: y :: l)) with (x +:+ sep +:+ js_join sep (y :: l)).
    rewrite !string_app_assoc, IH. reflexivity.
Qed.

Lemma terminated_lines_foldr l :
  terminated_lines l = foldr (λ y acc, y +:+ str1 LF +:+ acc) EmptyString l.
Proof. induction l as [|x l IH]; simpl; by rewrite ?IH. Qed.

Lemma rowsToCsv_lines hs rs :
  rowsToCsv hs rs
  = terminated_lines (js_join (str1 comma) hs :: map (csv_line hs) rs).
Proof.
  unfold rowsToCsv. rewrite terminated_lines_foldr.
  apply (js_join_terminated (str1 LF)).
Qed.

Lemma terminated_lines_end x l :
  ∃ body, terminated_lines (x :: l) = body +:+ str1 LF.
Proof.
  revert x. induction l as [|y l IH]; intros x.
  - exists x. simpl. by rewrite app_Empty_r.
  - destruct (IH y) as [body Hb]. exists (x +:+ str1 LF +:+ body).
    simpl in *. rewrite Hb. by rewrite !string_app_assoc.
Qed.

Lemma csv_special_spec c :
  csv_special c = true ↔ c = dquote ∨ c = comma ∨ c = CR ∨ c = LF.
Proof.
  unfold csv_special. rewrite !orb_true_iff, !bool_decide_eq_true. tauto.
Qed.

Lemma needs_quoting_spec s :
  string_existsb csv_special s = true ↔ needs_quoting s.
Proof.
  rewrite string_existsb_elem_of. unfold needs_quoting.
  by setoid_rewrite csv_special_spec.
Qed.

Lemma replace_dquote_chars s :
  chars (replace_all_char dquote (String dquote (str1 dquote)) s)
  = double_dquotes (chars s).
Proof.
  unfold double_dquotes. induction s as [|c s IH]; [done|].
  simpl. rewrite chars_app, IH. by destruct (decide (c = dquote)).
Qed.

(** C6. A written artifact is the header line (the column names joined by
    commas) followed by one line per row, every line closed by a line
    feed, so the file starts with the header and ends with a newline; a
    field holding a comma, a double quote, CR or LF is put between double
    quotes with its double quotes doubled, any other field is copied as it
    is, an absent value gives the empty field. *)
Theorem csv_artifact_format (hs : list string) (rs : list CsvRow) :
  rowsToCsv hs rs
    = terminated_lines (js_join (str1 comma) hs :: map (csv_line hs) rs)
  ∧ (∃ rest, rowsToCsv hs rs = js_join (str1 comma) hs +:+ str1 LF +:+ rest)
  ∧ (∃ body, rowsToCsv hs rs = body +:+ str1 LF)
  ∧ (∀ row, csv_line hs row
            = js_join (str1 comma) (map (λ h, csvEscape (row_get row h)) hs))
  ∧ (∀ v, needs_quoting (js_String v) →
          chars (csvEscape (Some v))
          = [dquote] ++ double_dquotes (chars (js_String v)) ++ [dquote])
  ∧ (∀ v, ¬ needs_quoting (js_String v) → csvEscape (Some v) = js_String v)
  ∧ csvEscape None = EmptyString
  ∧ csvEscape (Some (JStr ("Mon, " +:+ str1 dquote +:+ "AM" +:+ str1 dquote
                           +:+ " only")))
    = str1 dquote +:+ "Mon, " +:+ str1 dquote +:+ str1 dquote +:+ "AM"
      +:+ str1 dquote +:+ str1 dquote +:+ " only" +:+ str1 dquote.
Proof.
  split_and!.
  - apply rowsToCsv_lines.
  - rewrite rowsToCsv_lines. simpl. eauto.
  - rewrite rowsToCsv_lines. apply terminated_lines_end.
  - done.
  - intros v Hq. apply needs_quoting_spec in Hq.
    unfold csvEscape. rewrite Hq. simpl.
    by rewrite chars_app, replace_dquote_chars.
  - intros v Hq. unfold csvEscape.
    destruct (string_existsb csv_special (js_String v)) eqn:E; [|done].
    by apply needs_quoting_spec in E.
  - done.
  - by vm_compute.
Qed.

Lemma csv_artifact_format_witness :
  chars (csvEscape (Some (JStr "a,b")))
  = [dquote] ++ double_dquotes (chars "a,b") ++ [dquote].
Proof.
  destruct (csv_artifact_format submissions_headers []) as (_ & _ & _ & _ & H & _).
  apply (H (JStr "a,b")). exists comma. split.
  - simpl. right. left.
  - right. left. reflexivity.
Defined.

(** ** The diff engine counts what it says *)

Section Counting.
Context {A : Type} (P : A → Prop) `{!∀ x, Decision (P x)}.

Lemma foldl_count (l : list A) (n : nat) :
  foldl (λ acc x, if bool_decide (P x) then S acc else acc) n l
  = n + length (filter P l).
Proof.
  revert n. induction l as [|x l IH]; intros n; simpl; [lia|].
  rewrite IH, filter_cons. case_bool_decide; case_decide; simpl; try done; lia.
Qed.
End Counting.

Lemma map_to_list_filter_length {V} (P : string * V → Prop)
    `{!∀ x, Decision (P x)} (m : gmap string V) :
  length (filter P (map_to_list m)) = size (filter P m).
Proof.
  rewrite <-length_map_to_list. apply Permutation_length, NoDup_Permutation.
  - apply NoDup_filter, NoDup_map_to_list.
  - apply NoDup_map_to_list.
  - intros [k v]. rewrite list_elem_of_filter, !elem_of_map_to_list.
    rewrite map_lookup_filter_Some. tauto.
Qed.

Lemma foldl_diff_step_after before l acc :
  foldl (diff_step_after before) acc l
  = (acc.1 + length (filter (is_inserted before) l),
     acc.2 + length (filter (is_updated before) l)).
Proof.
  revert acc. induction l as [|kv l IH]; intros [i u]; simpl.
  - f_equal; lia.
  - rewrite IH, !filter_cons. unfold diff_step_after.
    destruct (decide (is_inserted before kv)) as [Hi|Hi];
      destruct (decide (is_updated before kv)) as [Hu|Hu];
      unfold is_inserted, is_updated in Hi, Hu.
    + exfalso. destruct Hu as [[? Hs] _]. congruence.
    + rewrite bool_decide_eq_true_2 by done. simpl. f_equal; lia.
    + rewrite bool_decide_eq_false_2 by done.
      rewrite bool_decide_eq_true_2 by tauto. simpl. f_equal; lia.
    + rewrite bool_decide_eq_false_2 by done.
      rewrite bool_decide_eq_false_2; [simpl; f_equal; lia|].
      intros Hne. apply Hu. split; [|done].
      destruct (before !! kv.1); [eauto|done].
Qed.

Lemma foldl_diff_step_before (after : RowHashMap) (l : list (string * string)) n :
  foldl (diff_step_before after) n l.*1
  = n + length (filter (is_inserted after) l).
Proof.
  revert n. induction l as [|kv l IH]; intros n; simpl; [lia|].
  rewrite IH, filter_cons. unfold diff_step_before, is_inserted.
  case_bool_decide; case_decide; simpl; try done; lia.
Qed.

Lemma dom_filter_absent (m other : RowHashMap) :
  dom (filter (is_inserted other) m) = dom m ∖ dom other.
Proof.
  apply set_eq. intros k. rewrite elem_of_difference, !elem_of_dom.
  rewrite <-eq_None_not_Some. unfold is_Some, is_inserted.
  setoid_rewrite map_lookup_filter_Some. simpl. naive_solver.
Qed.

Lemma calcDiff_inserted before after :
  inserted (calcDiff before after) = size (dom after ∖ dom before).
Proof.
  unfold calcDiff. simpl. rewrite foldl_diff_step_after. simpl.
  by rewrite map_to_list_filter_length, <-dom_filter_absent, size_dom.
Qed.

Lemma calcDiff_updated before after :
  updated (calcDiff before after) = size (filter (is_updated before) after).
Proof.
  unfold calcDiff. simpl. rewrite foldl_diff_step_after. simpl.
  by rewrite map_to_list_filter_length.
Qed.

Lemma calcDiff_deleted before after :
  deleted (calcDiff before after) = size (dom before ∖ dom after).
Proof.
  unfold calcDiff. simpl. rewrite foldl_diff_step_before. simpl.
  by rewrite map_to_list_filter_length, <-dom_filter_absent, size_dom.
Qed.

(** ** Row hashes *)

Lemma makeRowHashes_nil key : makeRowHashes [] key = ∅.
Proof. done. Qed.

Lemma makeRowHashes_snoc rows r key :
  makeRowHashes (rows ++ [r]) key
  = <[key r := JSON_stringify r]> (makeRowHashes rows key).
Proof. unfold makeRowHashes. by rewrite foldl_snoc. Qed.

Lemma makeRowHashes_dom rows key k :
  k ∈ dom (makeRowHashes rows key) ↔ ∃ r, r ∈ rows ∧ key r = k.
Proof.
  induction rows as [|r rows IH] using rev_ind.
  - rewrite makeRowHashes_nil, dom_empty_L. split; [set_solver|].
    intros (r & Hr & _). by apply elem_of_nil in Hr.
  - rewrite makeRowHashes_snoc, dom_insert_L, elem_of_union, elem_of_singleton, IH.
    setoid_rewrite elem_of_app. setoid_rewrite list_elem_of_singleton.
    naive_solver.
Qed.

Lemma makeRowHashes_empty_iff rows key : makeRowHashes rows key = ∅ ↔ rows = [].
Proof.
  split; [|by intros ->].
  destruct rows as [|r rows] using rev_ind; [done|].
  rewrite makeRowHashes_snoc. intros H. by apply insert_non_empty in H.
Qed.

(** Inserting the rows that come after a row cannot touch its entry when
    none of them has its key. *)
Lemma foldl_insert_commute key (l : list CsvRow) k v (m : RowHashMap) :
  k ∉ key <$> l →
  foldl (λ out row, <[key row := JSON_stringify row]> out) (<[k := v]> m) l
  = <[k := v]> (foldl (λ out row, <[key row := JSON_stringify row]> out) m l).
Proof.
  revert m. induction l as [|r l IH]; intros m Hk; [done|].
  rewrite fmap_cons, not_elem_of_cons in Hk. destruct Hk as [Hne Hk].
  simpl. rewrite <-IH by done. by rewrite insert_insert_ne.
Qed.

Lemma makeRowHashes_replace key l1 r r' l2 :
  key r' = key r → key r ∉ key <$> l2 →
  makeRowHashes (l1 ++ r' :: l2) key
  = <[key r := JSON_stringify r']> (makeRowHashes (l1 ++ r :: l2) key)
  ∧ makeRowHashes (l1 ++ r :: l2) key !! key r = Some (JSON_stringify r).
Proof.
  intros Hk Hnot. unfold makeRowHashes. rewrite !foldl_app. simpl.
  rewrite Hk, !foldl_insert_commute by done.
  split; [by rewrite insert_insert_eq|by rewrite lookup_insert_eq].
Qed.

(** One stored value replaced by a different one: exactly one update. *)
Lemma calcDiff_one_update (m : RowHashMap) k v v' :
  m !! k = Some v → v ≠ v' →
  calcDiff m (<[k := v']> m) = {| inserted := 0; updated := 1; deleted := 0 |}.
Proof.
  intros Hm Hne.
  assert (dom (<[k := v']> m) = dom m) as Hdom.
  { rewrite dom_insert_L. apply elem_of_dom_2 in Hm. set_solver. }
  pose proof (calcDiff_inserted m (<[k := v']> m)) as Hi.
  pose proof (calcDiff_updated m (<[k := v']> m)) as Hu.
  pose proof (calcDiff_deleted m (<[k := v']> m)) as Hd.
  rewrite Hdom, difference_diag_L, size_empty in Hi, Hd.
  assert (filter (is_updated m) (<[k := v']> m) = {[k := v']}) as Hf.
  { apply map_eq. intros i. apply option_eq. intros x.
    rewrite map_lookup_filter_Some, lookup_singleton_Some.
    unfold is_updated. simpl. destruct (decide (i = k)) as [->|Hik].
    - rewrite lookup_insert_eq, Hm. split.
      + intros [[= <-] _]. done.
      + intros [_ <-]. split_and!; [done|eauto|congruence].
    - rewrite lookup_insert_ne by done. split; [|naive_solver].
      intros [Hx [_ Hc]]. done. }
  rewrite Hf, map_size_singleton in Hu.
  destruct (calcDiff m (<[k := v']> m)); simpl in *; by subst.
Qed.

(** A diff with nothing to report means the two maps are the same. *)
Lemma calcDiff_zero_iff (before after : RowHashMap) :
  inserted (calcDiff before after) + updated (calcDiff before after)
  + deleted (calcDiff before after) = 0 ↔ before = after.
Proof.
  rewrite calcDiff_inserted, calcDiff_updated, calcDiff_deleted. split.
  - intros H.
    assert (dom after ∖ dom before = ∅) as Hi by (apply leibniz_equiv, size_empty_iff; lia).
    assert (dom before ∖ dom after = ∅) as Hd by (apply leibniz_equiv, size_empty_iff; lia).
    assert (filter (is_updated before) after = ∅) as Hu by (apply map_size_empty_inv; lia).
    apply map_eq. intros k.
    destruct (after !! k) as [v|] eqn:Ea.
    + destruct (before !! k) as [v0|] eqn:Eb.
      * destruct (decide (v0 = v)) as [->|Hne]; [done|]. exfalso.
        assert (filter (is_updated before) after !! k = Some v) as Hin.
        { apply map_lookup_filter_Some. split; [done|]. unfold is_updated. simpl.
          rewrite Eb. split; [eauto|congruence]. }
        rewrite Hu in Hin. done.
      * exfalso. apply elem_of_dom_2 in Ea. apply not_elem_of_dom in Eb. set_solver.
    + destruct (before !! k) as [v0|] eqn:Eb; [|done].
      exfalso. apply elem_of_dom_2 in Eb. apply not_elem_of_dom in Ea. set_solver.
  - intros ->. rewrite difference_diag_L, size_empty.
    assert (filter (is_updated after) after = ∅) as ->.
    { apply map_eq. intros k. rewrite lookup_empty. apply eq_None_not_Some.
      intros [v Hv]. apply map_lookup_filter_Some in Hv as [Hk [_ Hne]].
      simpl in Hne. done. }
    by rewrite map_size_empty.
Qed.

(** ** Fingerprints tell memos apart

    The escaping of [JSON.stringify] is a prefix code on characters: the
    first escaped character of a string can be read back, whatever follows
    it. *)

Lemma json_unescape_head_escape c r :
  json_unescape_head (json_escape_char c +:+ r) = Some (c, r).
Proof. destruct c as [[] [] [] [] [] [] [] []]; reflexivity. Qed.

Lemma json_escape_inj s t : json_escape s = json_escape t → s = t.
Proof.
  revert t. induction s as [|c s IH]; intros [|d t] H; simpl in H.
  - done.
  - apply (f_equal json_unescape_head) in H.
    rewrite json_unescape_head_escape in H. done.
  - apply (f_equal json_unescape_head) in H.
    rewrite json_unescape_head_escape in H. done.
  - apply (f_equal json_unescape_head) in H.
    rewrite !json_unescape_head_escape in H.
    injection H as -> H. f_equal. by apply IH.
Qed.

Lemma json_quote_inj s t : json_quote s = json_quote t → s = t.
Proof.
  unfold json_quote. intros [= H].
  by apply string_app_inv_tail, json_escape_inj in H.
Qed.

(** Two rows of the same submission and date have the same natural key,
    and the same fingerprint only if their memo columns agree. *)
Lemma submission_row_fingerprint s name d d' :
  targetDate d' = targetDate d → availability d' = availability d →
  JSON_stringify (submission_row s name d)
  = JSON_stringify (submission_row s name d') →
  default EmptyString (memo d) = default EmptyString (memo d').
Proof.
  intros Ht Ha. unfold JSON_stringify, submission_row, json_member. simpl.
  rewrite Ht, Ha. intros H.
  repeat (apply (inj (String.app _)) in H).
  rewrite <-!string_app_assoc in H.
  apply string_app_inv_tail in H.
  rewrite !string_app_assoc in H.
  repeat (apply (inj (String.app _)) in H).
  by apply json_quote_inj in H.
Qed.

(** ** The artifact writer *)

Lemma path_join_nonempty dir name : path_join dir name ≠ EmptyString.
Proof. unfold path_join. destruct dir; discriminate. Qed.

Lemma js_falsy_path_join dir name : js_falsy (Some (path_join dir name)) = false.
Proof. simpl. apply bool_decide_eq_false_2, path_join_nonempty. Qed.

Section WriterProperties.

Variable clock : nat → Z.
Variable toISOString : Z → string.

Let write := writeCsvWithDiff clock toISOString.

Lemma write_changed_iff o w :
  changed (write o w).1 = true
  ↔ 0 < inserted (computed_diff o w) + updated (computed_diff o w)
        + deleted (computed_diff o w)
    ∨ js_falsy (latestFilePath (loaded o w)) = true.
Proof.
  unfold write, writeCsvWithDiff.
  fold (loaded o w). fold (new_hashes o). fold (computed_diff o w).
  case_bool_decide as E1; destruct (js_falsy _) eqn:E2; simpl.
  - split; auto.
  - split; auto.
  - split; auto.
  - split; [done|]. intros [H|H]; [exfalso; apply E1, H|done].
Qed.

Lemma write_diff o w : diff (write o w).1 = computed_diff o w.
Proof.
  unfold write, writeCsvWithDiff.
  fold (loaded o w). fold (new_hashes o). fold (computed_diff o w).
  by destruct (_ || _).
Qed.

(** Nothing to report and an artifact on record: the world is left as it
    is and the last entry of the history is handed back. *)
Lemma write_unchanged o w :
  inserted (computed_diff o w) + updated (computed_diff o w)
    + deleted (computed_diff o w) = 0 →
  js_falsy (latestFilePath (loaded o w)) = false →
  write o w
  = ({| changed := false; diff := computed_diff o w;
        artifact := artifact_of_entry <$> last (history o w) |}, w).
Proof.
  intros Hz Hf. unfold write, writeCsvWithDiff.
  fold (loaded o w). fold (new_hashes o). fold (computed_diff o w).
  rewrite Hf, orb_false_r, bool_decide_eq_false_2 by lia. done.
Qed.

(** A change, or no artifact on record: what is returned and what is
    stored. *)
Lemma write_changed o w :
  changed (write o w).1 = true →
  (write o w).1
  = {| changed := true; diff := computed_diff o w;
       artifact := Some (artifact_of_entry (new_entry clock toISOString o w)) |}
  ∧ index_fs (write o w).2
    = <[indexPath_of (baseDir o) :=
          Parsed {| parsed_latestVersion := Some (latestVersion (loaded o w) + 1)%Z;
                    parsed_latestFilePath := Some (entry_filePath (new_entry clock toISOString o w));
                    parsed_rowHashes := Some (new_hashes o);
                    parsed_files := Some (history o w ++ [new_entry clock toISOString o w]) |}]>
        (index_fs w)
  ∧ csv_fs (write o w).2
    = <[entry_filePath (new_entry clock toISOString o w) := rowsToCsv (headers o) (rows o)]>
        (csv_fs w)
  ∧ default_files (write o w).2
    = match files (loaded o w) with
      | DefaultFilesArray => default_files w ++ [new_entry clock toISOString o w]
      | OwnArray _ => default_files w
      end
  ∧ ticks (write o w).2 = S (S (ticks w))
  ∧ sync_jobs (write o w).2 = sync_jobs w
  ∧ sync_job_items (write o w).2 = sync_job_items w
  ∧ employees_table (write o w).2 = employees_table w
  ∧ next_job_id (write o w).2 = next_job_id w.
Proof.
  unfold write, writeCsvWithDiff, history, new_entry, new_fileName.
  fold (loaded o w). fold (new_hashes o). fold (computed_diff o w).
  destruct (_ || _); simpl; [|done]. intros _.
  destruct (files (loaded o w)); simpl; done.
Qed.

(** What the next load finds after a changed export. *)
Lemma loaded_after_change o w :
  changed (write o w).1 = true →
  loaded o (write o w).2
  = {| latestVersion := latestVersion (loaded o w) + 1;
       latestFilePath := Some (entry_filePath (new_entry clock toISOString o w));
       rowHashes := new_hashes o;
       files := OwnArray (history o w ++ [new_entry clock toISOString o w]) |}.
Proof.
  intros Hc. destruct (write_changed o w Hc) as (_ & Hidx & _).
  unfold loaded at 1. unfold readIndex. rewrite Hidx, lookup_insert_eq. done.
Qed.

(** After any export the stored row hashes are those of the rows given. *)
Lemma loaded_hashes_after_write o w :
  rowHashes (loaded o (write o w).2) = new_hashes o.
Proof.
  destruct (changed (write o w).1) eqn:Hc.
  - by rewrite loaded_after_change.
  - assert (¬ (0 < inserted (computed_diff o w) + updated (computed_diff o w)
                   + deleted (computed_diff o w)
               ∨ js_falsy (latestFilePath (loaded o w)) = true)) as Hn.
    { rewrite <-write_changed_iff. congruence. }
    rewrite write_unchanged; [|lia|by destruct (js_falsy _); [tauto|]].
    simpl. apply calcDiff_zero_iff. unfold computed_diff in Hn. lia.
Qed.

(** Exporting the same rows a second time changes nothing and hands back
    the artifact of the first export. *)
Lemma write_twice o w :
  write o (write o w).2
  = ({| changed := false; diff := mkDiff 0 0 0;
        artifact := artifact (write o w).1 |}, (write o w).2).
Proof.
  destruct (changed (write o w).1) eqn:Hc.
  - pose proof (loaded_after_change o w Hc) as Hl.
    destruct (write_changed o w Hc) as (Hr & _).
    assert (computed_diff o (write o w).2 = mkDiff 0 0 0) as Hd.
    { unfold computed_diff. rewrite Hl. simpl.
      pose proof (proj2 (calcDiff_zero_iff (new_hashes o) (new_hashes o)) eq_refl).
      destruct (calcDiff _ _) as [i u d]; simpl in *.
      f_equal; lia. }
    rewrite write_unchanged.
    + rewrite Hd. unfold history. rewrite Hl. simpl. rewrite last_snoc.
      rewrite Hr. done.
    + by rewrite Hd.
    + rewrite Hl. simpl. apply bool_decide_eq_false_2, path_join_nonempty.
  - assert (¬ (0 < inserted (computed_diff o w) + updated (computed_diff o w)
                   + deleted (computed_diff o w)
               ∨ js_falsy (latestFilePath (loaded o w)) = true)) as Hn.
    { rewrite <-write_changed_iff. congruence. }
    assert (inserted (computed_diff o w) + updated (computed_diff o w)
            + deleted (computed_diff o w) = 0) as Hz by lia.
    assert (js_falsy (latestFilePath (loaded o w)) = false) as Hf
      by (destruct (js_falsy _); [tauto|done]).
    rewrite (write_unchanged o w Hz Hf). simpl.
    rewrite (write_unchanged o w Hz Hf). do 2 f_equal.
    destruct (computed_diff o w) as [i u d]; simpl in *. f_equal; lia.
Qed.

End WriterProperties.

(** ** C2: an export with nothing to report *)

(** C2. When the diff is all zero and the index records a latest artifact,
    the writer answers [changed = false] with the last artifact of the
    stored history (none if the history is empty) and returns the world as
    it found it: no file, no version number, the same index. Hence a
    second export of the same rows, right after a first one, is such a
    no-op and hands back the first one's artifact. *)
Theorem unchanged_export_is_noop (clock : nat → Z) (toISOString : Z → string)
    (o : WriteOptions) (w : World) :
  (calcDiff (rowHashes (loaded o w)) (makeRowHashes (rows o) (keyFn o))
     = mkDiff 0 0 0 →
   js_falsy (latestFilePath (loaded o w)) = false →
   writeCsvWithDiff clock toISOString o w
   = ({| changed := false; diff := mkDiff 0 0 0;
         artifact := artifact_of_entry <$> last (history o w) |}, w))
  ∧ writeCsvWithDiff clock toISOString o
      (writeCsvWithDiff clock toISOString o w).2
    = ({| changed := false; diff := mkDiff 0 0 0;
          artifact := artifact (writeCsvWithDiff clock toISOString o w).1 |},
       (writeCsvWithDiff clock toISOString o w).2).
Proof.
  split; [|apply write_twice].
  intros Hd Hf. rewrite write_unchanged; [|unfold computed_diff, new_hashes..].
  - unfold computed_diff, new_hashes. by rewrite Hd.
  - by rewrite Hd.
  - done.
Qed.

Lemma unchanged_export_is_noop_witness :
  writeCsvWithDiff Sample.clock Sample.toISOString
    (Sample.march Sample.rows_v1) Sample.world1
  = ({| changed := false; diff := mkDiff 0 0 0;
        artifact :=
          artifact_of_entry
            <$> last (history (Sample.march Sample.rows_v1) Sample.world1) |},
     Sample.world1).
Proof.
  apply (proj1 (unchanged_export_is_noop Sample.clock Sample.toISOString
                  (Sample.march Sample.rows_v1) Sample.world1)).
  - vm_compute. reflexivity.
  - vm_compute. reflexivity.
Defined.

(** ** Rendered integers *)

Lemma pretty_N_char_digit x : is_digit (pretty_N_char x) = true.
Proof. unfold pretty_N_char. by repeat case_match. Qed.

Lemma pretty_N_go_digits x s :
  ∃ p, pretty_N_go x s = p +:+ s
       ∧ Forall (λ c, is_digit c = true) (chars p)
       ∧ ((0 < x)%N → p ≠ EmptyString).
Proof.
  revert s. induction (N.lt_wf_0 x) as [x _ IH]; intros s.
  assert (x = 0 ∨ 0 < x)%N as [->|Hx] by lia.
  - exists EmptyString. rewrite pretty_N_go_0. split_and!; [done|constructor|lia].
  - rewrite pretty_N_go_step by done.
    destruct (IH (x `div` 10)%N (N.div_lt x 10 Hx eq_refl)
                (String (pretty_N_char (x `mod` 10)) s)) as (p & -> & Hp & _).
    exists (p +:+ str1 (pretty_N_char (x `mod` 10))). split_and!.
    + by rewrite string_app_assoc.
    + rewrite chars_app. apply Forall_app. split; [done|].
      repeat constructor. apply pretty_N_char_digit.
    + intros _. destruct p; discriminate.
Qed.

Lemma pretty_N_digits (n : N) :
  Forall (λ c, is_digit c = true) (chars (pretty n))
  ∧ pretty n ≠ EmptyString.
Proof.
  unfold pretty, pretty_N. case_decide as Hn.
  - split; [by repeat constructor|done].
  - destruct (pretty_N_go_digits n EmptyString) as (p & -> & Hp & Hne).
    rewrite app_Empty_r. split; [done|]. apply Hne. lia.
Qed.

Lemma pretty_Z_num_chars (z : Z) :
  Forall (λ c, is_num_char c = true) (chars (pretty z))
  ∧ pretty z ≠ EmptyString.
Proof.
  assert (∀ n : N, Forall (λ c, is_num_char c = true) (chars (pretty n))) as Hd.
  { intros n. eapply Forall_impl; [apply pretty_N_digits|].
    intros c Hc. unfold is_num_char. by rewrite Hc. }
  destruct z as [|p|p]; unfold pretty, pretty_Z.
  - split; [by repeat constructor|done].
  - split; [apply Hd|apply pretty_N_digits].
  - split; [|done]. rewrite chars_app. apply Forall_app. split; [|apply Hd].
    by repeat constructor.
Qed.

(** A run of characters of one kind is determined by the text it starts,
    once a character of another kind follows it. *)
Lemma string_span_unique (P : ascii → bool) s1 d1 r1 s2 d2 r2 :
  Forall (λ c, P c = true) (chars s1) → Forall (λ c, P c = true) (chars s2) →
  P d1 = false → P d2 = false →
  s1 +:+ String d1 r1 = s2 +:+ String d2 r2 →
  s1 = s2 ∧ d1 = d2 ∧ r1 = r2.
Proof.
  revert s2. induction s1 as [|c s1 IH]; intros [|c2 s2] H1 H2 Hd1 Hd2 H;
    rewrite ?app_String, ?app_Empty_l in H; simplify_eq/=.
  - done.
  - apply Forall_cons in H2 as [Hc _]. congruence.
  - apply Forall_cons in H1 as [Hc _]. congruence.
  - apply Forall_cons in H1 as [_ H1]. apply Forall_cons in H2 as [_ H2].
    destruct (IH s2 H1 H2 Hd1 Hd2) as (-> & -> & ->); done.
Qed.

(** ** Fingerprints determine rows *)

Lemma json_escape_char_head c :
  ∃ x r, json_escape_char c = String x r ∧ x ≠ dquote.
Proof.
  destruct c as [[] [] [] [] [] [] [] []]; eexists _, _;
    (split; [reflexivity|discriminate]).
Qed.

Lemma json_escape_delimited s t s' t' :
  json_escape s +:+ String dquote t = json_escape s' +:+ String dquote t' →
  s = s' ∧ t = t'.
Proof.
  revert s'. induction s as [|c s IH]; intros [|c' s'] H; simpl in H.
  - rewrite !app_Empty_l in H. by simplify_eq.
  - exfalso. rewrite app_Empty_l, string_app_assoc in H.
    destruct (json_escape_char_head c') as (x & r & Hx & Hne).
    rewrite Hx, app_String in H. by simplify_eq.
  - exfalso. rewrite app_Empty_l, string_app_assoc in H.
    destruct (json_escape_char_head c) as (x & r & Hx & Hne).
    rewrite Hx, app_String in H. by simplify_eq.
  - rewrite !string_app_assoc in H.
    apply (f_equal json_unescape_head) in H.
    rewrite !json_unescape_head_escape in H. simplify_eq.
    destruct (IH s' ltac:(done)) as [-> ->]. done.
Qed.

Lemma json_quote_delimited s t s' t' :
  json_quote s +:+ t = json_quote s' +:+ t' → s = s' ∧ t = t'.
Proof.
  unfold json_quote. rewrite !app_String, !string_app_assoc. intros [= H].
  by apply json_escape_delimited in H.
Qed.

Lemma json_value_delimited v1 d1 t1 v2 d2 t2 :
  is_num_char d1 = false → is_num_char d2 = false →
  json_value v1 +:+ String d1 t1 = json_value v2 +:+ String d2 t2 →
  v1 = v2 ∧ d1 = d2 ∧ t1 = t2.
Proof.
  intros Hd1 Hd2 H. destruct v1 as [s1|n1], v2 as [s2|n2]; simpl in H.
  - apply json_quote_delimited in H as [-> H]. by simplify_eq.
  - exfalso. destruct (pretty_Z_num_chars n2) as [Hc Hne].
    unfold json_quote in H. rewrite app_String in H.
    destruct (pretty n2) as [|c p]; [done|].
    rewrite app_String in H. simplify_eq.
    by apply Forall_cons in Hc as [Hc _].
  - exfalso. destruct (pretty_Z_num_chars n1) as [Hc Hne].
    unfold json_quote in H. rewrite app_String in H.
    destruct (pretty n1) as [|c p]; [done|].
    rewrite app_String in H. simplify_eq.
    by apply Forall_cons in Hc as [Hc _].
  - apply (string_span_unique is_num_char) in H as (H & -> & ->);
      [|apply pretty_Z_num_chars..|done|done].
    by apply (inj pretty) in H as ->.
Qed.

Lemma json_member_delimited m1 d1 t1 m2 d2 t2 :
  is_num_char d1 = false → is_num_char d2 = false →
  json_member m1 +:+ String d1 t1 = json_member m2 +:+ String d2 t2 →
  m1 = m2 ∧ d1 = d2 ∧ t1 = t2.
Proof.
  intros Hd1 Hd2. destruct m1 as [k1 v1], m2 as [k2 v2].
  unfold json_member. simpl. rewrite !string_app_assoc. intros H.
  apply json_quote_delimited in H as [-> H].
  apply (inj (String.app _)) in H.
  by apply json_value_delimited in H as (-> & -> & ->).
Qed.

Lemma json_tail_head l :
  ∃ d t, json_tail l = String d t ∧ is_num_char d = false.
Proof. destruct l; eexists _, _; (split; [reflexivity|done]). Qed.

Lemma json_tail_inj l1 l2 : json_tail l1 = json_tail l2 → l1 = l2.
Proof.
  revert l2. induction l1 as [|m1 l1 IH]; intros [|m2 l2] H; simpl in H;
    try done.
  apply (inj (String.app _)) in H.
  destruct (json_tail_head l1) as (d1 & t1 & E1 & Hd1).
  destruct (json_tail_head l2) as (d2 & t2 & E2 & Hd2).
  rewrite E1, E2 in H.
  apply json_member_delimited in H as (-> & -> & ->); [|done..].
  f_equal. apply IH. by rewrite E1, E2.
Qed.

Lemma JSON_stringify_tail m l :
  JSON_stringify (m :: l) = "{" +:+ json_member m +:+ json_tail l.
Proof.
  unfold JSON_stringify. f_equal. revert m.
  induction l as [|m' l IH]; intros m; [done|].
  change (js_join "," (map json_member (m :: m' :: l)))
    with (json_member m +:+ "," +:+ js_join "," (map json_member (m' :: l))).
  rewrite !string_app_assoc, IH. reflexivity.
Qed.

(** ** Keys of the two datasets *)

Lemma plain_key_with_colon a b : plain_key (a +:+ ":" +:+ b).
Proof.
  intros Hin.
  assert (string_existsb (λ c, bool_decide (c = ":"%char)) (a +:+ ":" +:+ b)
          = true) as Hc.
  { clear. induction a as [|c a IH]; [reflexivity|].
    rewrite app_String. cbn [string_existsb]. rewrite IH. apply orb_true_r. }
  unfold object_prototype_names in Hin.
  repeat (apply elem_of_cons in Hin as [Hin|Hin];
          [rewrite Hin in Hc; vm_compute in Hc; discriminate Hc|]).
  by apply elem_of_nil in Hin.
Qed.

Lemma submission_key_plain row : plain_key (submission_key row).
Proof. unfold submission_key. apply plain_key_with_colon. Qed.

Lemma numeral_plain (z : Z) : plain_key (pretty z).
Proof.
  intros Hin. destruct (pretty_Z_num_chars z) as [Hc _].
  unfold object_prototype_names in Hin.
  repeat (apply elem_of_cons in Hin as [Hin|Hin];
          [rewrite Hin in Hc; apply Forall_cons in Hc as [Hc _];
           vm_compute in Hc; discriminate Hc|]).
  by apply elem_of_nil in Hin.
Qed.

Lemma employee_key_plain e : plain_key (employee_key (employee_row e)).
Proof. apply numeral_plain. Qed.

Lemma makeRowHashes_plain (rs : list CsvRow) (key : CsvRow → string) :
  Forall (λ r, plain_key (key r)) rs → plain_keys (makeRowHashes rs key).
Proof.
  intros Hall k Hk. apply elem_of_dom, makeRowHashes_dom in Hk as (r & Hr & <-).
  rewrite Forall_forall in Hall. by apply Hall.
Qed.

(** ** C3: what the diff counts *)

Lemma submission_key_same_date s name d d' :
  targetDate d' = targetDate d →
  submission_key (submission_row s name d')
  = submission_key (submission_row s name d).
Proof. intros Ht. unfold submission_key. simpl. by rewrite Ht. Qed.

(** C3. For keys that name no inherited member, as the keys of the two
    datasets all are, and with [after] the hash map of the current rows:
    [inserted] is the number of keys of [after] that [before] lacks,
    [updated] the number of entries of [after] whose key [before] has with
    a different value, [deleted] the number of keys of [before] that
    [after] lacks. Editing the memo of one projected row, all other rows
    kept, is reported as one update and nothing else; the writer then
    stores the rows in a new file, under the next version, and records
    version, path, history entry and row hashes in the index. *)
Theorem diff_counts (before : RowHashMap) (rs : list CsvRow)
    (key : CsvRow → string) :
  (plain_keys before →
   Forall (λ r, plain_key (key r)) rs →
   inserted (calcDiff before (makeRowHashes rs key))
     = size (dom (makeRowHashes rs key) ∖ dom before)
   ∧ updated (calcDiff before (makeRowHashes rs key))
     = size (filter (λ kv, is_Some (before !! kv.1) ∧ before !! kv.1 ≠ Some kv.2)
                    (makeRowHashes rs key))
   ∧ deleted (calcDiff before (makeRowHashes rs key))
     = size (dom before ∖ dom (makeRowHashes rs key)))
  ∧ (∀ row, plain_key (submission_key row))
  ∧ (∀ e, plain_key (employee_key (employee_row e)))
  ∧ ∀ (s : ShiftSubmission) (name : string) (d d' : SubmissionDetail)
      (l1 l2 : list CsvRow),
      targetDate d' = targetDate d →
      availability d' = availability d →
      default EmptyString (memo d') ≠ default EmptyString (memo d) →
      submission_key (submission_row s name d) ∉ submission_key <$> l2 →
      calcDiff
        (makeRowHashes (l1 ++ submission_row s name d :: l2) submission_key)
        (makeRowHashes (l1 ++ submission_row s name d' :: l2) submission_key)
      = mkDiff 0 1 0
      ∧ ∀ (clock : nat → Z) (toISOString : Z → string) (o : WriteOptions)
          (w : World),
          keyFn o = submission_key →
          rows o = l1 ++ submission_row s name d' :: l2 →
          rowHashes (loaded o w)
          = makeRowHashes (l1 ++ submission_row s name d :: l2)
              submission_key →
          ∃ a,
            (writeCsvWithDiff clock toISOString o w).1
            = {| changed := true; diff := mkDiff 0 1 0; artifact := Some a |}
            ∧ version a = (latestVersion (loaded o w) + 1)%Z
            ∧ csv_fs (writeCsvWithDiff clock toISOString o w).2 !! filePath a
              = Some (terminated_lines
                        (js_join (str1 comma) (headers o)
                           :: map (csv_line (headers o)) (rows o)))
            ∧ latestVersion (loaded o (writeCsvWithDiff clock toISOString o w).2)
              = (latestVersion (loaded o w) + 1)%Z
            ∧ latestFilePath
                (loaded o (writeCsvWithDiff clock toISOString o w).2)
              = Some (filePath a)
            ∧ rowHashes (loaded o (writeCsvWithDiff clock toISOString o w).2)
              = makeRowHashes (rows o) submission_key
            ∧ history o (writeCsvWithDiff clock toISOString o w).2
              = history o w
                ++ [{| entry_version := version a;
                       entry_fileName := fileName a;
                       entry_filePath := filePath a;
                       entry_createdAt :=
                         toISOString (clock (S (ticks w))) |}].
Proof.
  split.
  { intros _ _. split_and!; [apply calcDiff_inserted|apply calcDiff_updated
                            |apply calcDiff_deleted]. }
  split; [apply submission_key_plain|].
  split; [apply employee_key_plain|].
  intros s name d d' l1 l2 Ht Ha Hm Hk.
  destruct (makeRowHashes_replace submission_key l1 (submission_row s name d)
              (submission_row s name d') l2) as [Hnew Hold];
    [by apply submission_key_same_date|done|].
  assert (calcDiff
            (makeRowHashes (l1 ++ submission_row s name d :: l2) submission_key)
            (makeRowHashes (l1 ++ submission_row s name d' :: l2) submission_key)
          = mkDiff 0 1 0) as Hdiff.
  { rewrite Hnew.
    apply (calcDiff_one_update _ _ (JSON_stringify (submission_row s name d)));
      [done|].
    intros Heq. apply Hm. symmetry.
    by apply (submission_row_fingerprint s name d d'). }
  split; [done|].
  intros clock toISOString o w Hkey Hrows Hloaded.
  assert (computed_diff o w = mkDiff 0 1 0) as Hcd.
  { unfold computed_diff, new_hashes. by rewrite Hloaded, Hkey, Hrows. }
  assert (changed (writeCsvWithDiff clock toISOString o w).1 = true) as Hc.
  { apply write_changed_iff. left. rewrite Hcd. simpl. lia. }
  destruct (write_changed clock toISOString o w Hc)
    as (Hres & _ & Hcsv & _).
  pose proof (loaded_after_change clock toISOString o w Hc) as Hl.
  exists (artifact_of_entry (new_entry clock toISOString o w)).
  split_and!.
  - by rewrite Hres, Hcd.
  - reflexivity.
  - rewrite Hcsv. cbn [artifact_of_entry filePath].
    rewrite lookup_insert_eq. by rewrite rowsToCsv_lines.
  - by rewrite Hl.
  - by rewrite Hl.
  - rewrite Hl. cbn [rowHashes]. unfold new_hashes. by rewrite Hkey.
  - unfold history at 1. rewrite Hl. reflexivity.
Qed.

Lemma diff_counts_witness :
  (inserted (calcDiff (makeRowHashes Sample.rows_v1 submission_key)
               (makeRowHashes Sample.rows_v2 submission_key))
   = size (dom (makeRowHashes Sample.rows_v2 submission_key)
             ∖ dom (makeRowHashes Sample.rows_v1 submission_key)))
  ∧ calcDiff (makeRowHashes Sample.rows_v1 submission_key)
             (makeRowHashes Sample.rows_v2 submission_key)
    = mkDiff 0 1 0
  ∧ changed (writeCsvWithDiff Sample.clock Sample.toISOString
               (Sample.march Sample.rows_v2) Sample.world1).1 = true.
Proof.
  destruct (diff_counts (makeRowHashes Sample.rows_v1 submission_key)
              Sample.rows_v2 submission_key) as (Hcount & Hsub & _ & Hedit).
  destruct Hcount as (Hi & _).
  - apply makeRowHashes_plain, Forall_forall. intros r _. apply Hsub.
  - apply Forall_forall. intros r _. apply Hsub.
  - split; [exact Hi|].
    destruct (Hedit Sample.sub1 "Ann" Sample.day2 Sample.day2_edited
                [submission_row Sample.sub1 "Ann" Sample.day1] [])
      as [Hd Hw].
    + reflexivity.
    + reflexivity.
    + vm_compute. discriminate.
    + apply not_elem_of_nil.
    + split; [exact Hd|].
      destruct (Hw Sample.clock Sample.toISOString
                  (Sample.march Sample.rows_v2) Sample.world1)
        as (a & Hres & _).
      * reflexivity.
      * reflexivity.
      * vm_compute. reflexivity.
      * by rewrite Hres.
Defined.

(** ** C4: fingerprints follow the order of the fields *)

Lemma row_get_head_eq (r1 r2 : CsvRow) k v1 v2 :
  same_mapping ((k, v1) :: r1) ((k, v2) :: r2) → v1 = v2.
Proof.
  intros H. specialize (H k). simpl in H.
  rewrite !decide_True in H by done. congruence.
Qed.

Lemma same_mapping_tail (r1 r2 : CsvRow) k v1 v2 :
  k ∉ r1.*1 → r1.*1 = r2.*1 →
  same_mapping ((k, v1) :: r1) ((k, v2) :: r2) → same_mapping r1 r2.
Proof.
  intros Hk Hkeys H h. specialize (H h). simpl in H.
  destruct (decide (k = h)) as [<-|Hne]; [|done].
  assert (∀ r : CsvRow, k ∉ r.*1 → row_get r k = None) as Hnone.
  { clear. induction r as [|[k' v'] r IH]; [done|]. simpl.
    rewrite not_elem_of_cons. intros [Hne Hr].
    rewrite decide_False by done. by apply IH. }
  rewrite !Hnone; [done|by rewrite <-Hkeys|done].
Qed.

Lemma same_order_same_row (r1 r2 : CsvRow) :
  NoDup r1.*1 → r1.*1 = r2.*1 → same_mapping r1 r2 → r1 = r2.
Proof.
  revert r2. induction r1 as [|[k v1] r1 IH]; intros [|[k2 v2] r2] Hnd Hk Hm;
    simplify_eq/=; [done|].
  apply NoDup_cons in Hnd as [Hk Hnd].
  rewrite (row_get_head_eq _ _ _ _ _ Hm). f_equal.
  apply IH; [done..|]. by eapply same_mapping_tail.
Qed.

Lemma submission_row_fields s name d :
  (submission_row s name d).*1 = submissions_headers.
Proof. reflexivity. Qed.

Lemma employee_row_fields e : (employee_row e).*1 = employees_headers.
Proof. reflexivity. Qed.

Lemma calcDiff_same_key k (v v' : string) :
  calcDiff {[k := v]} {[k := v']}
  = mkDiff 0 (if decide (v = v') then 0 else 1) 0.
Proof.
  destruct (decide (v = v')) as [->|Hne].
  - pose proof (proj2 (calcDiff_zero_iff ({[k := v']} : RowHashMap)
                         {[k := v']}) eq_refl).
    destruct (calcDiff _ _) as [i u d]; simpl in *. f_equal; lia.
  - rewrite <-(insert_singleton_eq k v' v).
    apply (calcDiff_one_update _ _ v); [apply lookup_singleton_eq|done].
Qed.

Lemma makeRowHashes_one (r : CsvRow) (key : CsvRow → string) :
  makeRowHashes [r] key = {[key r := JSON_stringify r]}.
Proof. reflexivity. Qed.

(** C4, as the code has it. The fingerprint lists the fields in the order
    in which the row object was built: two rows with the same fields in
    the same order have the same fingerprint exactly when they are equal
    as mappings. The two projectors build every row in one fixed order, so
    two projected rows have the same fingerprint exactly when they are
    equal as mappings; hence a row exported again under its key is
    reported as updated exactly when one of its values has changed, and
    exporting equal rows again reports nothing. *)
Theorem fingerprint_same_field_order (r1 r2 : CsvRow) :
  (NoDup r1.*1 → r1.*1 = r2.*1 →
   (same_mapping r1 r2 ↔ JSON_stringify r1 = JSON_stringify r2))
  ∧ (∀ s name d s' name' d',
       same_mapping (submission_row s name d) (submission_row s' name' d')
       ↔ JSON_stringify (submission_row s name d)
         = JSON_stringify (submission_row s' name' d'))
  ∧ (∀ e e',
       same_mapping (employee_row e) (employee_row e')
       ↔ JSON_stringify (employee_row e) = JSON_stringify (employee_row e'))
  ∧ (∀ s name d s' name' d',
       submission_key (submission_row s name d)
       = submission_key (submission_row s' name' d') →
       calcDiff (makeRowHashes [submission_row s name d] submission_key)
         (makeRowHashes [submission_row s' name' d'] submission_key)
       = mkDiff 0 0 0
       ∧ same_mapping (submission_row s name d) (submission_row s' name' d')
       ∨ calcDiff (makeRowHashes [submission_row s name d] submission_key)
           (makeRowHashes [submission_row s' name' d'] submission_key)
         = mkDiff 0 1 0
         ∧ ¬ same_mapping (submission_row s name d)
               (submission_row s' name' d'))
  ∧ (∀ e e',
       employee_key (employee_row e) = employee_key (employee_row e') →
       calcDiff (makeRowHashes [employee_row e] employee_key)
         (makeRowHashes [employee_row e'] employee_key)
       = mkDiff 0 0 0
       ∧ same_mapping (employee_row e) (employee_row e')
       ∨ calcDiff (makeRowHashes [employee_row e] employee_key)
           (makeRowHashes [employee_row e'] employee_key)
         = mkDiff 0 1 0
         ∧ ¬ same_mapping (employee_row e) (employee_row e'))
  ∧ (∀ (key : CsvRow → string) (rs rs' : list CsvRow),
       Forall2 (λ r r', NoDup r.*1 ∧ r.*1 = r'.*1 ∧ same_mapping r r') rs rs' →
       calcDiff (makeRowHashes rs key) (makeRowHashes rs' key) = mkDiff 0 0 0).
Proof.
  assert (∀ r r' : CsvRow, JSON_stringify r = JSON_stringify r' → r = r')
    as Hinj.
  { intros [|m1 l1] [|m2 l2]; [done|..].
    - rewrite JSON_stringify_tail. destruct m2 as [k v].
      unfold JSON_stringify, json_member, json_quote. simpl. discriminate.
    - rewrite JSON_stringify_tail. destruct m1 as [k v].
      unfold JSON_stringify, json_member, json_quote. simpl. discriminate.
    - rewrite !JSON_stringify_tail. intros H. apply (inj (String.app _)) in H.
      destruct (json_tail_head l1) as (d1 & t1 & E1 & Hd1).
      destruct (json_tail_head l2) as (d2 & t2 & E2 & Hd2).
      rewrite E1, E2 in H.
      apply json_member_delimited in H as (-> & -> & ->); [|done..].
      f_equal. apply json_tail_inj. by rewrite E1, E2. }
  assert (∀ r r' : CsvRow, NoDup r.*1 → r.*1 = r'.*1 →
            (same_mapping r r' ↔ JSON_stringify r = JSON_stringify r'))
    as Hiff.
  { intros r r' Hnd Hk. split.
    - intros Hm. by rewrite (same_order_same_row r r').
    - intros Hfp. apply Hinj in Hfp as ->. by intros h. }
  assert (∀ s name d s' name' d',
            same_mapping (submission_row s name d) (submission_row s' name' d')
            ↔ JSON_stringify (submission_row s name d)
              = JSON_stringify (submission_row s' name' d')) as Hsub.
  { intros. apply Hiff; [|done].
    rewrite submission_row_fields. compute_done. }
  assert (∀ e e',
            same_mapping (employee_row e) (employee_row e')
            ↔ JSON_stringify (employee_row e)
              = JSON_stringify (employee_row e')) as Hemp.
  { intros. apply Hiff; [|done].
    rewrite employee_row_fields. compute_done. }
  split_and!.
  - apply Hiff.
  - exact Hsub.
  - exact Hemp.
  - intros s name d s' name' d' Hk.
    rewrite !makeRowHashes_one, <-Hk, calcDiff_same_key.
    case_decide as Hfp.
    + left. split; [done|]. by apply Hsub.
    + right. split; [done|]. by rewrite Hsub.
  - intros e e' Hk.
    rewrite !makeRowHashes_one, <-Hk, calcDiff_same_key.
    case_decide as Hfp.
    + left. split; [done|]. by apply Hemp.
    + right. split; [done|]. by rewrite Hemp.
  - intros key rs rs' Hall.
    assert (rs = rs') as <-.
    { induction Hall as [|r r' l l' (Hnd & Hk & Hm) _ IH]; [done|].
      f_equal; [by apply same_order_same_row|done]. }
    pose proof (proj2 (calcDiff_zero_iff (makeRowHashes rs key)
                         (makeRowHashes rs key)) eq_refl).
    destruct (calcDiff _ _) as [i u d]; simpl in *. f_equal; lia.
Qed.

Lemma fingerprint_same_field_order_witness :
  JSON_stringify (employee_row Sample.ann)
  = JSON_stringify (employee_row (mkEmployee 7 "E007" "Ann" (Some EmptyString) true))
  ∧ (calcDiff (makeRowHashes [submission_row Sample.sub1 "Ann" Sample.day2]
                 submission_key)
       (makeRowHashes [submission_row Sample.sub1 "Ann" Sample.day2_edited]
          submission_key)
     = mkDiff 0 1 0).
Proof.
  destruct (fingerprint_same_field_order
              (employee_row Sample.ann)
              (employee_row (mkEmployee 7 "E007" "Ann" (Some EmptyString) true)))
    as (Hrow & _ & _ & Hdiff & _).
  split.
  - apply Hrow.
    + compute_done.
    + reflexivity.
    + intros h. reflexivity.
  - destruct (Hdiff Sample.sub1 "Ann" Sample.day2 Sample.sub1 "Ann"
                Sample.day2_edited) as [[_ Hsame]|[Hd _]].
    + reflexivity.
    + specialize (Hsame "time_range"). vm_compute in Hsame. discriminate Hsame.
    + exact Hd.
Defined.

(** C4, as stated, fails: the same mapping built in two field orders has
    two fingerprints, and the diff engine reports the row as updated. *)
Lemma fingerprint_depends_on_field_order :
  let r1 : CsvRow := [("employee_id", JNum 7); ("display_name", JStr "Ann")] in
  let r2 : CsvRow := [("display_name", JStr "Ann"); ("employee_id", JNum 7)] in
  same_mapping r1 r2
  ∧ JSON_stringify r1 ≠ JSON_stringify r2
  ∧ calcDiff (makeRowHashes [r1] employee_key) (makeRowHashes [r2] employee_key)
    = mkDiff 0 1 0.
Proof.
  split_and!.
  - intros h. simpl. repeat case_decide; congruence.
  - vm_compute. discriminate.
  - vm_compute. reflexivity.
Qed.

(** ** Sorting *)

Section Sorting.
Context {A : Type} (cmp : A → A → Z).

Lemma sort_insert_perm x l : sort_insert cmp x l ≡ₚ x :: l.
Proof.
  induction l as [|y l IH]; simpl; [done|].
  destruct (cmp x y <=? 0)%Z; [done|].
  by rewrite IH, Permutation_swap.
Qed.

Lemma js_sort_perm l : js_sort cmp l ≡ₚ l.
Proof.
  induction l as [|x l IH]; simpl; [done|].
  unfold js_sort in *. simpl. by rewrite sort_insert_perm, IH.
Qed.

Lemma js_sort_nil : js_sort cmp [] = [].
Proof. done. Qed.

Hypothesis cmp_total : ∀ a b, cmp_le cmp a b ∨ cmp_le cmp b a.

Lemma sort_insert_HdRel x y l :
  cmp_le cmp y x → HdRel (cmp_le cmp) y l → HdRel (cmp_le cmp) y (sort_insert cmp x l).
Proof.
  intros Hyx Hl. destruct l as [|z l]; simpl; [by constructor|].
  destruct (cmp x z <=? 0)%Z; constructor; [done|].
  by inversion Hl.
Qed.

Lemma sort_insert_sorted x l :
  Sorted (cmp_le cmp) l → Sorted (cmp_le cmp) (sort_insert cmp x l).
Proof.
  induction 1 as [|y l Hs IH Hd]; simpl; [by repeat constructor|].
  destruct (cmp x y <=? 0)%Z eqn:E.
  - apply Z.leb_le in E. constructor; [by constructor|by constructor].
  - apply Z.leb_gt in E. constructor; [done|].
    apply sort_insert_HdRel; [|done].
    destruct (cmp_total x y) as [H|H]; [unfold cmp_le in H; lia|done].
Qed.

Lemma js_sort_sorted l : Sorted (cmp_le cmp) (js_sort cmp l).
Proof.
  induction l as [|x l IH]; [constructor|].
  by apply sort_insert_sorted.
Qed.

Lemma js_sort_strongly_sorted l :
  (∀ a b c, cmp_le cmp a b → cmp_le cmp b c → cmp_le cmp a c) →
  StronglySorted (cmp_le cmp) (js_sort cmp l).
Proof.
  intros Htrans. apply Sorted_StronglySorted; [|apply js_sort_sorted].
  intros a b c. apply Htrans.
Qed.
End Sorting.

(** The sort is stable: elements that the comparator does not put apart
    keep their order. *)
Lemma sort_insert_filter {A} (cmp : A → A → Z) (P : A → Prop)
    `{!∀ x, Decision (P x)} x l :
  (∀ a b, P a → P b → cmp_le cmp a b) →
  filter P (sort_insert cmp x l) = filter P (x :: l).
Proof.
  intros Htied. induction l as [|y l IH]; [done|]. cbn [sort_insert].
  destruct (cmp x y <=? 0)%Z eqn:E; [done|]. apply Z.leb_gt in E.
  rewrite filter_cons, IH, !filter_cons.
  destruct (decide (P y)) as [Hy|Hy], (decide (P x)) as [Hx|Hx]; try done.
  specialize (Htied x y Hx Hy). unfold cmp_le in Htied. lia.
Qed.

Lemma js_sort_stable {A} (cmp : A → A → Z) (P : A → Prop)
    `{!∀ x, Decision (P x)} l :
  (∀ a b, P a → P b → cmp_le cmp a b) →
  filter P (js_sort cmp l) = filter P l.
Proof.
  intros Htied. induction l as [|x l IH]; [done|].
  unfold js_sort in *. cbn [foldr].
  rewrite sort_insert_filter by done. by rewrite !filter_cons, IH.
Qed.

Lemma filter_ext_elem {A} (P Q : A → Prop) `{!∀ x, Decision (P x)}
    `{!∀ x, Decision (Q x)} (l : list A) :
  (∀ x, x ∈ l → (P x ↔ Q x)) → filter P l = filter Q l.
Proof.
  induction l as [|x l IH]; intros Hext; [done|].
  rewrite !filter_cons, IH by (intros y Hy; apply Hext; by right).
  destruct (decide (P x)) as [Hp|Hp], (decide (Q x)) as [Hq|Hq]; try done;
    exfalso; [apply Hq|apply Hp]; (apply (Hext x); [by left|done]).
Qed.

(** ** The barrier *)

Lemma settle_one_length {A} (tasks : list A) slots i :
  length (settle_one tasks slots i) = length slots.
Proof. unfold settle_one. destruct (tasks !! i); [apply length_insert|done]. Qed.

Lemma settle_all_lookup {A} (tasks : list A) sched slots i :
  length slots = length tasks →
  foldl (settle_one tasks) slots sched !! i
  = if decide (i ∈ sched ∧ i < length tasks) then Some (tasks !! i)
    else slots !! i.
Proof.
  revert slots. induction sched as [|j sched IH]; intros slots Hlen; cbn [foldl].
  - rewrite decide_False; [done|]. intros [H _]. by apply elem_of_nil in H.
  - rewrite IH by (by rewrite settle_one_length).
    destruct (decide (i ∈ sched ∧ i < length tasks)) as [[Hin Hlt]|Hn].
    + rewrite decide_True; [done|]. split; [by right|done].
    + unfold settle_one. destruct (tasks !! j) as [t|] eqn:Ej.
      * destruct (decide (i = j)) as [->|Hij].
        -- apply lookup_lt_Some in Ej as Hj.
           rewrite list_lookup_insert_eq by lia.
           rewrite decide_True; [by rewrite Ej|]. split; [by left|done].
        -- rewrite list_lookup_insert_ne by done.
           rewrite decide_False; [done|]. intros [Hin Hlt].
           apply elem_of_cons in Hin as [?|?]; [done|]. apply Hn. done.
      * rewrite decide_False; [done|]. intros [Hin Hlt].
        apply elem_of_cons in Hin as [->|?]; [|by apply Hn].
        apply lookup_ge_None in Ej. lia.
Qed.

(** Whatever the order in which the promises settle, once each has
    settled the result array is the list of outcomes in input order. *)
Lemma allSettled_complete {A} (sched : list nat) (tasks : list A) :
  sched ≡ₚ seq 0 (length tasks) → allSettled sched tasks = Some tasks.
Proof.
  intros Hp. unfold allSettled.
  assert (foldl (settle_one tasks) (replicate (length tasks) None) sched
          = Some <$> tasks) as ->.
  { apply list_eq. intros i.
    rewrite settle_all_lookup by apply length_replicate.
    rewrite list_lookup_fmap.
    destruct (decide (i < length tasks)) as [Hlt|Hge].
    - rewrite decide_True.
      + destruct (lookup_lt_is_Some_2 tasks i Hlt) as [t ->]. done.
      + split; [|done]. rewrite Hp. apply elem_of_seq. lia.
    - rewrite decide_False by tauto.
      rewrite (lookup_ge_None_2 tasks i) by lia. simpl.
      apply lookup_replicate_None. lia. }
  by apply mapM_fmap_Some.
Qed.

(** ** The item ledger *)

Lemma upsert_item_fresh it l :
  Forall (λ x, same_item_key x it = false) l → upsert_item it l = l ++ [it].
Proof.
  induction 1 as [|x l Hx Hl IH]; simpl; [done|]. by rewrite Hx, IH.
Qed.

(** ** Paths of the two datasets *)

Lemma is_yearMonth_head ym :
  is_yearMonth ym = true → ∃ c rest, ym = String c rest ∧ is_digit c = true.
Proof.
  destruct ym as [|a rest]; [done|]. intros H. exists a, rest. split; [done|].
  unfold is_yearMonth in H. repeat (destruct rest as [|? rest]; try done).
  do 6 (apply andb_prop in H as [H _]). done.
Qed.

Lemma month_dir_apart cwd ym (t1 t2 : string) :
  is_yearMonth ym = true →
  submissions_dir cwd ym +:+ t1 ≠ employees_dir cwd +:+ t2.
Proof.
  intros Hym H. unfold submissions_dir, employees_dir in H.
  rewrite !string_app_assoc in H.
  do 2 apply (inj (String.app _)) in H.
  destruct (is_yearMonth_head ym Hym) as (c & rest & -> & Hc).
  injection H as -> _. done.
Qed.

Lemma month_index_apart cwd ym :
  is_yearMonth ym = true →
  indexPath_of (employees_dir cwd) ≠ indexPath_of (submissions_dir cwd ym).
Proof. intros Hym H. symmetry in H. by apply month_dir_apart in H. Qed.

Lemma month_csv_apart cwd ym f1 f2 :
  is_yearMonth ym = true →
  path_join (submissions_dir cwd ym) f1 ≠ path_join (employees_dir cwd) f2.
Proof. intros Hym H. by apply month_dir_apart in H. Qed.

(** ** What the writer leaves alone *)

Lemma loaded_ext o o' w w' :
  baseDir o = baseDir o' →
  index_fs w !! indexPath_of (baseDir o)
  = index_fs w' !! indexPath_of (baseDir o) →
  loaded o w = loaded o' w'.
Proof. intros Hb H. unfold loaded, readIndex. by rewrite <-Hb, H. Qed.

Section WriterFrame.

Variable clock : nat → Z.
Variable toISOString : Z → string.

Let write := writeCsvWithDiff clock toISOString.

Lemma write_cases o w :
  (changed (write o w).1 = true)
  ∨ (changed (write o w).1 = false ∧ (write o w).2 = w
     ∧ computed_diff o w = mkDiff 0 0 0
     ∧ js_falsy (latestFilePath (loaded o w)) = false).
Proof.
  destruct (changed (write o w).1) eqn:Hc; [by left|right].
  assert (¬ (0 < inserted (computed_diff o w) + updated (computed_diff o w)
                 + deleted (computed_diff o w)
             ∨ js_falsy (latestFilePath (loaded o w)) = true)) as Hn.
  { rewrite <-(write_changed_iff clock toISOString). unfold write in Hc.
    congruence. }
  assert (js_falsy (latestFilePath (loaded o w)) = false) as Hf
    by (destruct (js_falsy _); [tauto|done]).
  assert (inserted (computed_diff o w) + updated (computed_diff o w)
          + deleted (computed_diff o w) = 0) as Hz by lia.
  unfold write. rewrite (write_unchanged clock toISOString o w Hz Hf).
  simpl. repeat split; try done.
  destruct (computed_diff o w) as [i u d]; simpl in *. f_equal; lia.
Qed.

Lemma write_index_frame o w p :
  p ≠ indexPath_of (baseDir o) →
  index_fs (write o w).2 !! p = index_fs w !! p.
Proof.
  intros Hp. destruct (write_cases o w) as [Hc|(_ & -> & _)]; [|done].
  destruct (write_changed clock toISOString o w Hc) as (_ & Hidx & _).
  unfold write. by rewrite Hidx, lookup_insert_ne.
Qed.

Lemma write_csv_frame o w p :
  (∀ fn, p ≠ path_join (baseDir o) fn) →
  csv_fs (write o w).2 !! p = csv_fs w !! p.
Proof.
  intros Hp. destruct (write_cases o w) as [Hc|(_ & -> & _)]; [|done].
  destruct (write_changed clock toISOString o w Hc) as (_ & _ & Hcsv & _).
  unfold write. rewrite Hcsv, lookup_insert_ne; [done|].
  intros H. apply (Hp (new_fileName clock o w)). by rewrite <-H.
Qed.

Lemma write_db_frame o w :
  sync_jobs (write o w).2 = sync_jobs w
  ∧ sync_job_items (write o w).2 = sync_job_items w
  ∧ employees_table (write o w).2 = employees_table w
  ∧ next_job_id (write o w).2 = next_job_id w.
Proof.
  destruct (write_cases o w) as [Hc|(_ & -> & _)]; [|done].
  destruct (write_changed clock toISOString o w Hc)
    as (_ & _ & _ & _ & _ & ? & ? & ? & ?). done.
Qed.

End WriterFrame.

(** ** The orchestrator, stage by stage *)

Section OrchestratorStages.

Variable clock : nat → Z.
Variable toISOString : Z → string.
Variable timestamptz_text : Z → string.
Variable cwd : string.
Variable localeCompare : string → string → Z.

Lemma record_loop jobId names subs acc :
  foldl (record_settled jobId) acc
    (zip (map (λ s, processSubmission s names) subs) subs)
  = (acc.1.1 ++ concat (map (λ s, rows_of_outcome (processSubmission s names)) subs),
     acc.1.2
     + length (filter (λ s, is_rejected (processSubmission s names) = true) subs),
     foldl (λ w' s, addSyncJobItem
                      (item_of_outcome jobId (sub_id s) (processSubmission s names))
                      w')
       acc.2 subs).
Proof.
  revert acc. induction subs as [|s subs IH]; intros [[rs n] w]; simpl.
  - rewrite app_nil_r. f_equal. f_equal. lia.
  - rewrite IH. unfold record_settled. simpl. rewrite filter_cons.
    destruct (processSubmission s names) as [v|reason]; simpl.
    + by rewrite app_assoc.
    + do 2 f_equal. lia.
Qed.

(** The run, for a schedule in which every promise settles. *)
Lemma runCsvSync_returns sched (o : CsvSyncOptions) (w : World) :
  submissions o ≠ [] →
  sched ≡ₚ seq 0 (length (submissions o)) →
  runCsvSync clock toISOString timestamptz_text cwd localeCompare sched o w
  = (Returned
       {| job :=
            mkJob (next_job_id w) (triggerType o) (final_status o w)
              "csv-export" ("csv_" +:+ yearMonth o)
              (Some (timestamptz_text (clock (ticks w))))
              (Some (toISOString (clock (ticks (world_finished clock toISOString timestamptz_text cwd localeCompare o w)))))
              (final_error o w)
              (timestamptz_text (clock (ticks w)));
          summary :=
            {| total_count := length (submissions o);
               success_count :=
                 length (submissions o) - failure_count w (submissions o);
               failed_count := failure_count w (submissions o);
               submissionDiff := diff (submissions_export clock toISOString timestamptz_text cwd localeCompare o w).1;
               employeeDiff := diff (employees_export clock toISOString timestamptz_text cwd localeCompare o w).1 |};
          run_artifact :=
            {| run_yearMonth := yearMonth o;
               submissionsCsv := artifact (submissions_export clock toISOString timestamptz_text cwd localeCompare o w).1;
               employeesCsv := artifact (employees_export clock toISOString timestamptz_text cwd localeCompare o w).1;
               run_changed :=
                 changed (submissions_export clock toISOString timestamptz_text cwd localeCompare o w).1
                 || changed (employees_export clock toISOString timestamptz_text cwd localeCompare o w).1 |} |},
     tick (world_finished clock toISOString timestamptz_text cwd localeCompare o w)).
Proof.
  intros Hne Hsched. unfold runCsvSync.
  rewrite bool_decide_eq_false_2 by (by destruct (submissions o)).
  cbn [createSyncJob]. cbv zeta.
  assert (length (map (λ s, processSubmission s
                              (employeeNameById_of
                                 (listEmployees
                                    (set_sync_jobs
                                       (sync_jobs w ++
                                          [{| job_id := next_job_id w;
                                              job_triggerType := triggerType o;
                                              job_status := running;
                                              job_spreadsheetId := "csv-export";
                                              job_sheetName := "csv_" +:+ yearMonth o;
                                              job_startedAt := Some (timestamptz_text (clock (ticks w)));
                                              job_finishedAt := None;
                                              job_errorMessage := None;
                                              job_createdAt := timestamptz_text (clock (ticks w)) |}])
                                       (next_job_id w + 1)%Z (tick w)))))
                 (submissions o))
          = length (submissions o)) as Hlen by apply length_map.
  rewrite allSettled_complete by (by rewrite Hlen).
  rewrite record_loop. cbn [fst snd job_id].
  unfold world_finished, employees_export, submissions_export, world_with_items,
    world_with_job, final_status, final_error, failure_count, sync_rows,
    projected_rows, item_of, outcome_of, names_of.
  cbn [createSyncJob]. cbv zeta. cbn [fst snd].
  destruct (writeCsvWithDiff _ _ _ _) as [se w3] eqn:Ese.
  cbn [fst snd].
  destruct (exportEmployeesCsvDiff _ _ _ _) as [ee w4] eqn:Eee.
  cbn [fst snd]. reflexivity.
Qed.

End OrchestratorStages.

(** ** The ledger and the storage after a run *)

Lemma upsert_all_fresh (f : ShiftSubmission → SyncItem) subs l :
  (∀ s x, s ∈ subs → x ∈ l → same_item_key x (f s) = false) →
  (∀ i j s t, subs !! i = Some s → subs !! j = Some t → i ≠ j →
              same_item_key (f s) (f t) = false) →
  foldl (λ l' s, upsert_item (f s) l') l subs = l ++ map f subs.
Proof.
  revert l. induction subs as [|s subs IH]; intros l Hold Hnew; simpl.
  - by rewrite app_nil_r.
  - rewrite upsert_item_fresh.
    + rewrite IH.
      * by rewrite <-app_assoc.
      * intros t x Ht Hx. apply elem_of_app in Hx as [Hx|Hx].
        -- apply Hold; [by right|done].
        -- apply list_elem_of_singleton in Hx as ->.
           apply list_elem_of_lookup in Ht as [j Hj].
           by apply (Hnew 0 (S j)).
      * intros i j a b Ha Hb Hij. by apply (Hnew (S i) (S j)); [..|lia].
    + apply Forall_forall. intros x Hx. apply Hold; [by left|done].
Qed.

Lemma foldl_addSyncJobItem (f : ShiftSubmission → SyncItem) subs w :
  foldl (λ w' s, addSyncJobItem (f s) w') w subs
  = set_sync_job_items
      (foldl (λ l' s, upsert_item (f s) l') (sync_job_items w) subs) w.
Proof.
  revert w. induction subs as [|s subs IH]; intros w; simpl.
  - by destruct w.
  - by rewrite IH.
Qed.

Section RunProperties.

Variable clock : nat → Z.
Variable toISOString : Z → string.
Variable timestamptz_text : Z → string.
Variable cwd : string.
Variable localeCompare : string → string → Z.

Let run := runCsvSync clock toISOString timestamptz_text cwd localeCompare.
Let with_items := world_with_items clock timestamptz_text.
Let sub_export := submissions_export clock toISOString timestamptz_text cwd
                    localeCompare.
Let emp_export := employees_export clock toISOString timestamptz_text cwd
                    localeCompare.
Let finished := world_finished clock toISOString timestamptz_text cwd
                  localeCompare.

Lemma outcome_of_cases w s :
  (sub_details s = [] ∧ outcome_of w s = Rejected (JsError "details is empty"))
  ∨ (sub_details s ≠ []
     ∧ outcome_of w s
       = Fulfilled
           (buildSubmissionRows s
              (default ("employee-" +:+ pretty (sub_employeeId s))
                       (names_of w !! sub_employeeId s)))).
Proof.
  unfold outcome_of, processSubmission.
  destruct (sub_details s) eqn:E; simpl; [by left|by right].
Qed.

Lemma item_of_cases w s :
  (sub_details s = []
   ∧ item_of w s
     = mkItem (next_job_id w) (sub_id s) failed (Some "details is empty"))
  ∨ (sub_details s ≠ []
     ∧ item_of w s = mkItem (next_job_id w) (sub_id s) success None).
Proof.
  unfold item_of.
  destruct (outcome_of_cases w s) as [[H ->]|[H ->]]; [by left|by right].
Qed.

Lemma item_of_key w s :
  item_syncJobId (item_of w s) = next_job_id w
  ∧ item_shiftSubmissionId (item_of w s) = sub_id s.
Proof. unfold item_of. by destruct (outcome_of w s). Qed.

Lemma with_items_ledger o w :
  NoDup (sub_id <$> submissions o) →
  Forall (λ x, item_syncJobId x ≠ next_job_id w) (sync_job_items w) →
  sync_job_items (with_items o w)
  = sync_job_items w ++ map (item_of w) (submissions o).
Proof.
  intros Hnd Hfresh. unfold with_items, world_with_items.
  rewrite foldl_addSyncJobItem. simpl. apply upsert_all_fresh.
  - intros s x _ Hx. rewrite Forall_forall in Hfresh.
    apply bool_decide_eq_false_2. intros [Hj _].
    apply (Hfresh x Hx). rewrite Hj. apply item_of_key.
  - intros i j s t Hs Ht Hij. apply bool_decide_eq_false_2. intros [_ Hk].
    rewrite !(proj2 (item_of_key _ _)) in Hk.
    apply Hij. eapply NoDup_lookup; [exact Hnd|..];
      rewrite list_lookup_fmap; [by rewrite Hs|by rewrite Ht, Hk].
Qed.

Lemma with_items_storage o w :
  index_fs (with_items o w) = index_fs w
  ∧ csv_fs (with_items o w) = csv_fs w
  ∧ default_files (with_items o w) = default_files w
  ∧ employees_table (with_items o w) = employees_table w.
Proof.
  unfold with_items, world_with_items. rewrite foldl_addSyncJobItem. done.
Qed.

Lemma finish_tick_storage id st err (x : World) :
  index_fs (tick (finishSyncJob clock timestamptz_text id st err x)) = index_fs x
  ∧ csv_fs (tick (finishSyncJob clock timestamptz_text id st err x)) = csv_fs x
  ∧ sync_job_items (tick (finishSyncJob clock timestamptz_text id st err x))
    = sync_job_items x
  ∧ default_files (tick (finishSyncJob clock timestamptz_text id st err x))
    = default_files x.
Proof. done. Qed.

Lemma finished_storage o w :
  index_fs (tick (finished o w)) = index_fs (emp_export o w).2
  ∧ csv_fs (tick (finished o w)) = csv_fs (emp_export o w).2
  ∧ sync_job_items (tick (finished o w)) = sync_job_items (emp_export o w).2
  ∧ default_files (tick (finished o w)) = default_files (emp_export o w).2.
Proof. unfold finished, world_finished. apply finish_tick_storage. Qed.

Lemma emp_export_eq o w :
  emp_export o w
  = writeCsvWithDiff clock toISOString
      (roster_options cwd (roster_rows (listEmployees (sub_export o w).2)))
      (sub_export o w).2.
Proof. done. Qed.

Lemma sub_export_eq o w :
  sub_export o w
  = writeCsvWithDiff clock toISOString
      (submissions_options cwd (yearMonth o)
         (sync_rows localeCompare w (submissions o)))
      (with_items o w).
Proof. done. Qed.

(** The month's index after the run is the one the submissions export
    left. *)
Lemma month_index_after_run o w :
  is_yearMonth (yearMonth o) = true →
  index_fs (tick (finished o w))
    !! indexPath_of (submissions_dir cwd (yearMonth o))
  = index_fs (sub_export o w).2
      !! indexPath_of (submissions_dir cwd (yearMonth o)).
Proof.
  intros Hym. rewrite (proj1 (finished_storage o w)), emp_export_eq.
  apply write_index_frame. intros H. symmetry in H.
  by apply month_index_apart in H.
Qed.

Lemma month_csv_after_run o w fn :
  is_yearMonth (yearMonth o) = true →
  csv_fs (tick (finished o w))
    !! path_join (submissions_dir cwd (yearMonth o)) fn
  = csv_fs (sub_export o w).2
      !! path_join (submissions_dir cwd (yearMonth o)) fn.
Proof.
  intros Hym.
  rewrite (proj1 (proj2 (finished_storage o w))), emp_export_eq.
  apply write_csv_frame. intros fn'. by apply month_csv_apart.
Qed.

Lemma ledger_after_run o w :
  sync_job_items (tick (finished o w)) = sync_job_items (with_items o w).
Proof.
  destruct (finished_storage o w) as (_ & _ & -> & _).
  rewrite emp_export_eq.
  destruct (write_db_frame clock toISOString
              (roster_options cwd
                 (roster_rows (listEmployees (sub_export o w).2)))
              (sub_export o w).2) as (_ & -> & _).
  rewrite sub_export_eq.
  by destruct (write_db_frame clock toISOString
                 (submissions_options cwd (yearMonth o)
                    (sync_rows localeCompare w (submissions o)))
                 (with_items o w)) as (_ & -> & _).
Qed.

Lemma jobs_after_run o w :
  sync_jobs (tick (finished o w))
  = map (finish_job (next_job_id w)
           (final_status o w) (final_error o w)
           (timestamptz_text (clock (ticks (emp_export o w).2))))
        (sync_jobs w ++
           [mkJob (next_job_id w) (triggerType o) running "csv-export"
              ("csv_" +:+ yearMonth o)
              (Some (timestamptz_text (clock (ticks w)))) None None
              (timestamptz_text (clock (ticks w)))]).
Proof.
  change (sync_jobs (tick (finished o w)))
    with (map (finish_job (next_job_id w)
                 (final_status o w) (final_error o w)
                 (timestamptz_text (clock (ticks (emp_export o w).2))))
              (sync_jobs (emp_export o w).2)).
  f_equal. rewrite emp_export_eq.
  destruct (write_db_frame clock toISOString
              (roster_options cwd
                 (roster_rows (listEmployees (sub_export o w).2)))
              (sub_export o w).2) as (-> & _).
  rewrite sub_export_eq.
  destruct (write_db_frame clock toISOString
              (submissions_options cwd (yearMonth o)
                 (sync_rows localeCompare w (submissions o)))
              (with_items o w)) as (-> & _).
  unfold with_items, world_with_items. rewrite foldl_addSyncJobItem. done.
Qed.

End RunProperties.

Lemma rows_of_outcome_elem w s row :
  row ∈ rows_of_outcome (outcome_of w s) →
  ∃ name d, d ∈ sub_details s ∧ row = submission_row s name d.
Proof.
  destruct (outcome_of_cases w s) as [[_ ->]|[_ ->]]; simpl.
  - intros H. by apply elem_of_nil in H.
  - unfold buildSubmissionRows. intros H.
    apply list_elem_of_fmap in H as (d & -> & Hd). eauto.
Qed.

Lemma projected_rows_elem w subs row :
  row ∈ projected_rows w subs →
  ∃ s name d, s ∈ subs ∧ d ∈ sub_details s ∧ row = submission_row s name d.
Proof.
  unfold projected_rows. induction subs as [|s subs IH]; simpl.
  - intros H. by apply elem_of_nil in H.
  - intros H. apply elem_of_app in H as [H|H].
    + apply rows_of_outcome_elem in H as (name & d & Hd & ->).
      exists s, name, d. split_and!; [by left|done|done].
    + destruct (IH H) as (s' & name & d & Hs & Hd & ->).
      exists s', name, d. split_and!; [by right|done|done].
Qed.

Lemma StronglySorted_elem_impl {A} (R R' : A → A → Prop) (l : list A) :
  (∀ a b, a ∈ l → b ∈ l → R a b → R' a b) →
  StronglySorted R l → StronglySorted R' l.
Proof.
  intros Himpl Hs. induction Hs as [|a l Hs IH Hall]; [constructor|].
  constructor.
  - apply IH. intros x y Hx Hy. apply Himpl; by right.
  - rewrite Forall_forall in Hall |- *. intros x Hx.
    apply Himpl; [by left|by right|by apply Hall].
Qed.

Lemma natural_key_submission_row s name d :
  natural_key (submission_row s name d)
  = pretty (sub_id s) +:+ ":" +:+ targetDate d
  ∧ submission_key (submission_row s name d)
    = natural_key (submission_row s name d).
Proof. split; reflexivity. Qed.

(** ** The orchestrator's claims *)

Section Orchestrator.

Variable clock : nat → Z.
Variable toISOString : Z → string.
Variable timestamptz_text : Z → string.
Variable cwd : string.
Variable localeCompare : string → string → Z.

Let run := runCsvSync clock toISOString timestamptz_text cwd localeCompare.

(** C9. With no submission the call throws at once: no job is created, no
    item recorded, nothing written; the world is the one it was given. *)
Theorem empty_submissions_rejected (sched : list nat) (o : CsvSyncOptions)
    (w : World) :
  submissions o = [] →
  run sched o w = (Raised "no submissions for target month", w).
Proof. intros H. unfold run, runCsvSync. by rewrite H. Qed.

Lemma failure_count_pos w subs :
  0 < failure_count w subs ↔ ∃ s, s ∈ subs ∧ sub_details s = [].
Proof.
  unfold failure_count. split.
  - intros H.
    destruct (filter (λ s, is_rejected (outcome_of w s) = true) subs)
      as [|s l] eqn:E; [simpl in H; lia|].
    assert (s ∈ filter (λ s, is_rejected (outcome_of w s) = true) subs) as Hs
      by (rewrite E; by left).
    apply list_elem_of_filter in Hs as [Hr Hs]. exists s. split; [done|].
    destruct (outcome_of_cases w s) as [[? _]|[_ Ho]]; [done|].
    by rewrite Ho in Hr.
  - intros (s & Hs & Hd).
    assert (s ∈ filter (λ s, is_rejected (outcome_of w s) = true) subs) as Hin.
    { apply list_elem_of_filter. split; [|done].
      destruct (outcome_of_cases w s) as [[_ ->]|[? _]]; done. }
    destruct (filter _ subs); [by apply elem_of_nil in Hin|simpl; lia].
Qed.

Lemma item_of_expected w s : item_of w s = expected_item (next_job_id w) s.
Proof.
  unfold expected_item.
  destruct (item_of_cases w s) as [[H ->]|[H ->]].
  - by rewrite bool_decide_eq_true_2.
  - by rewrite bool_decide_eq_false_2.
Qed.

Let sub_export := submissions_export clock toISOString timestamptz_text cwd
                    localeCompare.
Let finished := world_finished clock toISOString timestamptz_text cwd
                  localeCompare.

Lemma loaded_with_items o w rs :
  loaded (submissions_options cwd (yearMonth o) rs)
    (world_with_items clock timestamptz_text o w)
  = loaded (month cwd o) w.
Proof.
  apply loaded_ext; [done|].
  by rewrite (proj1 (with_items_storage clock timestamptz_text o w)).
Qed.

Lemma loaded_after_run o w :
  is_yearMonth (yearMonth o) = true →
  loaded (month cwd o) (tick (finished o w))
  = loaded (submissions_options cwd (yearMonth o)
              (sync_rows localeCompare w (submissions o)))
      (sub_export o w).2.
Proof.
  intros Hym. apply loaded_ext; [done|]. by apply month_index_after_run.
Qed.

(** What the submissions export of a run does to the month's files. *)
Lemma sub_export_changed o w :
  changed (sub_export o w).1 = true →
  ∃ a,
    artifact (sub_export o w).1 = Some a
    ∧ version a = (latestVersion (loaded (month cwd o) w) + 1)%Z
    ∧ (∃ fn, filePath a = month_file cwd o fn)
    ∧ csv_fs (sub_export o w).2
      = <[filePath a := rowsToCsv submissions_headers
                          (sync_rows localeCompare w (submissions o))]>
          (csv_fs w)
    ∧ loaded (submissions_options cwd (yearMonth o)
                (sync_rows localeCompare w (submissions o)))
        (sub_export o w).2
      = {| latestVersion := latestVersion (loaded (month cwd o) w) + 1;
           latestFilePath := Some (filePath a);
           rowHashes := makeRowHashes
                          (sync_rows localeCompare w (submissions o))
                          submission_key;
           files :=
             OwnArray
               (files_contents (world_with_items clock timestamptz_text o w)
                  (files (loaded (month cwd o) w))
                ++ [new_entry clock toISOString
                      (submissions_options cwd (yearMonth o)
                         (sync_rows localeCompare w (submissions o)))
                      (world_with_items clock timestamptz_text o w)]) |}.
Proof.
  intros Hc. unfold sub_export, submissions_export in *.
  destruct (write_changed clock toISOString _ _ Hc) as (Hr & _ & Hcsv & _).
  pose proof (loaded_after_change clock toISOString _ _ Hc) as Hl.
  eexists. rewrite Hr. split; [reflexivity|].
  cbn [artifact_of_entry version filePath new_entry entry_version
       entry_filePath].
  rewrite loaded_with_items. split; [done|]. split.
  { eexists. unfold month_file. reflexivity. }
  split.
  - rewrite Hcsv.
    by rewrite (proj1 (proj2 (with_items_storage clock timestamptz_text o w))).
  - rewrite Hl. unfold history. rewrite loaded_with_items. reflexivity.
Qed.

Lemma sub_export_changed_iff o w :
  changed (sub_export o w).1 = true
  ↔ rowHashes (loaded (month cwd o) w)
      ≠ makeRowHashes (sync_rows localeCompare w (submissions o)) submission_key
    ∨ js_falsy (latestFilePath (loaded (month cwd o) w)) = true.
Proof.
  unfold sub_export, submissions_export. rewrite write_changed_iff.
  unfold computed_diff, new_hashes. rewrite loaded_with_items.
  cbn [rows keyFn submissions_options].
  pose proof (calcDiff_zero_iff (rowHashes (loaded (month cwd o) w))
                (makeRowHashes (sync_rows localeCompare w (submissions o))
                   submission_key)) as Hz.
  destruct Hz as [Hz1 Hz2]. split; intros [H|H]; [|by right| |by right]; left.
  - intros Heq. apply Hz2 in Heq. lia.
  - match goal with
    | |- 0 < ?X => destruct (decide (X = 0)) as [H0|H0]; [|lia]
    end.
    exfalso. apply H. by apply Hz1.
Qed.

(** C8. A run on a non-empty set of records (distinct ids, as the primary
    key makes them; a month index, if there is one, whose keys name no
    inherited member, as the keys of earlier exports of the month do)
    returns, whatever fails in the projection: the ledger
    gains exactly one item per record, failed with the captured message
    when the record has no detail line and success otherwise; every row of
    every successful record is among the rows handed to the writer and is
    in the stored row hashes afterwards; when the index as found does not
    already record exactly these rows, the artifact returned is a file
    written by this run that holds the header line and the line of every
    such row, otherwise no file of the month is touched and the latest
    artifact on record is returned; and the job ends failed exactly when
    one of its items failed, success otherwise. *)
Theorem sync_items_and_status (sched : list nat) (o : CsvSyncOptions)
    (w : World) :
  submissions o ≠ [] →
  sched ≡ₚ seq 0 (length (submissions o)) →
  NoDup (sub_id <$> submissions o) →
  Forall (λ x, item_syncJobId x ≠ next_job_id w) (sync_job_items w) →
  is_yearMonth (yearMonth o) = true →
  plain_keys (rowHashes (loaded (month cwd o) w)) →
  ∃ r w',
    run sched o w = (Returned r, w')
    ∧ job_id (job r) = next_job_id w
    ∧ sync_job_items w'
      = sync_job_items w ++ map (expected_item (next_job_id w)) (submissions o)
    ∧ (job_status (job r) = failed
       ↔ ∃ it, it ∈ sync_job_items w' ∧ item_syncJobId it = job_id (job r)
               ∧ item_status it = failed)
    ∧ (job_status (job r) = failed ∨ job_status (job r) = success)
    ∧ (∃ j, j ∈ sync_jobs w' ∧ job_id j = job_id (job r)
            ∧ job_status j = job_status (job r))
    ∧ total_count (summary r) = length (submissions o)
    ∧ failed_count (summary r)
      = length (filter (λ s, sub_details s = []) (submissions o))
    ∧ (∀ s row,
         s ∈ submissions o → sub_details s ≠ [] →
         row ∈ buildSubmissionRows s
                 (default ("employee-" +:+ pretty (sub_employeeId s))
                          (names_of w !! sub_employeeId s)) →
         row ∈ sync_rows localeCompare w (submissions o)
         ∧ submission_key row
           ∈ dom (rowHashes (loaded (submissions_options cwd (yearMonth o) []) w')))
    ∧ rowHashes (loaded (submissions_options cwd (yearMonth o) []) w')
      = makeRowHashes (sync_rows localeCompare w (submissions o)) submission_key
    ∧ (rowHashes (loaded (month cwd o) w)
         ≠ makeRowHashes (sync_rows localeCompare w (submissions o))
             submission_key
       ∨ js_falsy (latestFilePath (loaded (month cwd o) w)) = true →
       ∃ a,
         submissionsCsv (run_artifact r) = Some a
         ∧ csv_fs w' !! filePath a
           = Some (terminated_lines
                     (js_join (str1 comma) submissions_headers
                        :: map (csv_line submissions_headers)
                             (sync_rows localeCompare w (submissions o))))
         ∧ ∀ s row,
             s ∈ submissions o → sub_details s ≠ [] →
             row ∈ buildSubmissionRows s
                     (default ("employee-" +:+ pretty (sub_employeeId s))
                              (names_of w !! sub_employeeId s)) →
             csv_line submissions_headers row
             ∈ map (csv_line submissions_headers)
                 (sync_rows localeCompare w (submissions o)))
    ∧ (rowHashes (loaded (month cwd o) w)
       = makeRowHashes (sync_rows localeCompare w (submissions o))
           submission_key →
       js_falsy (latestFilePath (loaded (month cwd o) w)) = false →
       (∀ fn, csv_fs w' !! month_file cwd o fn = csv_fs w !! month_file cwd o fn)
       ∧ submissionsCsv (run_artifact r)
         = artifact_of_entry <$> last (history (month cwd o) w)).
Proof.
  intros Hne Hsched Hnd Hfresh Hym _.
  eexists _, _. split; [by apply runCsvSync_returns|].
  assert (sync_job_items
            (tick (world_finished clock toISOString timestamptz_text cwd
                     localeCompare o w))
          = sync_job_items w
            ++ map (expected_item (next_job_id w)) (submissions o)) as Hitems.
  { rewrite ledger_after_run, with_items_ledger by done.
    f_equal. apply map_ext. intros s. apply item_of_expected. }
  assert (rowHashes
            (loaded (submissions_options cwd (yearMonth o) [])
               (tick (world_finished clock toISOString timestamptz_text cwd
                        localeCompare o w)))
          = makeRowHashes (sync_rows localeCompare w (submissions o))
              submission_key) as Hhashes.
  { rewrite (loaded_ext (submissions_options cwd (yearMonth o) [])
               (submissions_options cwd (yearMonth o)
                  (sync_rows localeCompare w (submissions o)))
               _ (submissions_export clock toISOString timestamptz_text cwd
                    localeCompare o w).2 eq_refl).
    - apply (loaded_hashes_after_write clock toISOString).
    - by apply month_index_after_run. }
  assert (∀ s row,
            s ∈ submissions o → sub_details s ≠ [] →
            row ∈ buildSubmissionRows s
                    (default ("employee-" +:+ pretty (sub_employeeId s))
                             (names_of w !! sub_employeeId s)) →
            row ∈ sync_rows localeCompare w (submissions o)) as Hrows.
  { intros s row Hs Hd Hrow.
    unfold sync_rows. rewrite js_sort_perm. unfold projected_rows.
    apply list_elem_of_In, in_concat. eexists. split.
    - apply in_map_iff. exists s. split; [reflexivity|].
      by apply list_elem_of_In.
    - destruct (outcome_of_cases w s) as [[? _]|[_ ->]]; [done|].
      by apply list_elem_of_In. }
  cbn [job job_id job_status summary total_count failed_count run_artifact
       submissionsCsv].
  split_and!.
  - done.
  - exact Hitems.
  - rewrite Hitems. unfold final_status. split.
    + intros Hf. case_bool_decide as Hc; [|done].
      apply failure_count_pos in Hc as (s & Hs & Hd).
      exists (expected_item (next_job_id w) s). split_and!.
      * apply elem_of_app. right. apply list_elem_of_fmap. by exists s.
      * unfold expected_item. by case_bool_decide.
      * unfold expected_item. by rewrite bool_decide_eq_true_2.
    + intros (it & Hin & Hj & Hst).
      rewrite bool_decide_eq_true_2; [done|]. apply failure_count_pos.
      apply elem_of_app in Hin as [Hin|Hin].
      * rewrite Forall_forall in Hfresh. by destruct (Hfresh it Hin).
      * apply list_elem_of_fmap in Hin as (s & -> & Hs). exists s. split; [done|].
        unfold expected_item in Hst. by case_bool_decide.
  - unfold final_status. case_bool_decide; auto.
  - eexists. split_and!.
    + rewrite jobs_after_run. apply list_elem_of_fmap. eexists. split; [done|].
      apply elem_of_app. right. by left.
    + unfold finish_job. cbn [job_id].
      rewrite bool_decide_eq_true_2 by reflexivity. reflexivity.
    + unfold finish_job. cbn [job_id].
      rewrite bool_decide_eq_true_2 by reflexivity. reflexivity.
  - done.
  - unfold failure_count. f_equal. apply list_filter_iff. intros s.
    destruct (outcome_of_cases w s) as [[Hd ->]|[Hd ->]]; simpl; split; done.
  - intros s row Hs Hd Hrow.
    split; [by apply (Hrows s)|]. rewrite Hhashes. apply makeRowHashes_dom.
    exists row. split; [by apply (Hrows s)|done].
  - exact Hhashes.
  - intros Hch. apply sub_export_changed_iff in Hch.
    destruct (sub_export_changed o w Hch) as (a & Ha & _ & [fn Hfn] & Hcsv & _).
    exists a. split; [exact Ha|]. split.
    + rewrite Hfn. unfold month_file. rewrite month_csv_after_run by done.
      fold (month_file cwd o fn). rewrite <-Hfn.
      unfold sub_export in Hcsv. rewrite Hcsv, lookup_insert_eq.
      by rewrite rowsToCsv_lines.
    + intros s row Hs Hd Hrow. apply list_elem_of_fmap_2. by apply (Hrows s).
  - intros Heq Hf.
    destruct (write_cases clock toISOString
                (submissions_options cwd (yearMonth o)
                   (sync_rows localeCompare w (submissions o)))
                (world_with_items clock timestamptz_text o w))
      as [Hc|(_ & Hw & Hd & Hf')].
    { apply sub_export_changed_iff in Hc as [Hc|Hc]; [done|congruence]. }
    split.
    + intros fn. unfold month_file. rewrite month_csv_after_run by done.
      unfold submissions_export. rewrite Hw.
      by rewrite (proj1 (proj2 (with_items_storage clock timestamptz_text o w))).
    + unfold submissions_export.
      rewrite (write_unchanged clock toISOString); [|by rewrite Hd|exact Hf'].
      cbn [fst artifact]. do 2 f_equal. unfold history.
      rewrite loaded_with_items.
      destruct (files (loaded (month cwd o) w)); [|done].
      cbn [files_contents].
      apply (with_items_storage clock timestamptz_text o w).
Qed.


(** C7, as the code has it. The rows handed to the writer are the
    projected rows of the fulfilled records, each with the key
    submission_id:target_date, in ascending order of these keys under the
    host's collation ([String.prototype.localeCompare], a total preorder),
    rows whose keys the collation does not separate staying in the order
    of the input; the run does not depend on the order in which the
    projections settle;
    and every file of the month's directory that the run creates or
    replaces holds the header line followed by the lines of these rows in
    this order, such a file being written whenever the index as found
    (its keys naming no inherited member) does not record exactly these
    rows. *)
Theorem submissions_sorted_by_key (sched : list nat) (o : CsvSyncOptions)
    (w : World) :
  (∀ a b : string, (localeCompare a b ≤ 0)%Z ∨ (localeCompare b a ≤ 0)%Z) →
  (∀ a b c : string, (localeCompare a b ≤ 0)%Z → (localeCompare b c ≤ 0)%Z →
                     (localeCompare a c ≤ 0)%Z) →
  submissions o ≠ [] →
  sched ≡ₚ seq 0 (length (submissions o)) →
  is_yearMonth (yearMonth o) = true →
  StronglySorted
    (λ a b, (localeCompare (natural_key a) (natural_key b) ≤ 0)%Z)
    (sync_rows localeCompare w (submissions o))
  ∧ (∀ row, row ∈ sync_rows localeCompare w (submissions o) →
            ∃ s name d,
              s ∈ submissions o ∧ d ∈ sub_details s
              ∧ row = submission_row s name d
              ∧ natural_key row = pretty (sub_id s) +:+ ":" +:+ targetDate d)
  ∧ sync_rows localeCompare w (submissions o)
    ≡ₚ projected_rows w (submissions o)
  ∧ (∀ k, filter (λ row, tied localeCompare k (natural_key row))
            (sync_rows localeCompare w (submissions o))
          = filter (λ row, tied localeCompare k (natural_key row))
              (projected_rows w (submissions o)))
  ∧ (∀ sched', sched' ≡ₚ seq 0 (length (submissions o)) →
               run sched' o w = run sched o w)
  ∧ ∃ r w',
      run sched o w = (Returned r, w')
      ∧ (∀ fn, csv_fs w' !! month_file cwd o fn = csv_fs w !! month_file cwd o fn
               ∨ csv_fs w' !! month_file cwd o fn
                 = Some (terminated_lines
                           (js_join (str1 comma) submissions_headers
                              :: map (csv_line submissions_headers)
                                   (sync_rows localeCompare w (submissions o)))))
      ∧ (plain_keys (rowHashes (loaded (month cwd o) w)) →
         rowHashes (loaded (month cwd o) w)
           ≠ makeRowHashes (sync_rows localeCompare w (submissions o))
               submission_key
         ∨ js_falsy (latestFilePath (loaded (month cwd o) w)) = true →
         ∃ a, submissionsCsv (run_artifact r) = Some a
              ∧ csv_fs w' !! filePath a
                = Some (terminated_lines
                          (js_join (str1 comma) submissions_headers
                             :: map (csv_line submissions_headers)
                                  (sync_rows localeCompare w (submissions o))))).
Proof.
  intros Htotal Htrans Hne Hsched Hym.
  assert (∀ row, row ∈ sync_rows localeCompare w (submissions o) →
            ∃ s name d,
              s ∈ submissions o ∧ d ∈ sub_details s
              ∧ row = submission_row s name d
              ∧ natural_key row = pretty (sub_id s) +:+ ":" +:+ targetDate d)
    as Hrows.
  { intros row Hrow. unfold sync_rows in Hrow. rewrite js_sort_perm in Hrow.
    apply projected_rows_elem in Hrow as (s & name & d & Hs & Hd & ->).
    exists s, name, d. split_and!; [done..|].
    apply natural_key_submission_row. }
  split_and!.
  - apply (StronglySorted_elem_impl
             (cmp_le (submissions_cmp localeCompare))).
    + intros a b Ha Hb.
      destruct (Hrows a Ha) as (sa & na & da & _ & _ & -> & _).
      destruct (Hrows b Hb) as (sb & nb & db & _ & _ & -> & _).
      unfold cmp_le, submissions_cmp.
      by rewrite !(proj2 (natural_key_submission_row _ _ _)).
    + unfold sync_rows.
      apply (js_sort_strongly_sorted (submissions_cmp localeCompare)).
      * intros a b. apply Htotal.
      * intros a b c. apply Htrans.
  - exact Hrows.
  - apply js_sort_perm.
  - intros k.
    assert (∀ row, row ∈ projected_rows w (submissions o) →
              (tied localeCompare k (submission_key row)
               ↔ tied localeCompare k (natural_key row))) as Hsame.
    { intros row Hrow.
      apply projected_rows_elem in Hrow as (s & name & d & _ & _ & ->).
      by rewrite (proj2 (natural_key_submission_row _ _ _)). }
    rewrite <-(filter_ext_elem
                 (λ row, tied localeCompare k (submission_key row)) _
                 (sync_rows localeCompare w (submissions o)))
      by (intros row Hrow; apply Hsame; unfold sync_rows in Hrow;
          by rewrite js_sort_perm in Hrow).
    rewrite <-(filter_ext_elem
                 (λ row, tied localeCompare k (submission_key row)) _
                 (projected_rows w (submissions o))) by exact Hsame.
    unfold sync_rows. apply js_sort_stable.
    intros a b [_ Ha] [Hb _]. unfold cmp_le, submissions_cmp.
    by apply (Htrans _ k).
  - intros sched' Hsched'. unfold run.
    by rewrite !runCsvSync_returns.
  - eexists _, _. split; [by apply runCsvSync_returns|].
    cbn [run_artifact submissionsCsv]. rewrite <-rowsToCsv_lines. split_and!.
    + intros fn. unfold month_file. rewrite month_csv_after_run by done.
      destruct (write_cases clock toISOString
                  (submissions_options cwd (yearMonth o)
                     (sync_rows localeCompare w (submissions o)))
                  (world_with_items clock timestamptz_text o w))
        as [Hc|(_ & Hw & _)].
      * destruct (sub_export_changed o w Hc) as (a & _ & _ & _ & Hcsv & _).
        unfold sub_export in Hcsv. rewrite Hcsv.
        destruct (decide (filePath a
                          = path_join (submissions_dir cwd (yearMonth o)) fn))
          as [->|Hp].
        -- right. by rewrite lookup_insert_eq.
        -- left. by rewrite lookup_insert_ne.
      * left. unfold submissions_export. rewrite Hw.
        by rewrite (proj1 (proj2 (with_items_storage clock timestamptz_text o w))).
    + intros _ Hch. apply sub_export_changed_iff in Hch.
      destruct (sub_export_changed o w Hch) as (a & Ha & _ & [fn Hfn] & Hcsv & _).
      exists a. split; [exact Ha|].
      rewrite Hfn. unfold month_file. rewrite month_csv_after_run by done.
      fold (month_file cwd o fn). rewrite <-Hfn.
      unfold sub_export in Hcsv. rewrite Hcsv. by rewrite lookup_insert_eq.
Qed.

Lemma calcDiff_to_empty (m : RowHashMap) : calcDiff m ∅ = mkDiff 0 0 (size m).
Proof.
  pose proof (calcDiff_inserted m ∅) as Hi.
  pose proof (calcDiff_updated m ∅) as Hu.
  pose proof (calcDiff_deleted m ∅) as Hd.
  rewrite dom_empty_L in Hi, Hd.
  rewrite difference_empty_L, size_dom in Hd.
  assert ((∅ : gset string) ∖ dom m = ∅) as Hemp by set_solver.
  rewrite Hemp, size_empty in Hi.
  rewrite map_filter_empty, map_size_empty in Hu.
  destruct (calcDiff m ∅); simpl in *. by subst.
Qed.

Lemma projected_rows_all_fail w subs :
  Forall (λ s, sub_details s = []) subs → projected_rows w subs = [].
Proof.
  unfold projected_rows. induction 1 as [|s subs Hs _ IH]; [done|].
  simpl. rewrite IH.
  destruct (outcome_of_cases w s) as [[_ ->]|[? _]]; done.
Qed.

(** C10. When every record fails its projection the writer is still called,
    with no rows: if the month's index records N > 0 row hashes, a new
    version holding only the header line is written and becomes the latest
    artifact, the diff reports N deletions, the stored row hashes become
    empty, and the job ends failed. *)
Theorem failed_run_erases_rows (sched : list nat) (o : CsvSyncOptions)
    (w : World) (N : nat) :
  submissions o ≠ [] →
  Forall (λ s, sub_details s = []) (submissions o) →
  sched ≡ₚ seq 0 (length (submissions o)) →
  is_yearMonth (yearMonth o) = true →
  size (rowHashes (loaded (month cwd o) w)) = N →
  0 < N →
  ∃ r w' a,
    run sched o w = (Returned r, w')
    ∧ job_status (job r) = failed
    ∧ (∃ j, j ∈ sync_jobs w' ∧ job_id j = job_id (job r)
            ∧ job_status j = failed)
    ∧ submissionDiff (summary r) = mkDiff 0 0 N
    ∧ submissionsCsv (run_artifact r) = Some a
    ∧ version a = (latestVersion (loaded (month cwd o) w) + 1)%Z
    ∧ csv_fs w' !! filePath a
      = Some (js_join (str1 comma) submissions_headers +:+ str1 LF)
    ∧ latestVersion (loaded (month cwd o) w')
      = (latestVersion (loaded (month cwd o) w) + 1)%Z
    ∧ latestFilePath (loaded (month cwd o) w') = Some (filePath a)
    ∧ rowHashes (loaded (month cwd o) w') = ∅.
Proof.
  intros Hne Hall Hsched Hym HN Hpos.
  assert (sync_rows localeCompare w (submissions o) = []) as Hrows.
  { unfold sync_rows. by rewrite projected_rows_all_fail. }
  assert (diff (sub_export o w).1 = mkDiff 0 0 N) as Hdiff.
  { unfold sub_export, submissions_export. rewrite write_diff.
    unfold computed_diff, new_hashes. rewrite loaded_with_items, Hrows.
    cbn [rows keyFn submissions_options]. rewrite makeRowHashes_nil.
    by rewrite calcDiff_to_empty, HN. }
  assert (changed (sub_export o w).1 = true) as Hc.
  { apply sub_export_changed_iff. left. rewrite Hrows, makeRowHashes_nil.
    intros He. rewrite He, map_size_empty in HN. lia. }
  destruct (sub_export_changed o w Hc) as (a & Ha & Hv & [fn Hfn] & Hcsv & Hl).
  assert (final_status o w = failed) as Hst.
  { unfold final_status. rewrite bool_decide_eq_true_2; [done|].
    apply failure_count_pos. destruct (submissions o) as [|s subs]; [done|].
    exists s. split; [by left|]. by apply Forall_inv in Hall. }
  eexists _, _, a. split; [by apply runCsvSync_returns|].
  cbn [job job_id job_status summary submissionDiff run_artifact submissionsCsv].
  split_and!.
  - exact Hst.
  - eexists. split_and!.
    + rewrite jobs_after_run. apply list_elem_of_fmap. eexists. split; [done|].
      apply elem_of_app. right. by left.
    + unfold finish_job. cbn [job_id].
      rewrite bool_decide_eq_true_2 by reflexivity. reflexivity.
    + unfold finish_job. cbn [job_id].
      rewrite bool_decide_eq_true_2 by reflexivity. exact Hst.
  - exact Hdiff.
  - exact Ha.
  - exact Hv.
  - rewrite Hfn. unfold month_file. rewrite month_csv_after_run by done.
    fold (month_file cwd o fn). rewrite <-Hfn.
    unfold sub_export in Hcsv. rewrite Hcsv, lookup_insert_eq, Hrows.
    reflexivity.
  - rewrite loaded_after_run by done. by rewrite Hl.
  - rewrite loaded_after_run by done. by rewrite Hl.
  - rewrite loaded_after_run by done.
    rewrite Hl. cbn [rowHashes]. by rewrite Hrows.
Qed.

End Orchestrator.

(** ** The orchestrator on the sample environment *)

Lemma sample_localeCompare_le a b :
  (Sample.localeCompare a b ≤ 0)%Z
  ↔ String.le (Sample.collation_key a) (Sample.collation_key b).
Proof.
  unfold Sample.localeCompare, String.le, String.leb.
  destruct (String.compare _ _); simpl; split; (lia || done).
Qed.

Lemma sample_localeCompare_total a b :
  (Sample.localeCompare a b ≤ 0)%Z ∨ (Sample.localeCompare b a ≤ 0)%Z.
Proof. rewrite !sample_localeCompare_le. apply (total String.le). Qed.

Lemma sample_localeCompare_trans a b c :
  (Sample.localeCompare a b ≤ 0)%Z → (Sample.localeCompare b c ≤ 0)%Z →
  (Sample.localeCompare a c ≤ 0)%Z.
Proof. rewrite !sample_localeCompare_le. apply transitivity. Qed.


Lemma empty_submissions_rejected_witness :
  SampleRun.run [] (mkSyncOptions "2026-03" manual 1 []) Sample.world0
  = (Raised "no submissions for target month", Sample.world0).
Proof.
  apply (empty_submissions_rejected Sample.clock Sample.toISOString
           Sample.timestamptz_text Sample.cwd Sample.localeCompare []
           (mkSyncOptions "2026-03" manual 1 []) Sample.world0).
  reflexivity.
Defined.

Lemma sync_items_and_status_witness :
  ∃ r w',
    SampleRun.run SampleRun.sched SampleRun.options Sample.world0
    = (Returned r, w')
    ∧ job_status (job r) = failed
    ∧ sync_job_items w'
      = [mkItem 1 1 success None; mkItem 1 2 success None;
         mkItem 1 3 failed (Some "details is empty")].
Proof.
  destruct (sync_items_and_status Sample.clock Sample.toISOString
              Sample.timestamptz_text Sample.cwd Sample.localeCompare
              SampleRun.sched SampleRun.options Sample.world0)
    as (r & w' & Hrun & Hid & Hitems & Hst & _).
  - discriminate.
  - compute_done.
  - compute_done.
  - constructor.
  - reflexivity.
  - intros k Hk. exfalso. revert Hk.
    change (¬ is_Some ((∅ : RowHashMap) !! k)).
    rewrite lookup_empty. apply is_Some_None.
  - exists r, w'. split; [exact Hrun|]. split; [|exact Hitems].
    apply Hst. exists (mkItem 1 3 failed (Some "details is empty")).
    rewrite Hitems. split; [|split].
    + right. right. left.
    + rewrite Hid. reflexivity.
    + reflexivity.
Defined.

Lemma submissions_sorted_by_key_witness :
  StronglySorted
    (λ a b, (Sample.localeCompare (natural_key a) (natural_key b) ≤ 0)%Z)
    (sync_rows Sample.localeCompare Sample.world0 (submissions SampleRun.options))
  ∧ SampleRun.run [0; 1; 2] SampleRun.options Sample.world0
    = SampleRun.run SampleRun.sched SampleRun.options Sample.world0.
Proof.
  destruct (submissions_sorted_by_key Sample.clock Sample.toISOString
              Sample.timestamptz_text Sample.cwd Sample.localeCompare
              SampleRun.sched SampleRun.options Sample.world0)
    as (Hsorted & _ & _ & _ & Hsched & _).
  - apply sample_localeCompare_total.
  - apply sample_localeCompare_trans.
  - discriminate.
  - compute_done.
  - reflexivity.
  - split; [exact Hsorted|]. apply Hsched. reflexivity.
Defined.

(** C7, as stated, fails: the order is that of the collation, under which
    the colon comes before the digits, whereas by code unit it comes after
    them. For the records 10, 2 and 1 the rows are written in the order
    1, 1, 10, 2 of their ids: the key of the third row is below the key
    of the second by code unit, so the keys are not in ascending
    lexicographic order of their code units, nor are the ids in numeric
    order. *)
Lemma collation_is_not_code_unit_order :
  let rows := sync_rows Sample.localeCompare Sample.world0
                [Sample.sub10; Sample.sub2; Sample.sub1] in
  natural_key <$> rows
  = ["1:2026-03-01"; "1:2026-03-02"; "10:2026-03-01"; "2:2026-03-01"]
  ∧ String.compare "1:2026-03-02" "10:2026-03-01" = Gt
  ∧ ¬ StronglySorted
        (λ a b, String.compare (natural_key a) (natural_key b) ≠ Gt) rows
  ∧ (λ row, row_number row "submission_id") <$> rows = [1; 1; 10; 2]%Z.
Proof.
  split_and!.
  - vm_compute. reflexivity.
  - reflexivity.
  - intros Hs. apply StronglySorted_inv in Hs as [Hs _].
    apply StronglySorted_inv in Hs as [_ Hall].
    apply Forall_cons in Hall as [Hgt _]. vm_compute in Hgt. by apply Hgt.
  - vm_compute. reflexivity.
Qed.

Lemma failed_run_erases_rows_witness :
  ∃ r w' a,
    SampleRun.run [0] SampleRun.failing_options Sample.world1
    = (Returned r, w')
    ∧ job_status (job r) = failed
    ∧ submissionDiff (summary r) = mkDiff 0 0 2
    ∧ submissionsCsv (run_artifact r) = Some a
    ∧ version a = 2%Z
    ∧ rowHashes (loaded (month Sample.cwd SampleRun.failing_options) w') = ∅.
Proof.
  destruct (failed_run_erases_rows Sample.clock Sample.toISOString
              Sample.timestamptz_text Sample.cwd Sample.localeCompare
              [0] SampleRun.failing_options Sample.world1 2)
    as (r & w' & a & Hrun & Hst & _ & Hd & Ha & Hv & _ & _ & _ & Hh).
  - discriminate.
  - repeat constructor.
  - reflexivity.
  - reflexivity.
  - vm_compute. reflexivity.
  - lia.
  - exists r, w', a. split_and!; [exact Hrun|exact Hst|exact Hd|exact Ha| |exact Hh].
    rewrite Hv. vm_compute. reflexivity.
Defined.

(** ** Loading an index that is missing or unreadable *)

Lemma readIndex_missing p w :
  index_missing p w →
  readIndex p w = mkIndex 0 None ∅ DefaultFilesArray.
Proof. unfold readIndex. by intros [-> | ->]. Qed.

(** In a process whose [DEFAULT_INDEX.files] has not been pushed to, the
    index loaded for a missing file has no history. *)
Lemma history_missing_untouched o w :
  index_missing (indexPath_of (baseDir o)) w → default_files w = [] →
  loaded o w = mkIndex 0 None ∅ DefaultFilesArray ∧ history o w = [].
Proof.
  intros Hm Hd. unfold history, loaded. by rewrite readIndex_missing.
Qed.

(** The first export of a dataset is forced, whatever the rows: it is
    version 1. *)
Lemma first_export_forced clock toISOString o w :
  index_missing (indexPath_of (baseDir o)) w →
  changed (writeCsvWithDiff clock toISOString o w).1 = true
  ∧ version <$> artifact (writeCsvWithDiff clock toISOString o w).1 = Some 1%Z
  ∧ latestVersion (loaded o (writeCsvWithDiff clock toISOString o w).2) = 1%Z
  ∧ csv_fs (writeCsvWithDiff clock toISOString o w).2
      !! path_join (baseDir o) (new_fileName clock o w)
    = Some (rowsToCsv (headers o) (rows o)).
Proof.
  intros Hm.
  assert (loaded o w = mkIndex 0 None ∅ DefaultFilesArray) as Hl
    by (by apply readIndex_missing).
  assert (changed (writeCsvWithDiff clock toISOString o w).1 = true) as Hc.
  { apply write_changed_iff. right. by rewrite Hl. }
  destruct (write_changed clock toISOString o w Hc) as (Hr & _ & Hcsv & _).
  split_and!.
  - done.
  - rewrite Hr. simpl. by rewrite Hl.
  - rewrite loaded_after_change by done. simpl. by rewrite Hl.
  - rewrite Hcsv. simpl. by rewrite lookup_insert_eq.
Qed.

(** The array behind [DEFAULT_INDEX.files] is shared: an export that
    starts from a missing index pushes its entry on it, and the next load
    of any other missing index sees that entry as its own history. *)
Lemma history_missing_after_export clock toISOString o1 o2 w :
  index_missing (indexPath_of (baseDir o1)) w →
  index_missing (indexPath_of (baseDir o2)) w →
  baseDir o1 ≠ baseDir o2 →
  history o2 (writeCsvWithDiff clock toISOString o1 w).2
  = default_files w ++ [new_entry clock toISOString o1 w].
Proof.
  intros H1 H2 Hne.
  destruct (first_export_forced clock toISOString o1 w H1) as (Hc & _).
  destruct (write_changed clock toISOString o1 w Hc)
    as (_ & Hidx & _ & Hdef & _).
  assert (indexPath_of (baseDir o2) ≠ indexPath_of (baseDir o1)) as Hp.
  { intros H. apply Hne. symmetry. by apply string_app_inv_tail in H. }
  assert (loaded o2 (writeCsvWithDiff clock toISOString o1 w).2
          = mkIndex 0 None ∅ DefaultFilesArray) as Hl.
  { apply readIndex_missing. unfold index_missing.
    by rewrite Hidx, lookup_insert_ne. }
  unfold history. rewrite Hl. simpl. rewrite Hdef.
  unfold loaded. by rewrite (readIndex_missing _ _ H1).
Qed.

(** ** Versions and history *)

(** A changed export takes the next version and appends one entry. *)
Lemma changed_export_next_version clock toISOString o w :
  changed (writeCsvWithDiff clock toISOString o w).1 = true →
  version <$> artifact (writeCsvWithDiff clock toISOString o w).1
  = Some (latestVersion (loaded o w) + 1)%Z
  ∧ latestVersion (loaded o (writeCsvWithDiff clock toISOString o w).2)
    = (latestVersion (loaded o w) + 1)%Z
  ∧ history o (writeCsvWithDiff clock toISOString o w).2
    = history o w ++ [new_entry clock toISOString o w]
  ∧ rowHashes (loaded o (writeCsvWithDiff clock toISOString o w).2)
    = makeRowHashes (rows o) (keyFn o).
Proof.
  intros Hc. destruct (write_changed clock toISOString o w Hc) as (Hr & _).
  split_and!.
  - by rewrite Hr.
  - by rewrite loaded_after_change.
  - unfold history at 1. by rewrite loaded_after_change.
  - by rewrite loaded_after_change.
Qed.

(** The length of the history follows the version as long as the history
    that is extended is the dataset's own. *)
Lemma history_length_kept clock toISOString o w :
  Z.of_nat (length (history o w)) = latestVersion (loaded o w) →
  Z.of_nat (length (history o (writeCsvWithDiff clock toISOString o w).2))
  = latestVersion (loaded o (writeCsvWithDiff clock toISOString o w).2).
Proof.
  intros Hinv. destruct (write_cases clock toISOString o w) as [Hc|(_ & -> & _)];
    [|done].
  destruct (changed_export_next_version clock toISOString o w Hc)
    as (_ & -> & -> & _).
  rewrite length_app. simpl. lia.
Qed.

(** ** C1 and C5: the shared default history *)

(** C1, on a fresh installation: the roster is exported once (as the login
    route does), then the index of a month that has never been exported is
    loaded. The version, the path and the row hashes are the zero values,
    but the history is not empty: it holds the roster's artifact. The
    export that follows is forced and is version 1, even with no rows, and
    it stores a history of two entries. *)
Theorem missing_index_after_roster_export :
  let w1 := (exportEmployeesCsvDiff Sample.clock Sample.toISOString Sample.cwd
               Sample.world0).2 in
  let o := Sample.march [] in
  index_fs w1 !! indexPath_of (baseDir o) = None
  ∧ latestVersion (loaded o w1) = 0%Z
  ∧ latestFilePath (loaded o w1) = None
  ∧ rowHashes (loaded o w1) = ∅
  ∧ history o w1
    = [mkFileEntry 1 "employees_v0001_1772323200000.csv"
         "/app/storage/csv/employees/employees_v0001_1772323200000.csv"
         "ms1772323200001"]
  ∧ changed (writeCsvWithDiff Sample.clock Sample.toISOString o w1).1 = true
  ∧ version <$> artifact (writeCsvWithDiff Sample.clock Sample.toISOString o w1).1
    = Some 1%Z
  ∧ length (history o (writeCsvWithDiff Sample.clock Sample.toISOString o w1).2)
    = 2.
Proof. vm_compute. repeat split; reflexivity. Qed.

(** C5, on a fresh installation: one run with two records. Both datasets
    get version 1; the month's index has one history entry, the roster's
    index has two, the first being the month's artifact. *)
Theorem roster_history_longer_than_version :
  let o := mkSyncOptions "2026-03" manual 1 [Sample.sub1; Sample.sub2] in
  let w' := (SampleRun.run [0; 1] o Sample.world0).2 in
  (∃ r, (SampleRun.run [0; 1] o Sample.world0).1 = Returned r
        ∧ version <$> submissionsCsv (run_artifact r) = Some 1%Z
        ∧ version <$> employeesCsv (run_artifact r) = Some 1%Z)
  ∧ latestVersion (loaded (month Sample.cwd o) w') = 1%Z
  ∧ length (history (month Sample.cwd o) w') = 1
  ∧ latestVersion (loaded (roster_options Sample.cwd []) w') = 1%Z
  ∧ length (history (roster_options Sample.cwd []) w') = 2
  ∧ entry_fileName <$> history (roster_options Sample.cwd []) w'
    = ["202603_submissions_v0001_1772323200001.csv";
       "employees_v0001_1772323200003.csv"].
Proof.
  vm_compute. split; [|repeat split; reflexivity].
  eexists. split; [reflexivity|]. split; reflexivity.
Qed.

(** * Further properties of the diff engine *)

Lemma dom_filter_updated_swap (a b : RowHashMap) :
  dom (filter (is_updated a) b) = dom (filter (is_updated b) a).
Proof.
  apply set_eq. intros k. rewrite !elem_of_dom. unfold is_Some.
  setoid_rewrite map_lookup_filter_Some. unfold is_updated. simpl.
  split; intros (v & Hv & [u Hu] & Hne); exists u;
    (split; [done|]); rewrite Hv; (split; [eauto|]); congruence.
Qed.

(** X1. For maps whose keys name no inherited member, exchanging the two
    maps exchanges the insertions and the deletions and keeps the
    updates. *)
Theorem calcDiff_swap (before after : RowHashMap) :
  plain_keys before → plain_keys after →
  calcDiff after before
  = {| inserted := deleted (calcDiff before after);
       updated := updated (calcDiff before after);
       deleted := inserted (calcDiff before after) |}.
Proof.
  intros _ _.
  pose proof (calcDiff_inserted after before) as Hi.
  pose proof (calcDiff_updated after before) as Hu.
  pose proof (calcDiff_deleted after before) as Hd.
  rewrite calcDiff_inserted, calcDiff_updated, calcDiff_deleted.
  assert (size (filter (is_updated before) after)
          = size (filter (is_updated after) before)) as ->.
  { transitivity (size (dom (filter (is_updated before) after)));
      [by rewrite size_dom|].
    rewrite dom_filter_updated_swap. by rewrite size_dom. }
  destruct (calcDiff after before); simpl in *. by subst.
Qed.

(** X2. For maps whose keys name no inherited member, the counts balance
    the sizes of the two maps: what the new map holds is what the old one
    held, plus the insertions, minus the deletions. *)
Theorem calcDiff_size_balance (before after : RowHashMap) :
  plain_keys before → plain_keys after →
  size after + deleted (calcDiff before after)
  = size before + inserted (calcDiff before after).
Proof.
  intros _ _.
  rewrite calcDiff_inserted, calcDiff_deleted.
  assert (size after = size (dom after)) as -> by (by rewrite size_dom).
  assert (size before = size (dom before)) as -> by (by rewrite size_dom).
  pose proof (size_union_alt (dom after) (dom before)) as H1.
  pose proof (size_union_alt (dom before) (dom after)) as H2.
  assert (dom after ∪ dom before = dom before ∪ dom after) as Hc by set_solver.
  rewrite Hc in H1. lia.
Qed.

(** X3. For maps whose keys name no inherited member, the diff is all
    zero exactly when the stored map and the new map are the same map: no
    change of a key or of a value escapes it, and equal maps never report
    one. *)
Theorem calcDiff_zero_iff_same (before after : RowHashMap) :
  plain_keys before → plain_keys after →
  (calcDiff before after = mkDiff 0 0 0 ↔ before = after).
Proof.
  intros _ _. rewrite <-calcDiff_zero_iff. split.
  - by intros ->.
  - intros H. destruct (calcDiff before after) as [i u d]; simpl in *.
    f_equal; lia.
Qed.

(** ** Further properties of the row hashes *)

Lemma filter_key_absent (key : CsvRow → string) k (rs : list CsvRow) :
  k ∉ key <$> rs → filter (λ r, key r = k) rs = [].
Proof.
  induction rs as [|x rs IH]; intros H; [done|].
  rewrite fmap_cons, not_elem_of_cons in H. destruct H as [Hne H].
  rewrite filter_cons, decide_False by done. by apply IH.
Qed.

Lemma makeRowHashes_lookup (rs : list CsvRow) (key : CsvRow → string) k :
  makeRowHashes rs key !! k
  = JSON_stringify <$> last (filter (λ r, key r = k) rs).
Proof.
  induction rs as [|r rs IH] using rev_ind; [done|].
  rewrite makeRowHashes_snoc, filter_app, filter_cons, filter_nil.
  destruct (decide (key r = k)) as [<-|Hne].
  - by rewrite lookup_insert_eq, last_snoc.
  - by rewrite lookup_insert_ne, app_nil_r.
Qed.

Lemma makeRowHashes_size_le (rs : list CsvRow) (key : CsvRow → string) :
  size (makeRowHashes rs key) ≤ length rs.
Proof.
  induction rs as [|r rs IH] using rev_ind; [done|].
  rewrite makeRowHashes_snoc, length_app. simpl.
  pose proof (map_size_insert (key r) (JSON_stringify r) (makeRowHashes rs key)).
  destruct (makeRowHashes rs key !! key r); unfold id in *; lia.
Qed.

Lemma makeRowHashes_size_NoDup (rs : list CsvRow) (key : CsvRow → string) :
  NoDup (key <$> rs) → size (makeRowHashes rs key) = length rs.
Proof.
  induction rs as [|r rs IH] using rev_ind; [done|]. intros Hnd.
  rewrite fmap_app in Hnd. apply NoDup_app in Hnd as (Hnd & Hfresh & _).
  rewrite makeRowHashes_snoc, length_app. simpl.
  rewrite map_size_insert_None, IH by
    (done || (apply not_elem_of_dom; rewrite makeRowHashes_dom;
              intros (r' & Hr' & Hk); apply (Hfresh (key r));
              [rewrite <-Hk; by apply list_elem_of_fmap_2|by left])).
  lia.
Qed.

Lemma makeRowHashes_lookup_NoDup (rs : list CsvRow) (key : CsvRow → string) r :
  NoDup (key <$> rs) → r ∈ rs →
  makeRowHashes rs key !! key r = Some (JSON_stringify r).
Proof.
  intros Hnd Hr. rewrite makeRowHashes_lookup.
  assert (filter (λ r0, key r0 = key r) rs = [r]) as ->; [|done].
  induction rs as [|x rs IH]; [by apply elem_of_nil in Hr|].
  rewrite fmap_cons in Hnd. apply NoDup_cons in Hnd as [Hx Hnd].
  rewrite filter_cons. apply elem_of_cons in Hr as [->|Hr].
  - rewrite decide_True by done. f_equal. by apply filter_key_absent.
  - rewrite decide_False; [by apply IH|].
    intros Hk. apply Hx. rewrite Hk. by apply list_elem_of_fmap_2.
Qed.

(** X4. For rows whose keys name no inherited member, the hash map holds,
    under each such key, the fingerprint of the last row that has this
    key, and nothing under one no row has; so it never has more entries
    than there are rows, and when the keys of the rows are pairwise
    distinct every row has its own entry. *)
Theorem makeRowHashes_last_wins (rs : list CsvRow) (key : CsvRow → string) :
  Forall (λ r, plain_key (key r)) rs →
  (∀ k, plain_key k →
        makeRowHashes rs key !! k
        = JSON_stringify <$> last (filter (λ r, key r = k) rs))
  ∧ size (makeRowHashes rs key) ≤ length rs
  ∧ (NoDup (key <$> rs) →
     size (makeRowHashes rs key) = length rs
     ∧ ∀ r, r ∈ rs → makeRowHashes rs key !! key r = Some (JSON_stringify r)).
Proof.
  intros _.
  split; [intros k _; apply makeRowHashes_lookup|].
  split; [apply makeRowHashes_size_le|].
  intros Hnd. split; [by apply makeRowHashes_size_NoDup|].
  intros r Hr. by apply makeRowHashes_lookup_NoDup.
Qed.

Lemma makeRowHashes_last_wins_witness :
  size (makeRowHashes Sample.rows_v1 submission_key) = 2.
Proof.
  destruct (makeRowHashes_last_wins Sample.rows_v1 submission_key)
    as (_ & _ & H).
  - apply Forall_forall. intros r _. apply submission_key_plain.
  - destruct H as [-> _]; [compute_done|reflexivity].
Defined.

(** X5. The fingerprint determines the row: two rows with the same
    fingerprint have the same fields, in the same order, with the same
    values. A stored fingerprint that is found unchanged therefore always
    stands for an unchanged row. *)
Theorem JSON_stringify_inj (r1 r2 : CsvRow) :
  JSON_stringify r1 = JSON_stringify r2 → r1 = r2.
Proof.
  destruct r1 as [|m1 l1], r2 as [|m2 l2]; [done|..].
  - rewrite JSON_stringify_tail. destruct m2 as [k v].
    unfold JSON_stringify, json_member, json_quote. simpl. discriminate.
  - rewrite JSON_stringify_tail. destruct m1 as [k v].
    unfold JSON_stringify, json_member, json_quote. simpl. discriminate.
  - rewrite !JSON_stringify_tail. intros H. apply (inj (String.app _)) in H.
    destruct (json_tail_head l1) as (d1 & t1 & E1 & Hd1).
    destruct (json_tail_head l2) as (d2 & t2 & E2 & Hd2).
    rewrite E1, E2 in H.
    apply json_member_delimited in H as (-> & -> & ->); [|done..].
    f_equal. apply json_tail_inj. by rewrite E1, E2.
Qed.

Lemma JSON_stringify_inj_witness :
  submission_row Sample.sub1 "Ann" Sample.day2
  = [("submission_id", JNum 1); ("year_month", JStr "2026-03");
     ("employee_id", JNum 7); ("employee_name", JStr "Ann");
     ("target_date", JStr "2026-03-02"); ("availability", JStr "negotiable");
     ("time_range", JStr "AM")].
Proof.
  apply (JSON_stringify_inj (submission_row Sample.sub1 "Ann" Sample.day2)).
  vm_compute. reflexivity.
Defined.

(** ** Natural keys of the projected rows *)

Lemma submission_key_row s name d :
  submission_key (submission_row s name d)
  = pretty (sub_id s) +:+ String ":"%char (targetDate d).
Proof. reflexivity. Qed.

Lemma submission_key_row_inj s name d s' name' d' :
  submission_key (submission_row s name d)
  = submission_key (submission_row s' name' d') →
  sub_id s = sub_id s' ∧ targetDate d = targetDate d'.
Proof.
  rewrite !submission_key_row. intros H.
  apply (string_span_unique is_num_char) in H as (H & _ & ->);
    [|apply pretty_Z_num_chars..|done|done].
  by apply (inj pretty) in H.
Qed.

Lemma rows_of_outcome_keys w s :
  NoDup (targetDate <$> sub_details s) →
  NoDup (submission_key <$> rows_of_outcome (outcome_of w s)).
Proof.
  destruct (outcome_of_cases w s) as [[_ ->]|[_ ->]]; simpl;
    [constructor|].
  unfold buildSubmissionRows. induction (sub_details s) as [|d ds IH];
    [constructor|].
  rewrite !fmap_cons. intros Hnd. apply NoDup_cons in Hnd as [Hd Hnd].
  apply NoDup_cons. split; [|by apply IH].
  intros Hin. apply list_elem_of_fmap in Hin as (row & Hk & Hrow).
  apply list_elem_of_fmap in Hrow as (d' & -> & Hd').
  apply submission_key_row_inj in Hk as [_ Hk].
  apply Hd. rewrite Hk. by apply list_elem_of_fmap_2.
Qed.

Lemma rows_of_outcome_length w s :
  length (rows_of_outcome (outcome_of w s)) = length (sub_details s).
Proof.
  destruct (outcome_of_cases w s) as [[-> ->]|[_ ->]]; simpl; [done|].
  unfold buildSubmissionRows. apply length_map.
Qed.

(** X6. The natural key of a projected row determines the submission id
    and the target date. Hence, for records with distinct ids whose detail
    lines have distinct dates, the rows handed to the writer have pairwise
    distinct keys, there is one row per detail line, and the row-hash map
    has one entry per row: no row hides another. *)
Theorem submission_keys_distinct (localeCompare : string → string → Z)
    (w : World) (subs : list ShiftSubmission) :
  NoDup (sub_id <$> subs) →
  Forall (λ s, NoDup (targetDate <$> sub_details s)) subs →
  NoDup (submission_key <$> sync_rows localeCompare w subs)
  ∧ length (sync_rows localeCompare w subs)
    = sum_list (length ∘ sub_details <$> subs)
  ∧ size (makeRowHashes (sync_rows localeCompare w subs) submission_key)
    = length (sync_rows localeCompare w subs).
Proof.
  intros Hids Hdates.
  assert (NoDup (submission_key <$> projected_rows w subs)) as Hnd.
  { induction subs as [|s subs IH]; [constructor|].
    rewrite fmap_cons in Hids. apply NoDup_cons in Hids as [Hs Hids].
    apply Forall_cons in Hdates as [Hd Hdates].
    change (projected_rows w (s :: subs))
      with (rows_of_outcome (outcome_of w s) ++ projected_rows w subs).
    rewrite fmap_app. apply NoDup_app. split_and!.
    - by apply rows_of_outcome_keys.
    - intros k Hk1 Hk2.
      apply list_elem_of_fmap in Hk1 as (r1 & -> & Hr1).
      apply list_elem_of_fmap in Hk2 as (r2 & Hk & Hr2).
      apply rows_of_outcome_elem in Hr1 as (n1 & d1 & _ & ->).
      apply projected_rows_elem in Hr2 as (s2 & n2 & d2 & Hs2 & _ & ->).
      apply submission_key_row_inj in Hk as [Hid _].
      apply Hs. rewrite Hid. by apply list_elem_of_fmap_2.
    - by apply IH. }
  assert (NoDup (submission_key <$> sync_rows localeCompare w subs)) as Hnd'.
  { unfold sync_rows. by rewrite js_sort_perm. }
  split_and!.
  - done.
  - unfold sync_rows. rewrite js_sort_perm. unfold projected_rows.
    clear. induction subs as [|s subs IH]; [done|].
    simpl. rewrite length_app, rows_of_outcome_length, IH. done.
  - by apply makeRowHashes_size_NoDup.
Qed.

Lemma submission_keys_distinct_witness :
  size (makeRowHashes
          (sync_rows Sample.localeCompare Sample.world0
             (submissions SampleRun.options)) submission_key)
  = 3.
Proof.
  destruct (submission_keys_distinct Sample.localeCompare Sample.world0
              (submissions SampleRun.options)) as (_ & Hlen & Hsize).
  - compute_done.
  - repeat constructor; compute_done.
  - rewrite Hsize, Hlen. reflexivity.
Defined.

(** ** Reading back a CSV line *)

Section ReadBack.

Variable trim : string → string.

Let scan := parseCsvLine_from trim.

Lemma scan_plain out cur c rest :
  c ≠ dquote → c ≠ comma →
  scan out cur false (String c rest) = scan out (cur +:+ str1 c) false rest.
Proof.
  intros H1 H2. unfold scan. destruct rest; simpl;
    repeat case_bool_decide; simplify_eq/=; done.
Qed.

Lemma scan_comma out cur rest :
  scan out cur false (String comma rest)
  = scan (out ++ [trim cur]) EmptyString false rest.
Proof. unfold scan. by destruct rest. Qed.

Lemma scan_open out cur rest :
  scan out cur false (String dquote rest) = scan out cur true rest.
Proof. unfold scan. by destruct rest. Qed.

Lemma scan_quoted_char out cur c rest :
  c ≠ dquote →
  scan out cur true (String c rest) = scan out (cur +:+ str1 c) true rest.
Proof.
  intros H. unfold scan. destruct rest; simpl;
    repeat case_bool_decide; simplify_eq/=; done.
Qed.

Lemma scan_quoted_pair out cur rest :
  scan out cur true (String dquote (String dquote rest))
  = scan out (cur +:+ str1 dquote) true rest.
Proof. reflexivity. Qed.

Lemma scan_close out cur rest :
  (∀ r, rest ≠ String dquote r) →
  scan out cur true (String dquote rest) = scan out cur false rest.
Proof.
  intros H. unfold scan. destruct rest as [|c rest]; [done|]. simpl.
  case_bool_decide as Hc; [|done]. subst c. by destruct (H rest).
Qed.

Lemma replace_all_char_cons c r x s :
  replace_all_char c r (String x s)
  = (if decide (x = c) then r else str1 x) +:+ replace_all_char c r s.
Proof. reflexivity. Qed.

Lemma scan_unquoted_field raw out cur rest :
  string_existsb csv_special raw = false →
  scan out cur false (raw +:+ rest) = scan out (cur +:+ raw) false rest.
Proof.
  revert cur. induction raw as [|c raw IH]; intros cur H.
  - by rewrite app_Empty_l, app_Empty_r.
  - simpl in H. apply orb_false_iff in H as [Hc H].
    rewrite app_String, scan_plain.
    + rewrite IH by done. by rewrite string_app_assoc.
    + intros ->. done.
    + intros ->. done.
Qed.

Lemma scan_quoted_field raw out cur rest :
  (∀ r, rest ≠ String dquote r) →
  scan out cur true
    (replace_all_char dquote (String dquote (str1 dquote)) raw
     +:+ String dquote rest)
  = scan out (cur +:+ raw) false rest.
Proof.
  intros Hrest. revert cur. induction raw as [|c raw IH]; intros cur.
  - cbn [replace_all_char]. rewrite ?app_Empty_l, ?app_Empty_r.
    by apply scan_close.
  - rewrite replace_all_char_cons, string_app_assoc.
    destruct (decide (c = dquote)) as [->|Hc].
    + change (String dquote (str1 dquote) +:+ ?x)
        with (String dquote (String dquote x)).
      rewrite scan_quoted_pair, IH. by rewrite string_app_assoc.
    + change (str1 c +:+ ?x) with (String c x).
      rewrite scan_quoted_char, IH by done. by rewrite string_app_assoc.
Qed.

Lemma scan_field value out rest :
  (∀ r, rest ≠ String dquote r) →
  scan out EmptyString false (csvEscape value +:+ rest)
  = scan out (field_text value) false rest.
Proof.
  intros Hrest. unfold csvEscape. fold (field_text value).
  destruct (string_existsb csv_special (field_text value)) eqn:E; cbn [negb].
  - rewrite ?app_String, scan_open, string_app_assoc.
    change (str1 dquote +:+ rest) with (String dquote rest).
    by rewrite scan_quoted_field.
  - by rewrite scan_unquoted_field.
Qed.

Lemma scan_fields value values out :
  scan out EmptyString false
    (js_join (str1 comma) (map csvEscape (value :: values)))
  = out ++ map (λ v, trim (field_text v)) (value :: values).
Proof.
  revert value out. induction values as [|v' values IH]; intros value out.
  - simpl. rewrite <-(app_Empty_r (csvEscape value)), scan_field by done.
    reflexivity.
  - change (js_join (str1 comma) (map csvEscape (value :: v' :: values)))
      with (csvEscape value +:+ str1 comma
            +:+ js_join (str1 comma) (map csvEscape (v' :: values))).
    rewrite scan_field by done.
    change (str1 comma +:+ ?x) with (String comma x).
    rewrite scan_comma, IH, <-app_assoc. reflexivity.
Qed.

End ReadBack.

Lemma csvEscape_text_inj v1 v2 :
  csvEscape v1 = csvEscape v2 → field_text v1 = field_text v2.
Proof.
  intros H.
  pose proof (scan_fields id v1 [] []) as H1.
  pose proof (scan_fields id v2 [] []) as H2.
  simpl in H1, H2. rewrite H, H2 in H1. by simplify_eq.
Qed.

(** X7. The CSV encoding loses nothing: two values encoded as the same
    field have the same text, and two rows serialised as the same line
    have the same text in every declared column. *)
Theorem csv_line_lossless (hs : list string) (r1 r2 : CsvRow) :
  (∀ v1 v2, csvEscape v1 = csvEscape v2 → field_text v1 = field_text v2)
  ∧ (csv_line hs r1 = csv_line hs r2 →
     ∀ h, h ∈ hs → field_text (row_get r1 h) = field_text (row_get r2 h)).
Proof.
  split; [apply csvEscape_text_inj|].
  intros H h Hh. unfold csv_line in H.
  destruct hs as [|h0 hs]; [by apply elem_of_nil in Hh|].
  pose proof (scan_fields id (row_get r1 h0)
                (map (λ h, row_get r1 h) hs) []) as H1.
  pose proof (scan_fields id (row_get r2 h0)
                (map (λ h, row_get r2 h) hs) []) as H2.
  rewrite <-!map_cons, !map_map in H1, H2.
  rewrite H, H2 in H1. simpl in H1. injection H1 as H0 Hrest.
  apply elem_of_cons in Hh as [->|Hh]; [done|].
  clear -Hrest Hh. induction hs as [|x hs IH]; [by apply elem_of_nil in Hh|].
  simpl in Hrest. injection Hrest as Hx Hrest.
  apply elem_of_cons in Hh as [->|Hh]; [done|by apply IH].
Qed.

Lemma csv_line_lossless_witness :
  field_text (row_get (submission_row Sample.sub1 "Ann" Sample.day2) "time_range")
  = "AM".
Proof.
  destruct (csv_line_lossless submissions_headers
              (submission_row Sample.sub1 "Ann" Sample.day2)
              [("time_range", JStr "AM"); ("submission_id", JNum 1);
               ("year_month", JStr "2026-03"); ("employee_id", JNum 7);
               ("employee_name", JStr "Ann"); ("target_date", JStr "2026-03-02");
               ("availability", JStr "negotiable")]) as [_ H].
  apply (H eq_refl "time_range"). compute_done.
Defined.

(** X17. The line reader of the runtime-parameter script reads a line
    written by [rowsToCsv] back into its fields: one field per declared
    column, each the trimmed text of the row's value, whatever commas,
    double quotes or line breaks the value holds. For an empty column list
    the line is empty and is read as one empty field. *)
Theorem parseCsvLine_reads_csv_line (trim : string → string)
    (hs : list string) (row : CsvRow) :
  parseCsvLine trim (csv_line hs row)
  = match hs with
    | [] => [trim EmptyString]
    | _ => map (λ h, trim (field_text (row_get row h))) hs
    end.
Proof.
  destruct hs as [|h0 hs]; [done|].
  unfold parseCsvLine, csv_line.
  rewrite <-(map_map (λ h, row_get row h) csvEscape), map_cons, scan_fields.
  rewrite <-map_cons, map_map. reflexivity.
Qed.

(** ** More on the artifact writer *)

Lemma calcDiff_from_empty (m : RowHashMap) : calcDiff ∅ m = mkDiff (size m) 0 0.
Proof.
  pose proof (calcDiff_inserted ∅ m) as Hi.
  pose proof (calcDiff_updated ∅ m) as Hu.
  pose proof (calcDiff_deleted ∅ m) as Hd.
  rewrite dom_empty_L in Hi, Hd.
  rewrite difference_empty_L, size_dom in Hi.
  assert ((∅ : gset string) ∖ dom m = ∅) as Hemp by set_solver.
  rewrite Hemp, size_empty in Hd.
  assert (filter (is_updated ∅) m = ∅) as Hf.
  { apply map_eq. intros k. rewrite lookup_empty. apply eq_None_not_Some.
    intros [v Hv]. apply map_lookup_filter_Some in Hv as [_ [[x Hx] _]].
    by rewrite lookup_empty in Hx. }
  rewrite Hf, map_size_empty in Hu.
  destruct (calcDiff ∅ m); simpl in *. by subst.
Qed.

Section WriterExtras.

Variable clock : nat → Z.
Variable toISOString : Z → string.

Let write := writeCsvWithDiff clock toISOString.

Lemma write_artifact_is_last o w :
  artifact (write o w).1
  = artifact_of_entry <$> last (history o (write o w).2).
Proof.
  destruct (write_cases clock toISOString o w) as [Hc|(Hc & Hw & Hd & Hf)].
  - destruct (changed_export_next_version clock toISOString o w Hc)
      as (_ & _ & Hh & _).
    destruct (write_changed clock toISOString o w Hc) as (Hr & _).
    unfold write. rewrite Hh, last_snoc, Hr. done.
  - unfold write. rewrite Hw.
    rewrite (write_unchanged clock toISOString o w); [done| |done].
    by rewrite Hd.
Qed.

Lemma write_path_truthy o w :
  js_falsy (latestFilePath (loaded o (write o w).2)) = false.
Proof.
  destruct (write_cases clock toISOString o w) as [Hc|(_ & Hw & _ & Hf)].
  - unfold write. rewrite loaded_after_change by done. simpl.
    apply bool_decide_eq_false_2, path_join_nonempty.
  - unfold write. by rewrite Hw.
Qed.

(** X8. An export that writes makes the index coherent with its history,
    an export that does not write keeps it so; in both cases the artifact
    handed back is the last entry of the stored history, so on a coherent
    index it is the artifact the index names as latest. *)
Theorem index_coherence_kept (o : WriteOptions) (w : World) :
  index_coherent o w ∨ changed (write o w).1 = true →
  index_coherent o (write o w).2
  ∧ artifact (write o w).1
    = artifact_of_entry <$> last (history o (write o w).2)
  ∧ ∃ a, artifact (write o w).1 = Some a
         ∧ latestFilePath (loaded o (write o w).2) = Some (filePath a)
         ∧ latestVersion (loaded o (write o w).2) = version a.
Proof.
  intros H.
  assert (index_coherent o (write o w).2) as Hco.
  { destruct (write_cases clock toISOString o w) as [Hc|(Hc & Hw & _)].
    - unfold index_coherent.
      destruct (changed_export_next_version clock toISOString o w Hc)
        as (_ & _ & Hh & _).
      unfold write. rewrite Hh, last_snoc, loaded_after_change by done. done.
    - destruct H as [H|H]; [|unfold write in *; congruence].
      unfold write. by rewrite Hw. }
  split; [done|]. split; [apply write_artifact_is_last|].
  rewrite write_artifact_is_last.
  pose proof (write_path_truthy o w) as Ht.
  unfold index_coherent in Hco.
  destruct (last (history o (write o w).2)) as [e|].
  - destruct Hco as [Hp Hv]. exists (artifact_of_entry e). done.
  - by rewrite Hco in Ht.
Qed.

(** X9. What an export never touches: the index file of any other
    dataset, the job ledger and the roster; and of the CSV files it never
    removes one and changes at most one, a file of its own directory that
    receives the serialised rows. *)
Theorem write_leaves_the_rest (o : WriteOptions) (w : World) :
  (∀ p, p ≠ indexPath_of (baseDir o) →
        index_fs (write o w).2 !! p = index_fs w !! p)
  ∧ (csv_fs (write o w).2 = csv_fs w
     ∨ ∃ fn, csv_fs (write o w).2
             = <[path_join (baseDir o) fn := rowsToCsv (headers o) (rows o)]>
                 (csv_fs w))
  ∧ dom (csv_fs w) ⊆ dom (csv_fs (write o w).2)
  ∧ sync_jobs (write o w).2 = sync_jobs w
  ∧ sync_job_items (write o w).2 = sync_job_items w
  ∧ employees_table (write o w).2 = employees_table w
  ∧ next_job_id (write o w).2 = next_job_id w.
Proof.
  split; [intros p Hp; by apply write_index_frame|].
  assert (csv_fs (write o w).2 = csv_fs w
          ∨ ∃ fn, csv_fs (write o w).2
                  = <[path_join (baseDir o) fn := rowsToCsv (headers o) (rows o)]>
                      (csv_fs w)) as Hcsv.
  { destruct (write_cases clock toISOString o w) as [Hc|(_ & Hw & _)].
    - right. destruct (write_changed clock toISOString o w Hc)
        as (_ & _ & Hcsv & _).
      exists (new_fileName clock o w). exact Hcsv.
    - left. unfold write. by rewrite Hw. }
  split; [exact Hcsv|]. split.
  - destruct Hcsv as [->|[fn ->]]; [done|].
    rewrite dom_insert_L. set_solver.
  - apply write_db_frame.
Qed.

(** X10. A missing or unreadable index starts the numbering again: for
    rows whose keys name no inherited member, the export is forced
    whatever the rows, every key counts as inserted, the artifact is
    version 1, and the index written is a readable one that records this
    artifact and the hashes of the rows. *)
Theorem unreadable_index_restarts (o : WriteOptions) (w : World) :
  index_missing (indexPath_of (baseDir o)) w →
  Forall (λ r, plain_key (keyFn o r)) (rows o) →
  (write o w).1
  = {| changed := true;
       diff := mkDiff (size (makeRowHashes (rows o) (keyFn o))) 0 0;
       artifact :=
         Some {| fileName := artifact_fileName (filePrefix o) 1 (clock (ticks w));
                 filePath := path_join (baseDir o)
                               (artifact_fileName (filePrefix o) 1
                                  (clock (ticks w)));
                 version := 1 |} |}
  ∧ csv_fs (write o w).2
      !! path_join (baseDir o)
           (artifact_fileName (filePrefix o) 1 (clock (ticks w)))
    = Some (rowsToCsv (headers o) (rows o))
  ∧ ¬ index_missing (indexPath_of (baseDir o)) (write o w).2
  ∧ latestVersion (loaded o (write o w).2) = 1%Z
  ∧ rowHashes (loaded o (write o w).2) = makeRowHashes (rows o) (keyFn o).
Proof.
  intros Hm _.
  assert (loaded o w = mkIndex 0 None ∅ DefaultFilesArray) as Hl
    by (by apply readIndex_missing).
  destruct (first_export_forced clock toISOString o w Hm) as (Hc & _).
  destruct (write_changed clock toISOString o w Hc) as (Hr & Hidx & Hcsv & _).
  assert (computed_diff o w
          = mkDiff (size (makeRowHashes (rows o) (keyFn o))) 0 0) as Hd.
  { unfold computed_diff, new_hashes. rewrite Hl. simpl.
    by rewrite calcDiff_from_empty. }
  split_and!.
  - unfold write. rewrite Hr, Hd. unfold new_entry, new_fileName.
    rewrite Hl. reflexivity.
  - unfold write. rewrite Hcsv. unfold new_entry, new_fileName. rewrite Hl.
    simpl. by rewrite lookup_insert_eq.
  - unfold write, index_missing. rewrite Hidx, lookup_insert_eq.
    intros [?|?]; done.
  - unfold write. rewrite loaded_after_change by done. simpl. by rewrite Hl.
  - unfold write. by rewrite loaded_after_change.
Qed.

End WriterExtras.

Lemma index_coherence_kept_witness :
  index_coherent (Sample.march Sample.rows_v2)
    (writeCsvWithDiff Sample.clock Sample.toISOString
       (Sample.march Sample.rows_v2) Sample.world1).2.
Proof.
  apply (index_coherence_kept Sample.clock Sample.toISOString
           (Sample.march Sample.rows_v2) Sample.world1).
  left. vm_compute. split; reflexivity.
Defined.

Lemma unreadable_index_restarts_witness :
  latestVersion
    (loaded (Sample.march [])
       (writeCsvWithDiff Sample.clock Sample.toISOString (Sample.march [])
          Sample.world0).2)
  = 1%Z.
Proof.
  apply (unreadable_index_restarts Sample.clock Sample.toISOString
           (Sample.march []) Sample.world0).
  - left. reflexivity.
  - constructor.
Defined.

(** ** Artifact names *)

Lemma pretty_N_go_head x s :
  (0 < x)%N → ∃ c r, pretty_N_go x s = String c r ∧ c ≠ "0"%char.
Proof.
  revert s. induction (N.lt_wf_0 x) as [x _ IH]; intros s Hx.
  rewrite pretty_N_go_step by done.
  assert (x < 10 ∨ 10 ≤ x)%N as [Hlt|Hge] by lia.
  - rewrite (N.div_small x 10) by done. rewrite pretty_N_go_0.
    rewrite (N.mod_small x 10) by done. eexists _, _. split; [done|].
    assert (x = 1 ∨ x = 2 ∨ x = 3 ∨ x = 4 ∨ x = 5 ∨ x = 6
            ∨ x = 7 ∨ x = 8 ∨ x = 9)%N as Hcases by lia.
    destruct Hcases as [->|[->|[->|[->|[->|[->|[->|[->| ->]]]]]]]]; done.
  - apply IH; [by apply N.div_lt|]. apply N.div_str_pos. lia.
Qed.

(** A numeral has no superfluous leading zero. *)
Lemma pretty_Z_canonical (z : Z) :
  pretty z = "0" ∨ ∃ c r, pretty z = String c r ∧ c ≠ "0"%char.
Proof.
  destruct z as [|p|p]; unfold pretty, pretty_Z.
  - by left.
  - right. unfold pretty, pretty_positive, pretty, pretty_N.
    rewrite decide_False by done. by apply pretty_N_go_head.
  - right. eexists _, _. split; [by rewrite app_String|done].
Qed.

Lemma string_replicate_cancel a b c s1 s2 :
  b ≤ a →
  string_replicate a c +:+ s1 = string_replicate b c +:+ s2 →
  string_replicate (a - b) c +:+ s1 = s2.
Proof.
  revert a. induction b as [|b IH]; intros a Hle H.
  - by rewrite Nat.sub_0_r.
  - destruct a as [|a]; [lia|]. simpl in H. rewrite !app_String in H.
    injection H as H. apply IH in H; [done|lia].
Qed.

Lemma padStart_canonical_inj n s1 s2 :
  (s1 = "0" ∨ ∃ c r, s1 = String c r ∧ c ≠ "0"%char) →
  (s2 = "0" ∨ ∃ c r, s2 = String c r ∧ c ≠ "0"%char) →
  padStart n "0"%char s1 = padStart n "0"%char s2 → s1 = s2.
Proof.
  assert (∀ a b s t,
            (s = "0" ∨ ∃ c r, s = String c r ∧ c ≠ "0"%char) →
            (t = "0" ∨ ∃ c r, t = String c r ∧ c ≠ "0"%char) →
            b ≤ a →
            string_replicate a "0"%char +:+ s
            = string_replicate b "0"%char +:+ t → s = t) as Haux.
  { intros a b s t Hs Ht Hle H. apply string_replicate_cancel in H; [|done].
    destruct (a - b) as [|k]; [done|]. exfalso.
    simpl in H. rewrite app_String in H.
    destruct Ht as [->|(c & r & -> & Hc)].
    - injection H as H. destruct k; simpl in H.
      + rewrite app_Empty_l in H. subst s.
        destruct Hs as [?|(? & ? & ? & _)]; done.
      + by rewrite app_String in H.
    - injection H as <- _. done. }
  intros Hs1 Hs2 H. unfold padStart in H.
  destruct (decide (n - String.length s2 ≤ n - String.length s1)).
  - by apply Haux in H.
  - symmetry. symmetry in H. apply Haux in H; [done..|lia].
Qed.

Lemma string_replicate_chars n c :
  chars (string_replicate n c) = replicate n c.
Proof. induction n as [|n IH]; simpl; by rewrite ?IH. Qed.

Lemma artifact_fileName_inj_aux prefix v1 t1 v2 t2 :
  artifact_fileName prefix v1 t1 = artifact_fileName prefix v2 t2 →
  v1 = v2 ∧ t1 = t2.
Proof.
  unfold artifact_fileName. intros H.
  do 2 apply (inj (String.app _)) in H.
  change ("_" +:+ ?x) with (String "_"%char x) in H.
  apply (string_span_unique is_num_char) in H as (Hv & _ & Ht); try done.
  - apply padStart_canonical_inj in Hv; [|apply pretty_Z_canonical..].
    apply (inj pretty) in Hv as ->. split; [done|].
    change (".csv") with (String "."%char "csv") in Ht.
    apply (string_span_unique is_num_char) in Ht as (Ht & _);
      [|apply pretty_Z_num_chars..|done|done].
    by apply (inj pretty) in Ht.
  - unfold padStart. rewrite chars_app, string_replicate_chars.
    apply Forall_app. split; [by apply Forall_replicate|apply pretty_Z_num_chars].
  - unfold padStart. rewrite chars_app, string_replicate_chars.
    apply Forall_app. split; [by apply Forall_replicate|apply pretty_Z_num_chars].
Qed.

(** X11. The name of an artifact determines its version and its time
    stamp. An export that writes right after another export of the same
    dataset that wrote takes the next version and a different path, so the
    earlier artifact is still there with its content. *)
Theorem artifacts_not_overwritten (clock : nat → Z) (toISOString : Z → string)
    (o1 o2 : WriteOptions) (w : World) :
  (∀ prefix v1 t1 v2 t2,
     artifact_fileName prefix v1 t1 = artifact_fileName prefix v2 t2 →
     v1 = v2 ∧ t1 = t2)
  ∧ (baseDir o1 = baseDir o2 → filePrefix o1 = filePrefix o2 →
     changed (writeCsvWithDiff clock toISOString o1 w).1 = true →
     changed (writeCsvWithDiff clock toISOString o2
                (writeCsvWithDiff clock toISOString o1 w).2).1 = true →
     ∃ a1 a2,
       artifact (writeCsvWithDiff clock toISOString o1 w).1 = Some a1
       ∧ artifact (writeCsvWithDiff clock toISOString o2
                     (writeCsvWithDiff clock toISOString o1 w).2).1 = Some a2
       ∧ version a2 = (version a1 + 1)%Z
       ∧ filePath a1 ≠ filePath a2
       ∧ csv_fs (writeCsvWithDiff clock toISOString o2
                   (writeCsvWithDiff clock toISOString o1 w).2).2
           !! filePath a1
         = Some (rowsToCsv (headers o1) (rows o1))).
Proof.
  split; [apply artifact_fileName_inj_aux|].
  intros Hdir Hpre Hc1 Hc2.
  set (w1 := (writeCsvWithDiff clock toISOString o1 w).2) in *.
  destruct (write_changed clock toISOString o1 w Hc1) as (Hr1 & _ & Hcsv1 & _).
  destruct (write_changed clock toISOString o2 w1 Hc2) as (Hr2 & _ & Hcsv2 & _).
  assert (loaded o2 w1 = loaded o1 w1) as Hl.
  { symmetry. by apply loaded_ext. }
  assert (latestVersion (loaded o2 w1) = (latestVersion (loaded o1 w) + 1)%Z)
    as Hv.
  { rewrite Hl. unfold w1. by rewrite loaded_after_change. }
  assert (entry_filePath (new_entry clock toISOString o1 w)
          ≠ entry_filePath (new_entry clock toISOString o2 w1)) as Hne.
  { unfold new_entry, new_fileName. simpl. rewrite Hv, <-Hdir, <-Hpre.
    intros H. apply (inj (String.app _)) in H.
    apply (inj (String.app _)) in H.
    apply artifact_fileName_inj_aux in H as [H _]. lia. }
  eexists _, _. rewrite Hr1, Hr2. split_and!; [done|done| | |].
  - simpl. rewrite Hv. done.
  - exact Hne.
  - rewrite Hcsv2, lookup_insert_ne by done.
    unfold w1. rewrite Hcsv1. simpl. by rewrite lookup_insert_eq.
Qed.

Lemma artifacts_not_overwritten_witness :
  ∃ a1 a2,
    artifact (writeCsvWithDiff Sample.clock Sample.toISOString
                (Sample.march Sample.rows_v1) Sample.world0).1 = Some a1
    ∧ artifact (writeCsvWithDiff Sample.clock Sample.toISOString
                  (Sample.march Sample.rows_v2) Sample.world1).1 = Some a2
    ∧ filePath a1 ≠ filePath a2.
Proof.
  destruct (proj2 (artifacts_not_overwritten Sample.clock Sample.toISOString
                     (Sample.march Sample.rows_v1) (Sample.march Sample.rows_v2)
                     Sample.world0))
    as (a1 & a2 & H1 & H2 & _ & Hne & _).
  - reflexivity.
  - reflexivity.
  - vm_compute. reflexivity.
  - vm_compute. reflexivity.
  - exists a1, a2. split; [exact H1|]. split; [exact H2|exact Hne].
Defined.

(** ** The roster export *)

Lemma StronglySorted_mono {A} (R R' : A → A → Prop) l :
  (∀ a b, R a b → R' a b) → StronglySorted R l → StronglySorted R' l.
Proof.
  intros HR. induction 1 as [|x l Hl IH Hx]; constructor; [done|].
  eapply Forall_impl; [exact Hx|]. intros y. apply HR.
Qed.

Lemma employee_key_row e : employee_key (employee_row e) = pretty (emp_id e).
Proof. reflexivity. Qed.

Lemma js_Number_safe (z : Z) : safe_integer z → js_Number z = z.
Proof.
  unfold safe_integer, js_Number. intros Hz. cbv zeta.
  destruct (Z.ltb_spec (Z.abs z) (2 ^ 53)) as [_|Hge]; [done|].
  change (2 ^ 53)%Z with 9007199254740992%Z in Hge. lia.
Qed.

(** X14. The rows of the roster export are the rows of the employees, one
    each, in ascending order of [Number(employee_id)]; when every id is
    within [Number.MAX_SAFE_INTEGER] this is the ascending order of the
    ids; when the ids are distinct every employee has its own key and its
    own entry in the row-hash map; and an export that writes stores the
    CSV of exactly these rows under the artifact it returns. *)
Theorem roster_rows_sorted (clock : nat → Z) (toISOString : Z → string)
    (cwd : string) (w : World) :
  roster_rows (employees_table w) ≡ₚ employee_row <$> employees_table w
  ∧ StronglySorted
      (λ a b, (row_number a "employee_id" ≤ row_number b "employee_id")%Z)
      (roster_rows (employees_table w))
  ∧ (Forall (λ e, safe_integer (emp_id e)) (employees_table w) →
     StronglySorted
       (λ a b, (row_integer a "employee_id" ≤ row_integer b "employee_id")%Z)
       (roster_rows (employees_table w)))
  ∧ (NoDup (emp_id <$> employees_table w) →
     NoDup (employee_key <$> roster_rows (employees_table w))
     ∧ size (makeRowHashes (roster_rows (employees_table w)) employee_key)
       = length (employees_table w))
  ∧ (changed (exportEmployeesCsvDiff clock toISOString cwd w).1 = true →
     ∃ a, artifact (exportEmployeesCsvDiff clock toISOString cwd w).1 = Some a
          ∧ csv_fs (exportEmployeesCsvDiff clock toISOString cwd w).2
              !! filePath a
            = Some (rowsToCsv employees_headers
                      (roster_rows (employees_table w)))).
Proof.
  assert (StronglySorted
            (λ a b, (row_number a "employee_id"
                     ≤ row_number b "employee_id")%Z)
            (roster_rows (employees_table w))) as Hsorted.
  { unfold roster_rows.
    eapply StronglySorted_mono;
      [|apply (js_sort_strongly_sorted
                 (λ a b, (row_number a "employee_id"
                          - row_number b "employee_id")%Z))].
    + intros a b. unfold cmp_le. lia.
    + intros a b. unfold cmp_le. lia.
    + intros a b c. unfold cmp_le. lia. }
  split_and!.
  - apply js_sort_perm.
  - exact Hsorted.
  - intros Hsafe. revert Hsorted. apply StronglySorted_elem_impl.
    assert (∀ row, row ∈ roster_rows (employees_table w) →
              row_number row "employee_id" = row_integer row "employee_id")
      as Hexact.
    { intros row Hrow. unfold roster_rows in Hrow.
      rewrite js_sort_perm in Hrow.
      apply list_elem_of_fmap in Hrow as (e & -> & He).
      rewrite Forall_forall in Hsafe.
      unfold row_number, row_integer. cbn [employee_row row_get].
      rewrite decide_True by reflexivity. by apply js_Number_safe, Hsafe. }
    intros a b Ha Hb. by rewrite (Hexact a Ha), (Hexact b Hb).
  - intros Hnd.
    assert (NoDup (employee_key <$> roster_rows (employees_table w))) as Hk.
    { unfold roster_rows. rewrite js_sort_perm.
      change (map employee_row (employees_table w))
        with (employee_row <$> employees_table w).
      assert (employee_key <$> (employee_row <$> employees_table w)
              = pretty <$> (emp_id <$> employees_table w)) as ->.
      { clear Hnd Hsorted.
        induction (employees_table w) as [|e l IH]; [done|].
        rewrite !fmap_cons, IH. by rewrite employee_key_row. }
      by apply (NoDup_fmap_2 pretty). }
    split; [done|].
    rewrite makeRowHashes_size_NoDup by done.
    unfold roster_rows. by rewrite js_sort_perm, length_map.
  - intros Hc. unfold exportEmployeesCsvDiff in *.
    destruct (write_changed clock toISOString _ _ Hc) as (Hr & _ & Hcsv & _).
    eexists. rewrite Hr. split; [done|].
    rewrite Hcsv. simpl. by rewrite lookup_insert_eq.
Qed.

Lemma roster_rows_sorted_witness :
  size (makeRowHashes (roster_rows (employees_table Sample.world0)) employee_key)
  = 2.
Proof.
  destruct (roster_rows_sorted Sample.clock Sample.toISOString Sample.cwd
              Sample.world0) as (_ & _ & Hs & H & _).
  assert (StronglySorted
            (λ a b, (row_integer a "employee_id"
                     ≤ row_integer b "employee_id")%Z)
            (roster_rows (employees_table Sample.world0))) as _.
  { apply Hs. repeat constructor; vm_compute; discriminate. }
  destruct H as [_ ->]; [compute_done|reflexivity].
Defined.

(** ** The ledger tables *)

Lemma same_item_key_spec a b :
  same_item_key a b = true ↔ item_key a = item_key b.
Proof.
  unfold same_item_key, item_key. rewrite bool_decide_eq_true.
  split; [intros [-> ->]; done|intros [= -> ->]; done].
Qed.

Lemma upsert_item_keys it l :
  item_key <$> upsert_item it l
  = if decide (item_key it ∈ item_key <$> l)
    then item_key <$> l
    else (item_key <$> l) ++ [item_key it].
Proof.
  induction l as [|x l IH]; cbn [upsert_item].
  - rewrite decide_False; [done|]. apply not_elem_of_nil.
  - destruct (same_item_key x it) eqn:E.
    + apply same_item_key_spec in E.
      rewrite decide_True by (rewrite fmap_cons, E; left).
      by rewrite !fmap_cons, E.
    + assert (item_key x ≠ item_key it) as Hne.
      { intros H. apply same_item_key_spec in H. congruence. }
      rewrite !fmap_cons, IH.
      destruct (decide (item_key it ∈ item_key <$> l)) as [Hin|Hin].
      * rewrite decide_True; [done|]. by right.
      * rewrite decide_False; [done|].
        rewrite not_elem_of_cons. split; [congruence|done].
Qed.

Lemma upsert_item_elem it l x :
  x ∈ upsert_item it l → x = it ∨ (x ∈ l ∧ item_key x ≠ item_key it)
                         ∨ (x ∈ l ∧ item_key it ∈ item_key <$> l).
Proof.
  induction l as [|y l IH]; simpl.
  - intros H. apply list_elem_of_singleton in H. by left.
  - destruct (same_item_key y it) eqn:E.
    + intros H. apply elem_of_cons in H as [->|H]; [by left|].
      right. right. split; [by right|].
      apply same_item_key_spec in E. rewrite <-E. left.
    + intros H. apply elem_of_cons in H as [->|H].
      * right. left. split; [by left|].
        intros Hk. apply same_item_key_spec in Hk. congruence.
      * destruct (IH H) as [->|[[Hx Hk]|[Hx Hk]]]; [by left|..].
        -- right. left. split; [by right|done].
        -- right. right. split; [by right|]. rewrite ?fmap_cons. by right.
Qed.

Lemma upsert_item_NoDup it l :
  NoDup (item_key <$> l) → NoDup (item_key <$> upsert_item it l).
Proof.
  intros Hnd. rewrite upsert_item_keys. case_decide; [done|].
  apply NoDup_app. split_and!; [done| |apply NoDup_singleton].
  intros k Hk Hk'. apply list_elem_of_singleton in Hk' as ->. done.
Qed.

Lemma upsert_item_in it l : it ∈ upsert_item it l.
Proof.
  induction l as [|x l IH]; cbn [upsert_item]; [by left|].
  destruct (same_item_key x it); [by left|by right].
Qed.

Lemma upsert_item_same_key it l x :
  NoDup (item_key <$> l) →
  x ∈ upsert_item it l → item_key x = item_key it → x = it.
Proof.
  intros Hnd Hx Hk. apply upsert_item_NoDup with (it := it) in Hnd.
  pose proof (upsert_item_in it l) as Hin.
  apply list_elem_of_lookup in Hx as [i Hi].
  apply list_elem_of_lookup in Hin as [j Hj].
  assert (i = j) as ->; [|congruence].
  eapply NoDup_lookup; [exact Hnd|..];
    rewrite list_lookup_fmap; [by rewrite Hi|by rewrite Hj, Hk].
Qed.

Lemma upsert_item_other it l x :
  item_key x ≠ item_key it → (x ∈ upsert_item it l ↔ x ∈ l).
Proof.
  intros Hk. split.
  - intros Hx. apply upsert_item_elem in Hx as [->|[[Hx _]|[Hx _]]]; done.
  - induction l as [|y l IH]; cbn [upsert_item].
    + intros H. by apply elem_of_nil in H.
    + intros H. destruct (same_item_key y it) eqn:E.
      * apply elem_of_cons in H as [->|H]; [|by right].
        apply same_item_key_spec in E. done.
      * apply elem_of_cons in H as [->|H]; [by left|right; by apply IH].
Qed.

(** The loop that records one item per settled promise. *)
Lemma upsert_all (f : ShiftSubmission → SyncItem) subs l :
  NoDup (item_key <$> l) →
  NoDup (item_key <$> foldl (λ l' s, upsert_item (f s) l') l subs)
  ∧ (∀ s, s ∈ subs →
          ∃ s', s' ∈ subs ∧ item_key (f s') = item_key (f s)
                ∧ f s' ∈ foldl (λ l' s, upsert_item (f s) l') l subs)
  ∧ (∀ x, x ∈ foldl (λ l' s, upsert_item (f s) l') l subs →
          (x ∈ l ∧ ∀ s, s ∈ subs → item_key x ≠ item_key (f s))
          ∨ ∃ s, s ∈ subs ∧ x = f s)
  ∧ (∀ x, (∀ s, s ∈ subs → item_key x ≠ item_key (f s)) →
          (x ∈ foldl (λ l' s, upsert_item (f s) l') l subs ↔ x ∈ l)).
Proof.
  revert l. induction subs as [|s subs IH]; intros l Hnd.
  { cbn [foldl]. split_and!; [done| | |done].
    - intros s Hs. by apply elem_of_nil in Hs.
    - intros x Hx. left. split; [done|]. intros s Hs.
      by apply elem_of_nil in Hs. }
  cbn [foldl].
  destruct (IH (upsert_item (f s) l) (upsert_item_NoDup _ _ Hnd))
    as (IH1 & IH2 & IH3 & IH4).
  split_and!.
  - exact IH1.
  - intros s0 Hs0.
    assert (∀ s1, s1 ∈ subs →
              ∃ s', s' ∈ s :: subs ∧ item_key (f s') = item_key (f s1)
                    ∧ f s' ∈ foldl (λ l' s, upsert_item (f s) l')
                               (upsert_item (f s) l) subs) as Hlater.
    { intros s1 Hs1. destruct (IH2 s1 Hs1) as (s' & Hs' & Hk & Hin).
      exists s'. split_and!; [by right|done|done]. }
    apply elem_of_cons in Hs0 as [->|Hs0]; [|by apply Hlater].
    destruct (decide (item_key (f s) ∈ (λ s', item_key (f s')) <$> subs))
      as [Hin|Hnot].
    + apply list_elem_of_fmap in Hin as (s1 & Hk & Hs1).
      destruct (Hlater s1 Hs1) as (s' & Hs' & Hk' & Hin').
      exists s'. split_and!; [done|congruence|done].
    + exists s. split_and!; [by left|done|].
      apply IH4; [|apply upsert_item_in].
      intros s1 Hs1 Hk. apply Hnot. rewrite Hk.
      by apply (list_elem_of_fmap_2 (λ s', item_key (f s'))).
  - intros x Hx. destruct (IH3 x Hx) as [[Hx1 Hne]|(s' & Hs' & ->)].
    + destruct (decide (item_key x = item_key (f s))) as [Hk|Hk].
      * right. exists s. split; [by left|].
        by apply (upsert_item_same_key (f s) l).
      * left. split; [by apply (upsert_item_other (f s))|].
        intros s1 Hs1. apply elem_of_cons in Hs1 as [->|Hs1]; [done|].
        by apply Hne.
    + right. exists s'. split; [by right|done].
  - intros x Hne. rewrite IH4.
    + apply upsert_item_other, Hne. by left.
    + intros s1 Hs1. apply Hne. by right.
Qed.

Section LedgerOfARun.

Variable clock : nat → Z.
Variable toISOString : Z → string.
Variable timestamptz_text : Z → string.
Variable cwd : string.
Variable localeCompare : string → string → Z.

Local Abbreviation run :=
  (runCsvSync clock toISOString timestamptz_text cwd localeCompare).

(** X18. A run keeps the item table unique on (job, submission), also when
    a record is listed twice: for every listed record there is one item
    of the run's job under its id, and it carries the outcome of a listed
    record with that id; any other item was there before the run; and the
    items of the other jobs are the same before and after. *)
Theorem run_ledger_stays_unique (sched : list nat) (o : CsvSyncOptions)
    (w : World) :
  submissions o ≠ [] →
  sched ≡ₚ seq 0 (length (submissions o)) →
  NoDup (item_key <$> sync_job_items w) →
  ∃ r w',
    run sched o w = (Returned r, w')
    ∧ NoDup (item_key <$> sync_job_items w')
    ∧ (∀ s, s ∈ submissions o →
            ∃ s', s' ∈ submissions o ∧ sub_id s' = sub_id s
                  ∧ expected_item (job_id (job r)) s' ∈ sync_job_items w'
                  ∧ item_key (expected_item (job_id (job r)) s')
                    = (job_id (job r), sub_id s))
    ∧ (∀ x, x ∈ sync_job_items w' →
            (x ∈ sync_job_items w
             ∧ ∀ s, s ∈ submissions o →
                    item_key x ≠ (job_id (job r), sub_id s))
            ∨ ∃ s, s ∈ submissions o ∧ x = expected_item (job_id (job r)) s)
    ∧ (∀ x, item_syncJobId x ≠ job_id (job r) →
            (x ∈ sync_job_items w' ↔ x ∈ sync_job_items w)).
Proof.
  intros Hne Hsched Hnd.
  eexists _, _. split; [by apply runCsvSync_returns|].
  cbn [job job_id].
  rewrite ledger_after_run. unfold world_with_items.
  rewrite foldl_addSyncJobItem.
  cbn [set_sync_job_items sync_job_items world_with_job].
  assert (∀ s, item_key (item_of w s) = (next_job_id w, sub_id s)) as Hkey.
  { intros s. unfold item_key. by destruct (item_of_key w s) as [-> ->]. }
  destruct (upsert_all (item_of w) (submissions o) (sync_job_items w) Hnd)
    as (H1 & H2 & H3 & H4).
  split_and!.
  - exact H1.
  - intros s Hs. destruct (H2 s Hs) as (s' & Hs' & Hk & Hin).
    rewrite !Hkey in Hk. exists s'.
    rewrite <-item_of_expected. split_and!; [done|congruence|done|].
    rewrite Hkey. congruence.
  - intros x Hx. destruct (H3 x Hx) as [[Hx' Hk]|(s & Hs & ->)].
    + left. split; [done|]. intros s Hs. rewrite <-Hkey. by apply Hk.
    + right. exists s. by rewrite item_of_expected.
  - intros x Hj. apply H4. intros s _. rewrite Hkey. unfold item_key.
    congruence.
Qed.

End LedgerOfARun.

Lemma run_ledger_stays_unique_witness :
  ∃ r w',
    SampleRun.run SampleRun.sched SampleRun.options Sample.world0
    = (Returned r, w')
    ∧ NoDup (item_key <$> sync_job_items w').
Proof.
  destruct (run_ledger_stays_unique Sample.clock Sample.toISOString
              Sample.timestamptz_text Sample.cwd Sample.localeCompare
              SampleRun.sched SampleRun.options Sample.world0)
    as (r & w' & Hrun & Hnd & _).
  - discriminate.
  - compute_done.
  - constructor.
  - exists r, w'. split; [exact Hrun|exact Hnd].
Defined.

(** ** More on a run *)

Lemma employeeNameById_of_lookup (emps : list Employee) (id : Z) :
  employeeNameById_of emps !! id
  = emp_displayName <$> last (filter (λ e, emp_id e = id) emps).
Proof.
  unfold employeeNameById_of.
  induction emps as [|e emps IH] using rev_ind; [done|].
  rewrite foldl_snoc, filter_app, filter_cons, filter_nil.
  destruct (decide (emp_id e = id)) as [<-|Hne].
  - by rewrite lookup_insert_eq, last_snoc.
  - by rewrite lookup_insert_ne, app_nil_r.
Qed.

(** X20. The name a projected row carries is the display name of the last
    roster entry with the submission's employee id, and the label
    employee-<id> when the roster has no such entry; a record with detail
    lines gives one row per line, each with the id and the month of the
    record. *)
Theorem projected_row_names (w : World) (s : ShiftSubmission) :
  sub_details s ≠ [] →
  ∃ rs,
    outcome_of w s = Fulfilled rs
    ∧ length rs = length (sub_details s)
    ∧ ∀ row, row ∈ rs →
        row_get row "employee_name"
        = Some (JStr (default ("employee-" +:+ pretty (sub_employeeId s))
                        (emp_displayName
                           <$> last (filter (λ e, emp_id e = sub_employeeId s)
                                       (employees_table w)))))
        ∧ row_get row "submission_id" = Some (JNum (sub_id s))
        ∧ row_get row "year_month" = Some (JStr (sub_yearMonth s))
        ∧ ∃ d, d ∈ sub_details s
               ∧ row_get row "target_date" = Some (JStr (targetDate d))
               ∧ row_get row "time_range"
                 = Some (JStr (default EmptyString (memo d))).
Proof.
  intros Hd. destruct (outcome_of_cases w s) as [[? _]|[_ Ho]]; [done|].
  eexists. split; [exact Ho|]. split.
  - unfold buildSubmissionRows. apply length_map.
  - intros row Hrow. unfold buildSubmissionRows in Hrow.
    apply list_elem_of_fmap in Hrow as (d & -> & Hin).
    unfold names_of. rewrite employeeNameById_of_lookup.
    split_and!; [done..|]. exists d. done.
Qed.

Lemma projected_row_names_witness :
  ∃ rs, outcome_of Sample.world0 Sample.sub2 = Fulfilled rs ∧ length rs = 1.
Proof.
  destruct (projected_row_names Sample.world0 Sample.sub2) as (rs & H1 & H2 & _).
  - discriminate.
  - exists rs. split; [exact H1|exact H2].
Defined.

Section RunExtras.

Variable clock : nat → Z.
Variable toISOString : Z → string.
Variable timestamptz_text : Z → string.
Variable cwd : string.
Variable localeCompare : string → string → Z.

Let run := runCsvSync clock toISOString timestamptz_text cwd localeCompare.
Let finished := world_finished clock toISOString timestamptz_text cwd
                  localeCompare.
Let sub_export := submissions_export clock toISOString timestamptz_text cwd
                    localeCompare.
Let emp_export := employees_export clock toISOString timestamptz_text cwd
                    localeCompare.

Lemma failure_count_le w subs : failure_count w subs ≤ length subs.
Proof. unfold failure_count. apply length_filter. Qed.

Lemma success_count_eq w subs :
  length subs - failure_count w subs
  = length (filter (λ s, sub_details s ≠ []) subs).
Proof.
  unfold failure_count. induction subs as [|s subs IH]; [done|].
  rewrite !filter_cons.
  pose proof (length_filter (λ s, is_rejected (outcome_of w s) = true) subs).
  destruct (outcome_of_cases w s) as [[Hd Ho]|[Hd Ho]]; rewrite Ho;
    repeat case_decide; cbn [is_rejected length] in *;
    try done; try lia.
Qed.

(** X12. The summary of a run adds up: every record is counted once, as a
    success when it has detail lines and as a failure otherwise; the error
    message of the job is set exactly when a record failed; and the
    submission diff reported is the diff between the row hashes stored
    before the run and those of the rows handed to the writer. *)
Theorem run_summary_adds_up (sched : list nat) (o : CsvSyncOptions)
    (w : World) :
  submissions o ≠ [] →
  sched ≡ₚ seq 0 (length (submissions o)) →
  ∃ r w',
    run sched o w = (Returned r, w')
    ∧ success_count (summary r) + failed_count (summary r)
      = total_count (summary r)
    ∧ total_count (summary r) = length (submissions o)
    ∧ success_count (summary r)
      = length (filter (λ s, sub_details s ≠ []) (submissions o))
    ∧ (job_errorMessage (job r) = Some partial_failure_message
       ↔ 0 < failed_count (summary r))
    ∧ (job_errorMessage (job r) = None ↔ failed_count (summary r) = 0)
    ∧ submissionDiff (summary r)
      = calcDiff (rowHashes (loaded (month cwd o) w))
          (makeRowHashes (sync_rows localeCompare w (submissions o))
             submission_key).
Proof.
  intros Hne Hsched. eexists _, _.
  split; [by apply runCsvSync_returns|].
  cbn [summary job success_count failed_count total_count job_errorMessage
       submissionDiff].
  pose proof (failure_count_le w (submissions o)).
  split_and!.
  - lia.
  - done.
  - apply success_count_eq.
  - unfold final_error. case_bool_decide; split; (done || lia).
  - unfold final_error. case_bool_decide; split; (done || lia).
  - unfold submissions_export. rewrite write_diff.
    unfold computed_diff, new_hashes. by rewrite loaded_with_items.
Qed.

Lemma finish_tick_db id st err (x : World) :
  next_job_id (tick (finishSyncJob clock timestamptz_text id st err x))
  = next_job_id x
  ∧ employees_table (tick (finishSyncJob clock timestamptz_text id st err x))
    = employees_table x.
Proof. done. Qed.

Lemma next_job_id_after_run o w :
  next_job_id (tick (finished o w)) = (next_job_id w + 1)%Z.
Proof.
  transitivity (next_job_id (emp_export o w).2).
  { unfold finished, world_finished. apply finish_tick_db. }
  transitivity (next_job_id (sub_export o w).2).
  { apply (write_db_frame clock toISOString
             (roster_options cwd
                (roster_rows (listEmployees (sub_export o w).2)))
             (sub_export o w).2). }
  transitivity (next_job_id (world_with_items clock timestamptz_text o w)).
  { apply (write_db_frame clock toISOString
             (submissions_options cwd (yearMonth o)
                (sync_rows localeCompare w (submissions o)))
             (world_with_items clock timestamptz_text o w)). }
  unfold world_with_items. rewrite foldl_addSyncJobItem. reflexivity.
Qed.

(** X19. A run appends exactly one row to the job table, with the next
    id of the sequence and already in its terminal state with a finish
    time; the rows that were there are left as they were, and every id
    stays below the next id of the sequence. *)
Theorem run_appends_one_job (sched : list nat) (o : CsvSyncOptions)
    (w : World) :
  submissions o ≠ [] →
  sched ≡ₚ seq 0 (length (submissions o)) →
  Forall (λ j, (job_id j < next_job_id w)%Z) (sync_jobs w) →
  ∃ r w' j,
    run sched o w = (Returned r, w')
    ∧ sync_jobs w' = sync_jobs w ++ [j]
    ∧ job_id j = next_job_id w
    ∧ job_id (job r) = job_id j
    ∧ job_status j = job_status (job r)
    ∧ job_errorMessage j = job_errorMessage (job r)
    ∧ (job_status j = success ∨ job_status j = failed)
    ∧ is_Some (job_finishedAt j)
    ∧ next_job_id w' = (next_job_id w + 1)%Z
    ∧ Forall (λ j', (job_id j' < next_job_id w')%Z) (sync_jobs w').
Proof.
  intros Hne Hsched Hids.
  assert (∀ st err now,
            map (finish_job (next_job_id w) st err now) (sync_jobs w)
            = sync_jobs w) as Hold.
  { intros st err now. induction Hids as [|j l Hj _ IH]; [done|].
    simpl. rewrite IH. f_equal. unfold finish_job.
    rewrite bool_decide_eq_false_2; [done|lia]. }
  eexists _, _, _. split; [by apply runCsvSync_returns|].
  rewrite jobs_after_run, map_app, Hold, next_job_id_after_run.
  cbn [map]. unfold finish_job at 1. cbn [job_id].
  rewrite bool_decide_eq_true_2 by reflexivity.
  split; [reflexivity|]. cbn [job job_id job_status job_errorMessage
                              job_finishedAt].
  split_and!; try done.
  - unfold final_status. case_bool_decide; auto.
  - apply Forall_app. split.
    + eapply Forall_impl; [exact Hids|]. intros j' Hj'. cbn beta in Hj'. lia.
    + apply Forall_singleton. unfold finish_job. cbn [job_id].
      rewrite bool_decide_eq_true_2 by reflexivity. cbn [job_id]. lia.
Qed.

End RunExtras.

Lemma run_summary_adds_up_witness :
  ∃ r w',
    SampleRun.run SampleRun.sched SampleRun.options Sample.world0
    = (Returned r, w')
    ∧ success_count (summary r) + failed_count (summary r) = 3.
Proof.
  destruct (run_summary_adds_up Sample.clock Sample.toISOString
              Sample.timestamptz_text Sample.cwd Sample.localeCompare
              SampleRun.sched SampleRun.options Sample.world0)
    as (r & w' & Hrun & Hsum & Htot & _).
  - discriminate.
  - compute_done.
  - exists r, w'. split; [exact Hrun|]. rewrite Hsum, Htot. reflexivity.
Defined.

Lemma run_appends_one_job_witness :
  ∃ r w' j,
    SampleRun.run SampleRun.sched SampleRun.options Sample.world0
    = (Returned r, w')
    ∧ sync_jobs w' = [j] ∧ job_id j = 1%Z.
Proof.
  destruct (run_appends_one_job Sample.clock Sample.toISOString
              Sample.timestamptz_text Sample.cwd Sample.localeCompare
              SampleRun.sched SampleRun.options Sample.world0)
    as (r & w' & j & Hrun & Hjobs & Hid & _).
  - discriminate.
  - compute_done.
  - constructor.
  - exists r, w', j. split; [exact Hrun|]. split; [exact Hjobs|exact Hid].
Defined.

(** ** Running twice *)

Lemma truthy_path_own_array o w :
  js_falsy (latestFilePath (loaded o w)) = false →
  ∃ l, files (loaded o w) = OwnArray l.
Proof.
  unfold loaded, readIndex.
  destruct (index_fs w !! _) as [[|p]|]; cbn [latestFilePath files js_falsy];
    [discriminate|eauto|discriminate].
Qed.

Section Rerun.

Variable clock : nat → Z.
Variable toISOString : Z → string.
Variable timestamptz_text : Z → string.
Variable cwd : string.
Variable localeCompare : string → string → Z.

Local Abbreviation write := (writeCsvWithDiff clock toISOString).
Local Abbreviation run :=
  (runCsvSync clock toISOString timestamptz_text cwd localeCompare).
Local Abbreviation with_items := (world_with_items clock timestamptz_text).
Local Abbreviation finished :=
  (world_finished clock toISOString timestamptz_text cwd localeCompare).
Local Abbreviation sub_export :=
  (submissions_export clock toISOString timestamptz_text cwd localeCompare).
Local Abbreviation emp_export :=
  (employees_export clock toISOString timestamptz_text cwd localeCompare).

(** Exporting the rows of the last export again, from any world that has
    kept the index of the dataset, writes nothing. *)
Lemma write_again o w w' :
  index_fs w' !! indexPath_of (baseDir o)
  = index_fs (write o w).2 !! indexPath_of (baseDir o) →
  write o w'
  = ({| changed := false; diff := mkDiff 0 0 0;
        artifact := artifact (write o w).1 |}, w').
Proof.
  intros Hi.
  assert (loaded o w' = loaded o (write o w).2) as Hl by (by apply loaded_ext).
  assert (computed_diff o w' = mkDiff 0 0 0) as Hd.
  { unfold computed_diff. rewrite Hl.
    rewrite loaded_hashes_after_write.
    pose proof (proj2 (calcDiff_zero_iff (new_hashes o) (new_hashes o)) eq_refl).
    destruct (calcDiff _ _) as [i u d]; cbn [inserted updated deleted] in *.
    f_equal; lia. }
  assert (js_falsy (latestFilePath (loaded o w')) = false) as Hf.
  { rewrite Hl. apply write_path_truthy. }
  rewrite write_unchanged; [|by rewrite Hd|exact Hf].
  rewrite Hd. do 2 f_equal.
  rewrite write_artifact_is_last. do 2 f_equal.
  unfold history. rewrite Hl.
  pose proof (write_path_truthy clock toISOString o w) as Ht.
  apply truthy_path_own_array in Ht as [l Ht]. rewrite Ht. reflexivity.
Qed.

Lemma employees_after_run o w :
  employees_table (tick (finished o w)) = employees_table w.
Proof.
  transitivity (employees_table (emp_export o w).2).
  { unfold world_finished. apply finish_tick_db. }
  transitivity (employees_table (sub_export o w).2).
  { apply (write_db_frame clock toISOString
             (roster_options cwd
                (roster_rows (listEmployees (sub_export o w).2)))
             (sub_export o w).2). }
  transitivity (employees_table (with_items o w)).
  { apply (write_db_frame clock toISOString
             (submissions_options cwd (yearMonth o)
                (sync_rows localeCompare w (submissions o)))
             (with_items o w)). }
  apply with_items_storage.
Qed.

Lemma roster_of_sub_export o w :
  listEmployees (sub_export o w).2 = employees_table w.
Proof.
  unfold listEmployees.
  transitivity (employees_table (with_items o w)).
  { apply (write_db_frame clock toISOString
             (submissions_options cwd (yearMonth o)
                (sync_rows localeCompare w (submissions o)))
             (with_items o w)). }
  apply with_items_storage.
Qed.

Lemma sync_rows_same_roster w w' subs :
  employees_table w' = employees_table w →
  sync_rows localeCompare w' subs = sync_rows localeCompare w subs
  ∧ failure_count w' subs = failure_count w subs.
Proof.
  intros He.
  unfold sync_rows, failure_count, projected_rows, outcome_of, names_of.
  by rewrite He.
Qed.

Lemma rerun_sub_export o o2 w :
  is_yearMonth (yearMonth o) = true →
  yearMonth o2 = yearMonth o →
  submissions o2 = submissions o →
  sub_export o2 (tick (finished o w))
  = ({| changed := false; diff := mkDiff 0 0 0;
        artifact := artifact (sub_export o w).1 |},
     with_items o2 (tick (finished o w))).
Proof.
  intros Hym Hy Hs.
  unfold submissions_export at 1. rewrite Hy, Hs.
  rewrite (proj1 (sync_rows_same_roster w (tick (finished o w))
                    (submissions o) (employees_after_run o w))).
  apply (write_again
           (submissions_options cwd (yearMonth o)
              (sync_rows localeCompare w (submissions o)))
           (with_items o w)).
  rewrite (proj1 (with_items_storage clock timestamptz_text o2
                    (tick (finished o w)))).
  by apply month_index_after_run.
Qed.

Lemma rerun_emp_export o o2 w :
  is_yearMonth (yearMonth o) = true →
  yearMonth o2 = yearMonth o →
  submissions o2 = submissions o →
  emp_export o2 (tick (finished o w))
  = ({| changed := false; diff := mkDiff 0 0 0;
        artifact := artifact (emp_export o w).1 |},
     with_items o2 (tick (finished o w))).
Proof.
  intros Hym Hy Hs.
  unfold employees_export at 1. unfold exportEmployeesCsvDiff.
  rewrite rerun_sub_export by done. cbn [snd].
  assert (listEmployees (with_items o2 (tick (finished o w)))
          = listEmployees (sub_export o w).2) as ->.
  { rewrite roster_of_sub_export. unfold listEmployees.
    rewrite (proj2 (proj2 (proj2 (with_items_storage clock timestamptz_text
                                    o2 (tick (finished o w)))))).
    apply employees_after_run. }
  apply (write_again
           (roster_options cwd
              (roster_rows (listEmployees (sub_export o w).2)))
           (sub_export o w).2).
  rewrite (proj1 (with_items_storage clock timestamptz_text o2
                    (tick (finished o w)))).
  by rewrite (proj1 (finished_storage clock toISOString timestamptz_text cwd
                       localeCompare o w)).
Qed.

(** X13. A second run over the same records of the same month, started
    from the world the first run left, reports no change: both diffs are
    zero, the artifacts handed back are those of the first run, the record
    counts and the status are the same, and no index, no CSV file and no
    shared history entry is written. *)
Theorem rerun_writes_nothing (sched sched2 : list nat)
    (o o2 : CsvSyncOptions) (w : World) :
  is_yearMonth (yearMonth o) = true →
  submissions o ≠ [] →
  yearMonth o2 = yearMonth o →
  submissions o2 = submissions o →
  sched ≡ₚ seq 0 (length (submissions o)) →
  sched2 ≡ₚ seq 0 (length (submissions o)) →
  ∃ r1 w1 r2 w2,
    run sched o w = (Returned r1, w1)
    ∧ run sched2 o2 w1 = (Returned r2, w2)
    ∧ run_changed (run_artifact r2) = false
    ∧ submissionDiff (summary r2) = mkDiff 0 0 0
    ∧ employeeDiff (summary r2) = mkDiff 0 0 0
    ∧ submissionsCsv (run_artifact r2) = submissionsCsv (run_artifact r1)
    ∧ employeesCsv (run_artifact r2) = employeesCsv (run_artifact r1)
    ∧ failed_count (summary r2) = failed_count (summary r1)
    ∧ job_status (job r2) = job_status (job r1)
    ∧ index_fs w2 = index_fs w1
    ∧ csv_fs w2 = csv_fs w1
    ∧ default_files w2 = default_files w1.
Proof.
  intros Hym Hne Hy Hs Hsched Hsched2.
  eexists _, _, _, _.
  split; [by apply runCsvSync_returns|].
  split; [apply runCsvSync_returns; by rewrite Hs|].
  cbn [run_artifact summary job run_changed submissionDiff employeeDiff
       submissionsCsv employeesCsv failed_count job_status].
  rewrite (rerun_sub_export o o2 w Hym Hy Hs).
  rewrite (rerun_emp_export o o2 w Hym Hy Hs).
  cbn [fst changed diff artifact orb].
  destruct (sync_rows_same_roster w (tick (finished o w)) (submissions o)
              (employees_after_run o w)) as [_ Hfc].
  split_and!; try reflexivity.
  - by rewrite Hs, Hfc.
  - unfold final_status. by rewrite Hs, Hfc.
  - rewrite (proj1 (finished_storage clock toISOString timestamptz_text cwd
                      localeCompare o2 (tick (finished o w)))).
    rewrite (rerun_emp_export o o2 w Hym Hy Hs). cbn [snd].
    apply with_items_storage.
  - rewrite (proj1 (proj2 (finished_storage clock toISOString timestamptz_text
                             cwd localeCompare o2 (tick (finished o w))))).
    rewrite (rerun_emp_export o o2 w Hym Hy Hs). cbn [snd].
    apply with_items_storage.
  - rewrite (proj2 (proj2 (proj2 (finished_storage clock toISOString
                                    timestamptz_text cwd localeCompare o2
                                    (tick (finished o w)))))).
    rewrite (rerun_emp_export o o2 w Hym Hy Hs). cbn [snd].
    apply with_items_storage.
Qed.

End Rerun.

Lemma rerun_writes_nothing_witness :
  ∃ r1 w1 r2 w2,
    SampleRun.run SampleRun.sched SampleRun.options Sample.world0
    = (Returned r1, w1)
    ∧ SampleRun.run [0; 1; 2] SampleRun.options w1 = (Returned r2, w2)
    ∧ run_changed (run_artifact r2) = false
    ∧ csv_fs w2 = csv_fs w1.
Proof.
  destruct (rerun_writes_nothing Sample.clock Sample.toISOString
              Sample.timestamptz_text Sample.cwd Sample.localeCompare
              SampleRun.sched [0; 1; 2] SampleRun.options SampleRun.options
              Sample.world0)
    as (r1 & w1 & r2 & w2 & H1 & H2 & H3 & _ & _ & _ & _ & _ & _ & _ & H4 & _).
  - reflexivity.
  - discriminate.
  - reflexivity.
  - reflexivity.
  - compute_done.
  - compute_done.
  - exists r1, w1, r2, w2. split; [exact H1|]. split; [exact H2|].
    split; [exact H3|exact H4].
Defined.

(** ** The request validator *)

Lemma snoc_not_nil {A} (l : list A) x : l ++ [x] ≠ [].
Proof. by destruct l. Qed.

Lemma validate_loop (errs : list string) (seen : gset string)
    (ds : list SubmissionDetail) :
  (foldl validate_detail (errs, seen) ds).1 = []
  ↔ errs = []
    ∧ Forall (λ d, is_targetDate (targetDate d) = true) ds
    ∧ NoDup (targetDate <$> ds)
    ∧ ∀ d, d ∈ ds → targetDate d ∉ seen.
Proof.
  revert errs seen. induction ds as [|d ds IH]; intros errs seen.
  - cbn [foldl fst]. split.
    + intros ->. split_and!; [done|constructor|constructor|].
      intros d H. by apply elem_of_nil in H.
    + by intros [-> _].
  - cbn [foldl]. unfold validate_detail at 2. cbn [fst snd].
    rewrite IH, fmap_cons, NoDup_cons, Forall_cons. clear IH.
    destruct (is_targetDate (targetDate d)) eqn:Hdate; cbn [negb];
      case_bool_decide as Hseen.
    + split.
      * intros (H & _). by apply snoc_not_nil in H.
      * intros (_ & _ & _ & H). exfalso. apply (H d); [by left|done].
    + split.
      * intros (-> & Hall & Hnd & Hfresh). split_and!; try done.
        -- intros Hin. apply list_elem_of_fmap in Hin as (d' & Ht & Hd').
           apply (Hfresh d' Hd'). rewrite <-Ht. set_solver.
        -- intros d' Hd'. apply elem_of_cons in Hd' as [->|Hd']; [done|].
           specialize (Hfresh d' Hd'). set_solver.
      * intros (-> & [_ Hall] & [Hnotin Hnd] & Hfresh).
        split_and!; try done.
        intros d' Hd' Hin. apply elem_of_union in Hin as [Hin|Hin].
        -- apply elem_of_singleton in Hin. apply Hnotin. rewrite <-Hin.
           by apply list_elem_of_fmap_2.
        -- apply (Hfresh d'); [by right|done].
    + split.
      * intros (H & _). by apply snoc_not_nil in H.
      * by intros (_ & [? _] & _).
    + split.
      * intros (H & _). by apply snoc_not_nil in H.
      * by intros (_ & [? _] & _).
Qed.

(** X15. The validator returns no error exactly for a request whose month
    has the form YYYY-MM, whose employee id is a positive integer, and
    whose details are present, not empty, all dated in the form
    YYYY-MM-DD, and dated pairwise differently. *)
Theorem validate_accepts_iff (input : ShiftSubmissionCreateRequest) :
  validateShiftSubmissionCreate input = []
  ↔ is_yearMonth (req_yearMonth input) = true
    ∧ (∃ z, req_employeeId input = Some z ∧ (0 < z)%Z)
    ∧ ∃ ds, req_details input = Some ds
            ∧ ds ≠ []
            ∧ Forall (λ d, is_targetDate (targetDate d) = true) ds
            ∧ NoDup (targetDate <$> ds).
Proof.
  unfold validateShiftSubmissionCreate. cbv zeta. rewrite validate_loop.
  destruct input as [ym eid dets]. cbn [req_yearMonth req_employeeId req_details].
  split.
  - intros (Herrs & Hall & Hnd & _).
    destruct (is_yearMonth ym); cbn [negb] in Herrs.
    2:{ destruct eid as [z|]; [case_bool_decide|];
          (destruct dets as [ds|]; [case_bool_decide|]); done. }
    destruct eid as [z|].
    2:{ destruct dets as [ds|]; [case_bool_decide|]; done. }
    case_bool_decide as Hz.
    { destruct dets as [ds|]; [case_bool_decide|]; done. }
    destruct dets as [ds|]; [|done].
    case_bool_decide as Hlen; [done|].
    split_and!; [done|exists z; split; [done|lia]|].
    exists ds. split_and!; try done. intros ->. by apply Hlen.
  - intros (-> & (z & -> & Hz) & (ds & -> & Hne & Hall & Hnd)).
    cbn [negb default]. rewrite (bool_decide_eq_false_2 (z ≤ 0)%Z) by lia.
    rewrite (bool_decide_eq_false_2 (length ds = 0)) by (by destruct ds).
    split_and!; done.
Qed.

(** X16. A record that carries the details of an accepted request is
    never rejected by the projection: it yields one row per detail line,
    and the natural keys of its rows are pairwise distinct. *)
Theorem accepted_request_projects (input : ShiftSubmissionCreateRequest)
    (w : World) (s : ShiftSubmission) :
  validateShiftSubmissionCreate input = [] →
  req_details input = Some (sub_details s) →
  ∃ rs,
    outcome_of w s = Fulfilled rs
    ∧ length rs = length (sub_details s)
    ∧ NoDup (submission_key <$> rs).
Proof.
  intros Hv Hd. unfold validateShiftSubmissionCreate in Hv. cbv zeta in Hv.
  apply validate_loop in Hv as (Herrs & _ & Hnd & _).
  rewrite Hd in Herrs, Hnd. cbn [default] in Hnd.
  assert (sub_details s ≠ []) as Hne.
  { intros He. rewrite He in Herrs.
    rewrite (bool_decide_eq_true_2 (length [] = 0)) in Herrs by reflexivity.
    by apply snoc_not_nil in Herrs. }
  pose proof (rows_of_outcome_keys w s Hnd) as Hk.
  pose proof (rows_of_outcome_length w s) as Hl.
  destruct (outcome_of_cases w s) as [[? _]|[_ Ho]]; [done|].
  rewrite Ho in Hk, Hl |- *. eexists. split; [reflexivity|]. by split.
Qed.

Lemma accepted_request_projects_witness :
  ∃ rs,
    outcome_of Sample.world0 Sample.sub1 = Fulfilled rs
    ∧ length rs = 2.
Proof.
  destruct (accepted_request_projects
              (mkRequest "2026-03" (Some 7%Z) (Some [Sample.day1; Sample.day2]))
              Sample.world0 Sample.sub1) as (rs & H1 & H2 & _).
  - reflexivity.
  - reflexivity.
  - exists rs. split; [exact H1|exact H2].
Defined.

(** ** Concrete instances *)

Lemma calcDiff_zero_iff_same_witness :
  calcDiff (makeRowHashes Sample.rows_v1 submission_key)
    (makeRowHashes Sample.rows_v1 submission_key)
  = mkDiff 0 0 0.
Proof.
  apply (calcDiff_zero_iff_same
           (makeRowHashes Sample.rows_v1 submission_key)
           (makeRowHashes Sample.rows_v1 submission_key)).
  - apply makeRowHashes_plain, Forall_forall. intros r _.
    apply submission_key_plain.
  - apply makeRowHashes_plain, Forall_forall. intros r _.
    apply submission_key_plain.
  - reflexivity.
Defined.

Lemma calcDiff_swap_witness :
  calcDiff (makeRowHashes Sample.rows_v2 submission_key)
    (makeRowHashes [submission_row Sample.sub1 "Ann" Sample.day1]
       submission_key)
  = mkDiff 0 0 1.
Proof.
  rewrite (calcDiff_swap
             (makeRowHashes [submission_row Sample.sub1 "Ann" Sample.day1]
                submission_key)
             (makeRowHashes Sample.rows_v2 submission_key)).
  - vm_compute. reflexivity.
  - apply makeRowHashes_plain, Forall_forall. intros r _.
    apply submission_key_plain.
  - apply makeRowHashes_plain, Forall_forall. intros r _.
    apply submission_key_plain.
Defined.

Lemma calcDiff_size_balance_witness :
  size (makeRowHashes Sample.rows_v2 submission_key)
  + deleted (calcDiff
               (makeRowHashes [submission_row Sample.sub1 "Ann" Sample.day1]
                  submission_key)
               (makeRowHashes Sample.rows_v2 submission_key))
  = 1 + inserted (calcDiff
                    (makeRowHashes [submission_row Sample.sub1 "Ann" Sample.day1]
                       submission_key)
                    (makeRowHashes Sample.rows_v2 submission_key)).
Proof.
  apply (calcDiff_size_balance
           (makeRowHashes [submission_row Sample.sub1 "Ann" Sample.day1]
              submission_key)
           (makeRowHashes Sample.rows_v2 submission_key)).
  - apply makeRowHashes_plain, Forall_forall. intros r _.
    apply submission_key_plain.
  - apply makeRowHashes_plain, Forall_forall. intros r _.
    apply submission_key_plain.
Defined.

Lemma write_leaves_the_rest_witness :
  index_fs (writeCsvWithDiff Sample.clock Sample.toISOString
              (Sample.march Sample.rows_v1) Sample.world0).2
    !! "/app/storage/csv/employees/index.json"
  = index_fs Sample.world0 !! "/app/storage/csv/employees/index.json".
Proof.
  destruct (write_leaves_the_rest Sample.clock Sample.toISOString
              (Sample.march Sample.rows_v1) Sample.world0) as [H _].
  apply H. intros Heq. vm_compute in Heq. discriminate Heq.
Defined.

Lemma validate_accepts_iff_witness :
  validateShiftSubmissionCreate
    (mkRequest "2026-03" (Some 7%Z) (Some [Sample.day1; Sample.day2]))
  = [].
Proof.
  apply (proj2 (validate_accepts_iff
                  (mkRequest "2026-03" (Some 7%Z)
                     (Some [Sample.day1; Sample.day2])))).
  split; [reflexivity|]. split; [exists 7%Z; split; [reflexivity|lia]|].
  exists [Sample.day1; Sample.day2].
  split; [reflexivity|]. split; [discriminate|].
  split; [repeat constructor|compute_done].
Defined.
